(** * Snake shooter: a shallow embedding of [main.py] and its properties

    The simulation core of the game is embedded function by function:
    the grid helpers, the A* pathfinder, the pursuing agents, the trail
    of the snake, the projectiles, and the phases of one frame of the
    main cycle.  Python integers are [Z]; Python floats are idealised as
    real numbers ([R]); dictionaries and sets are stdpp's [gmap] and
    [gset]; lists and deques are lists. *)

From Stdlib Require Import ZArith List Lia Reals Lra Psatz String.
From stdpp Require Import gmap list.

Local Open Scope Z_scope.

(** ** Parameters *)

Definition RES : Z := 800.
Definition SIZE : Z := 20.
Definition CELLS : Z := RES `div` SIZE.
Definition SPEED_CELLS : Z := 15.
Definition SPEED : Z := SPEED_CELLS * SIZE.
Definition INIT_LEN : Z := 5.
Definition BULLET_SPEED : Z := 700.
Definition BULLET_RADIUS : Z := 5.

(** A cell is a pair of integers; Python writes it as a tuple [(cx, cy)]
    or as a two-element list [[cx, cy]]. *)
Abbreviation cell := (Z * Z)%type.

(** [0 <= cx < CELLS and 0 <= cy < CELLS] *)
Definition in_grid (c : cell) : bool :=
  (0 <=? c.1) && (c.1 <? CELLS) && (0 <=? c.2) && (c.2 <? CELLS).

(** [move_to_cell]: the next cell, or [None] outside the grid. *)
Definition move_to_cell (xc yc dx dy : Z) : option cell :=
  let nx := xc + dx in
  let ny := yc + dy in
  if (nx <? 0) || (nx >=? CELLS) || (ny <? 0) || (ny >=? CELLS) then None
  else Some (nx, ny).

(** [can_turn]: a turn is refused only for the exact opposite. *)
Definition can_turn (current new : Z * Z) : bool :=
  negb ((current.1 =? - new.1) && (current.2 =? - new.2)).

(** ** The pathfinder *)

Module Astar.

(** Heap entries are the tuples [(f, g, (x, y))]; [heapq] orders them as
    Python orders tuples, lexicographically. *)
Definition entry : Type := Z * Z * cell.

Definition entry_ltb (a b : entry) : bool :=
  let '(fa, ga, (xa, ya)) := a in
  let '(fb, gb, (xb, yb)) := b in
  (fa <? fb) || ((fa =? fb) &&
    ((ga <? gb) || ((ga =? gb) &&
      ((xa <? xb) || ((xa =? xb) && (ya <? yb)))))).

(** The heap is kept as the collection of its entries; [heappush] adds
    one and [heappop] takes the least one out. *)
Definition heappush (h : list entry) (e : entry) : list entry := e :: h.

Fixpoint heap_min (m : entry) (h : list entry) : entry :=
  match h with
  | [] => m
  | e :: h' => heap_min (if entry_ltb e m then e else m) h'
  end.

Fixpoint heap_remove (m : entry) (h : list entry) : list entry :=
  match h with
  | [] => []
  | e :: h' => if decide (e = m) then h' else e :: heap_remove m h'
  end.

Definition heappop (h : list entry) : option (entry * list entry) :=
  match h with
  | [] => None
  | e :: h' => let m := heap_min e h' in Some (m, heap_remove m h)
  end.

(** The state of the search: the open heap, the [came] and [g]
    dictionaries and the [visited] set. *)
Record search : Type := Search {
  openh : list entry;
  came : gmap cell cell;
  gscore : gmap cell Z;
  visited : gset cell
}.

(** [h(x, y) = abs(x - gx) + abs(y - gy)] *)
Definition heur (goal n : cell) : Z :=
  Z.abs (n.1 - goal.1) + Z.abs (n.2 - goal.2).

Definition deltas : list (Z * Z) := [(1, 0); (-1, 0); (0, 1); (0, -1)].

(** The body of [for dx, dy in ...] for one neighbour of [c]. *)
Definition relax (goal : cell) (blocked : gset cell) (c : cell) (gc : Z)
    (st : search) (d : Z * Z) : search :=
  let n : cell := (c.1 + d.1, c.2 + d.2) in
  if negb (in_grid n) then st
  else if bool_decide (n ∈ blocked) && negb (bool_decide (n = goal)) then st
  else
    let ng := gc + 1 in
    if ng <? default 1000000000 (gscore st !! n) then
      {| openh := heappush (openh st) (ng + heur goal n, ng, n);
         came := <[n := c]> (came st);
         gscore := <[n := ng]> (gscore st);
         visited := visited st |}
    else st.

Definition expand (goal : cell) (blocked : gset cell) (c : cell) (gc : Z)
    (st : search) : search :=
  fold_left (relax goal blocked c gc) deltas st.

(** [while (cx, cy) in came: cx, cy = came[(cx, cy)]; path.append(...)]:
    the cells appended after the goal.  [None] when the fuel runs out. *)
Fixpoint walk_back (fuel : nat) (cm : gmap cell cell) (c : cell)
    : option (list cell) :=
  match fuel with
  | O => None
  | S k =>
      match cm !! c with
      | None => Some []
      | Some p => (p ::.) <$> walk_back k cm p
      end
  end.

(** A chain of [came] links is never longer than the number of cells. *)
Definition RFUEL : nat := Z.to_nat (CELLS * CELLS + 1).

(** [while openh: ...]; the result is [None] when the fuel runs out. *)
Fixpoint astar_loop (fuel : nat) (start goal : cell) (blocked : gset cell)
    (st : search) : option (list cell) :=
  match fuel with
  | O => None
  | S k =>
      match heappop (openh st) with
      | None => Some [start]
      | Some ((_, gc, c), rest) =>
          if bool_decide (c ∈ visited st) then
            astar_loop k start goal blocked
              {| openh := rest; came := came st; gscore := gscore st;
                 visited := visited st |}
          else
            let vis := {[c]} ∪ visited st in
            if bool_decide (c = goal) then
              (λ tl, rev (c :: tl)) <$> walk_back RFUEL (came st) c
            else
              astar_loop k start goal blocked
                (expand goal blocked c gc
                   {| openh := rest; came := came st; gscore := gscore st;
                      visited := vis |})
      end
  end.

(** Every pass of the loop either drops an entry of the heap or visits a
    new cell of the grid and pushes at most four entries. *)
Definition FUEL : nat := Z.to_nat (4 * (CELLS * CELLS) + 2).

Definition astar (start goal : cell) (blocked : gset cell)
    : option (list cell) :=
  if negb (in_grid start) then Some []
  else if negb (in_grid goal) then Some []
  else
    astar_loop FUEL start goal blocked
      {| openh := heappush [] (heur goal start, 0, start);
         came := ∅;
         gscore := {[start := 0]};
         visited := ∅ |}.

End Astar.

(** ** Floats, failures and records *)

(** Python floats are idealised as real numbers. *)
Abbreviation pt := (R * R)%type.

(** Comparisons of floats are decided as those of the reals. *)
#[global] Instance Rle_decision (a b : R) : Decision (a <= b)%R := Rle_dec a b.
#[global] Instance Rlt_decision (a b : R) : Decision (a < b)%R := Rlt_dec a b.
#[global] Instance Rge_decision (a b : R) : Decision (a >= b)%R := Rge_dec a b.
#[global] Instance Rgt_decision (a b : R) : Decision (a > b)%R := Rgt_dec a b.
#[global] Instance Req_decision : EqDecision R := Req_dec_T.

(** [math.hypot] *)
Definition hypot (a b : R) : R := sqrt (a * a + b * b).

(** [a or b] on floats: [a] unless it is zero. *)
Definition float_or (a b : R) : R := if bool_decide (a = 0%R) then b else a.

(** [int(r)]: truncation towards zero. *)
Definition py_int (r : R) : Z :=
  if bool_decide (0 <= r)%R then Int_part r else (- Int_part (- r))%Z.

(** The outcome of a piece of the program: a value, [SystemExit], an
    exception, or a loop of the model that ran out of fuel. *)
Inductive res (A : Type) : Type :=
| Ok (a : A)
| Quit
| Raise
| NoFuel.
Arguments Ok {A} a.
Arguments Quit {A}.
Arguments Raise {A}.
Arguments NoFuel {A}.

#[global] Instance res_ret : MRet res := @Ok.
#[global] Instance res_bind : MBind res := λ A B f m,
  match m with
  | Ok a => f a
  | Quit => Quit
  | Raise => Raise
  | NoFuel => NoFuel
  end.

(** [a / b]: [ZeroDivisionError] when [b] is zero. *)
Definition py_div (a b : R) : res R :=
  if bool_decide (b = 0%R) then Raise else Ok (a / b)%R.

Definition ENEMY_SPAWN_EVERY : R := 1.5.
Definition ENEMY_REPATH_EVERY : R := 0.25.
Definition BULLET_FADE_TIME : R := 0.25.

(** [pygame.Rect(x, y, w, h)] *)
Record Rect : Type := mkRect { rx : Z; ry : Z; rw : Z; rh : Z }.

Module Bullet.
(** The dictionary [{pos, vel, r, hit, t_hit, alpha}]. *)
Record t : Type := mk {
  pos : pt;
  vel : pt;
  r : R;
  hit : bool;
  t_hit : R;
  alpha : Z
}.
End Bullet.

Module Enemy.
Record t : Type := mk {
  name : string;
  hp : Z;
  speed_px : Z;
  color : Z * Z * Z;
  cell : Z * Z;
  pos : pt;
  path : list (Z * Z);
  next_idx : nat;
  _repath_timer : R;
  size : Z
}.

(** [Enemy.TYPES]: name, hp, speed in cells per second, colour. *)
Definition TYPES : list (string * Z * Z * (Z * Z * Z)) :=
  [ ("pink"%string, 1, 15, (255, 105, 180));
    ("red"%string, 3, 5, (220, 0, 0));
    ("maroon"%string, 15, 2, (128, 0, 32)) ].

(** [Enemy.__init__(kind, cell)]; a [kind] outside the table is an
    [IndexError]. *)
Definition init (kind : nat) (c : Z * Z) : res t :=
  match TYPES !! kind with
  | None => Raise
  | Some (nm, h, spd_c, col) =>
      Ok {| name := nm; hp := h; speed_px := spd_c * SIZE; color := col;
            cell := c;
            pos := (IZR (c.1 * SIZE) + IZR SIZE / 2,
                    IZR (c.2 * SIZE) + IZR SIZE / 2)%R;
            path := []; next_idx := 0; _repath_timer := 0%R;
            size := SIZE - 2 |}
  end.

(** [Enemy.rect()] *)
Definition rect (e : t) : Rect :=
  mkRect (py_int ((pos e).1 - IZR (size e) / 2))
         (py_int ((pos e).2 - IZR (size e) / 2))
         (size e) (size e).

(** [Enemy.update(dt, target_cell, blocked_cells)] *)
Definition update (dt : R) (target_cell : Z * Z) (blocked_cells : gset (Z * Z))
    (e : t) : res t :=
  let timer := (_repath_timer e - dt)%R in
  e1 ←
    (if bool_decide (timer <= 0)%R || bool_decide (path e = []) then
       match Astar.astar (cell e) target_cell blocked_cells with
       | None => NoFuel
       | Some p =>
           Ok {| name := name e; hp := hp e; speed_px := speed_px e;
                 color := color e; cell := cell e; pos := pos e;
                 path := p;
                 next_idx := if bool_decide (1 < length p)%nat then 1%nat else 0%nat;
                 _repath_timer := ENEMY_REPATH_EVERY; size := size e |}
       end
     else
       Ok {| name := name e; hp := hp e; speed_px := speed_px e;
             color := color e; cell := cell e; pos := pos e;
             path := path e; next_idx := next_idx e;
             _repath_timer := timer; size := size e |});
  match path e1 !! next_idx e1 with
  | None => Ok e1
  | Some nxt =>
      let target_px := (IZR (nxt.1 * SIZE) + IZR SIZE / 2,
                        IZR (nxt.2 * SIZE) + IZR SIZE / 2)%R in
      let dx := (target_px.1 - (pos e1).1)%R in
      let dy := (target_px.2 - (pos e1).2)%R in
      let dist := hypot dx dy in
      if bool_decide (dist > 1e-6)%R then
        let step := (IZR (speed_px e1) * dt)%R in
        if bool_decide (step >= dist)%R then
          Ok {| name := name e1; hp := hp e1; speed_px := speed_px e1;
                color := color e1; cell := (nxt.1, nxt.2); pos := target_px;
                path := path e1; next_idx := S (next_idx e1);
                _repath_timer := _repath_timer e1; size := size e1 |}
        else
          ux ← py_div dx dist;
          uy ← py_div dy dist;
          Ok {| name := name e1; hp := hp e1; speed_px := speed_px e1;
                color := color e1; cell := cell e1;
                pos := ((pos e1).1 + ux * step, (pos e1).2 + uy * step)%R;
                path := path e1; next_idx := next_idx e1;
                _repath_timer := _repath_timer e1; size := size e1 |}
      else Ok e1
  end.
End Enemy.

(** ** The trail *)

(** The lengths of the segments of a polyline, from the oldest segment
    to the newest. *)
Fixpoint segment_lengths (pts : list pt) : list R :=
  match pts with
  | p1 :: ((p2 :: _) as rest) =>
      hypot (p2.1 - p1.1) (p2.2 - p1.2) :: segment_lengths rest
  | _ => []
  end.

(** The list [dists] of [trim_path_to_length]: the same lengths, from the
    newest segment to the oldest. *)
Definition dists (pts : list pt) : list R := rev (segment_lengths pts).

(** The scan [for idx, d in enumerate(dists, start=1)]; the result is
    the new content of the deque. *)
Fixpoint trim_scan (pts : list pt) (max_len_px total : R) (idx : nat)
    (ds : list R) : res (list pt) :=
  match ds with
  | [] => Ok pts
  | d :: ds' =>
      if bool_decide (total + d >= max_len_px)%R then
        let keep_from := (length pts - 1 - idx)%nat in
        let leftover := (max_len_px - total)%R in
        match pts !! keep_from, pts !! S keep_from with
        | Some (x0, y0), Some (x1, y1) =>
            let seg_len := float_or (hypot (x1 - x0) (y1 - y0)) 1 in
            t ← py_div leftover seg_len;
            let new_tail :=
              (x1 + (x0 - x1) * (1 - t), y1 + (y0 - y1) * (1 - t))%R in
            Ok (new_tail :: drop (S keep_from) pts)
        | _, _ => Raise
        end
      else trim_scan pts max_len_px (total + d) (S idx) ds'
  end.

(** [trim_path_to_length(path_deque, max_len_px)] *)
Definition trim_path_to_length (path_deque : list pt) (max_len_px : R)
    : res (list pt) :=
  if bool_decide (length path_deque ≤ 1)%nat then Ok path_deque
  else trim_scan path_deque max_len_px 0 1 (dists path_deque).

(** The cumulative length of a polyline. *)
Definition polyline_length (pts : list pt) : R :=
  fold_right Rplus 0%R (segment_lengths pts).

(** ** The state of the game and one frame of the main cycle *)

Inductive key : Type :=
| K_w | K_UP | K_s | K_DOWN | K_a | K_LEFT | K_d | K_RIGHT | K_other.

(** The events of [pygame.event.get()]; a mouse press carries the button
    and what [pygame.mouse.get_pos()] answers. *)
Inductive event : Type :=
| QUIT
| KEYDOWN (k : key)
| MOUSEBUTTONDOWN (button : Z) (mouse : Z * Z)
| OTHER.

(** The answers of [choice(["top", "bottom", "left", "right"])]. *)
Inductive side : Type := side_top | side_bottom | side_left | side_right.

(** What one frame takes from outside: the clock, the events and the
    draws of the random generator. *)
Record input : Type := mkInput {
  in_dt : R;
  in_now : R;
  in_events : list event;
  in_apples : list (Z * Z);
  in_side : side;
  in_coord : Z;
  in_kind : nat
}.

Record state : Type := mkState {
  grid_x : Z;
  grid_y : Z;
  dir_x : Z;
  dir_y : Z;
  queued_dir : Z * Z;
  progress : R;
  x : R;
  y : R;
  length_cells : Z;
  path : list pt;
  game_over : bool;
  body : list (Z * Z);
  apple : Z * Z;
  score : Z;
  bullets : list Bullet.t;
  enemies : list Enemy.t;
  last_spawn_time : R
}.

(** The state before the main cycle; [apple] is drawn by
    [(randrange(CELLS), randrange(CELLS))]. *)
Definition initial_state (apple0 : Z * Z) : state :=
  let gx := CELLS `div` 2 in
  let gy := CELLS `div` 2 in
  {| grid_x := gx; grid_y := gy; dir_x := 1; dir_y := 0; queued_dir := (1, 0);
     progress := 0%R; x := IZR (gx * SIZE); y := IZR (gy * SIZE);
     length_cells := INIT_LEN; path := [(IZR (gx * SIZE), IZR (gy * SIZE))];
     game_over := false; body := [(gx, gy)]; apple := apple0; score := 0;
     bullets := []; enemies := []; last_spawn_time := 0%R |}.

(** [(randrange(CELLS), randrange(CELLS))] answers a cell of the grid. *)
Definition random_cell (c : Z * Z) : Prop := in_grid c = true.

(** Assignments to the globals. *)
Definition set_queued_dir (q : Z * Z) (s : state) : state :=
  {| grid_x := grid_x s; grid_y := grid_y s; dir_x := dir_x s; dir_y := dir_y s;
     queued_dir := q; progress := progress s; x := x s; y := y s;
     length_cells := length_cells s; path := path s; game_over := game_over s;
     body := body s; apple := apple s; score := score s; bullets := bullets s;
     enemies := enemies s; last_spawn_time := last_spawn_time s |}.

Definition set_bullets (bs : list Bullet.t) (s : state) : state :=
  {| grid_x := grid_x s; grid_y := grid_y s; dir_x := dir_x s; dir_y := dir_y s;
     queued_dir := queued_dir s; progress := progress s; x := x s; y := y s;
     length_cells := length_cells s; path := path s; game_over := game_over s;
     body := body s; apple := apple s; score := score s; bullets := bs;
     enemies := enemies s; last_spawn_time := last_spawn_time s |}.

Definition set_progress (p : R) (s : state) : state :=
  {| grid_x := grid_x s; grid_y := grid_y s; dir_x := dir_x s; dir_y := dir_y s;
     queued_dir := queued_dir s; progress := p; x := x s; y := y s;
     length_cells := length_cells s; path := path s; game_over := game_over s;
     body := body s; apple := apple s; score := score s; bullets := bullets s;
     enemies := enemies s; last_spawn_time := last_spawn_time s |}.

Definition set_dir (d : Z * Z) (s : state) : state :=
  {| grid_x := grid_x s; grid_y := grid_y s; dir_x := d.1; dir_y := d.2;
     queued_dir := queued_dir s; progress := progress s; x := x s; y := y s;
     length_cells := length_cells s; path := path s; game_over := game_over s;
     body := body s; apple := apple s; score := score s; bullets := bullets s;
     enemies := enemies s; last_spawn_time := last_spawn_time s |}.

Definition set_grid (c : Z * Z) (s : state) : state :=
  {| grid_x := c.1; grid_y := c.2; dir_x := dir_x s; dir_y := dir_y s;
     queued_dir := queued_dir s; progress := progress s; x := x s; y := y s;
     length_cells := length_cells s; path := path s; game_over := game_over s;
     body := body s; apple := apple s; score := score s; bullets := bullets s;
     enemies := enemies s; last_spawn_time := last_spawn_time s |}.

Definition set_game_over (b : bool) (s : state) : state :=
  {| grid_x := grid_x s; grid_y := grid_y s; dir_x := dir_x s; dir_y := dir_y s;
     queued_dir := queued_dir s; progress := progress s; x := x s; y := y s;
     length_cells := length_cells s; path := path s; game_over := b;
     body := body s; apple := apple s; score := score s; bullets := bullets s;
     enemies := enemies s; last_spawn_time := last_spawn_time s |}.

Definition set_body (b : list (Z * Z)) (s : state) : state :=
  {| grid_x := grid_x s; grid_y := grid_y s; dir_x := dir_x s; dir_y := dir_y s;
     queued_dir := queued_dir s; progress := progress s; x := x s; y := y s;
     length_cells := length_cells s; path := path s; game_over := game_over s;
     body := b; apple := apple s; score := score s; bullets := bullets s;
     enemies := enemies s; last_spawn_time := last_spawn_time s |}.

Definition set_length_cells (n : Z) (s : state) : state :=
  {| grid_x := grid_x s; grid_y := grid_y s; dir_x := dir_x s; dir_y := dir_y s;
     queued_dir := queued_dir s; progress := progress s; x := x s; y := y s;
     length_cells := n; path := path s; game_over := game_over s;
     body := body s; apple := apple s; score := score s; bullets := bullets s;
     enemies := enemies s; last_spawn_time := last_spawn_time s |}.

Definition set_score (n : Z) (s : state) : state :=
  {| grid_x := grid_x s; grid_y := grid_y s; dir_x := dir_x s; dir_y := dir_y s;
     queued_dir := queued_dir s; progress := progress s; x := x s; y := y s;
     length_cells := length_cells s; path := path s; game_over := game_over s;
     body := body s; apple := apple s; score := n; bullets := bullets s;
     enemies := enemies s; last_spawn_time := last_spawn_time s |}.

Definition set_apple (a : Z * Z) (s : state) : state :=
  {| grid_x := grid_x s; grid_y := grid_y s; dir_x := dir_x s; dir_y := dir_y s;
     queued_dir := queued_dir s; progress := progress s; x := x s; y := y s;
     length_cells := length_cells s; path := path s; game_over := game_over s;
     body := body s; apple := a; score := score s; bullets := bullets s;
     enemies := enemies s; last_spawn_time := last_spawn_time s |}.

Definition set_xy (p : pt) (s : state) : state :=
  {| grid_x := grid_x s; grid_y := grid_y s; dir_x := dir_x s; dir_y := dir_y s;
     queued_dir := queued_dir s; progress := progress s; x := p.1; y := p.2;
     length_cells := length_cells s; path := path s; game_over := game_over s;
     body := body s; apple := apple s; score := score s; bullets := bullets s;
     enemies := enemies s; last_spawn_time := last_spawn_time s |}.

Definition set_path (p : list pt) (s : state) : state :=
  {| grid_x := grid_x s; grid_y := grid_y s; dir_x := dir_x s; dir_y := dir_y s;
     queued_dir := queued_dir s; progress := progress s; x := x s; y := y s;
     length_cells := length_cells s; path := p; game_over := game_over s;
     body := body s; apple := apple s; score := score s; bullets := bullets s;
     enemies := enemies s; last_spawn_time := last_spawn_time s |}.

Definition set_enemies (es : list Enemy.t) (s : state) : state :=
  {| grid_x := grid_x s; grid_y := grid_y s; dir_x := dir_x s; dir_y := dir_y s;
     queued_dir := queued_dir s; progress := progress s; x := x s; y := y s;
     length_cells := length_cells s; path := path s; game_over := game_over s;
     body := body s; apple := apple s; score := score s; bullets := bullets s;
     enemies := es; last_spawn_time := last_spawn_time s |}.

Definition set_last_spawn_time (t : R) (s : state) : state :=
  {| grid_x := grid_x s; grid_y := grid_y s; dir_x := dir_x s; dir_y := dir_y s;
     queued_dir := queued_dir s; progress := progress s; x := x s; y := y s;
     length_cells := length_cells s; path := path s; game_over := game_over s;
     body := body s; apple := apple s; score := score s; bullets := bullets s;
     enemies := enemies s; last_spawn_time := t |}.

(** *** Events *)

(** The direction a key asks for; other keys leave [ndx, ndy] at the
    current direction. *)
Definition key_dir (k : key) (cur : Z * Z) : Z * Z :=
  match k with
  | K_w | K_UP => (0, -1)
  | K_s | K_DOWN => (0, 1)
  | K_a | K_LEFT => (-1, 0)
  | K_d | K_RIGHT => (1, 0)
  | K_other => cur
  end.

(** The projectile made by a right click at [(mx, my)] with the head at
    [(x, y)]. *)
Definition fire (hx0 hy0 : R) (mouse : Z * Z) : res Bullet.t :=
  let hx := (hx0 + IZR SIZE / 2)%R in
  let hy := (hy0 + IZR SIZE / 2)%R in
  let vx := (IZR mouse.1 - hx)%R in
  let vy := (IZR mouse.2 - hy)%R in
  let d := float_or (hypot vx vy) 1 in
  ux ← py_div vx d;
  uy ← py_div vy d;
  Ok {| Bullet.pos := (hx, hy);
        Bullet.vel := (ux * IZR BULLET_SPEED, uy * IZR BULLET_SPEED)%R;
        Bullet.r := IZR BULLET_RADIUS; Bullet.hit := false;
        Bullet.t_hit := 0%R; Bullet.alpha := 255 |}.

Definition handle_event (s : state) (ev : event) : res state :=
  match ev with
  | QUIT => Quit
  | KEYDOWN k =>
      let cur := (dir_x s, dir_y s) in
      let nd := key_dir k cur in
      if negb (bool_decide (nd = cur)) && can_turn cur nd
      then Ok (set_queued_dir nd s) else Ok s
  | MOUSEBUTTONDOWN button mouse =>
      if (button =? 3)%Z then
        b ← fire (x s) (y s) mouse;
        Ok (set_bullets (bullets s ++ [b]) s)
      else Ok s
  | OTHER => Ok s
  end.

Fixpoint handle_events (evs : list event) (s : state) : res state :=
  match evs with
  | [] => Ok s
  | ev :: evs' => s' ← handle_event s ev; handle_events evs' s'
  end.

(** *** The snake *)

(** [if queued_dir != (dir_x, dir_y) and can_turn(...): dir_x, dir_y = queued_dir] *)
Definition apply_queued (s : state) : state :=
  let cur := (dir_x s, dir_y s) in
  if negb (bool_decide (queued_dir s = cur)) && can_turn cur (queued_dir s)
  then set_dir (queued_dir s) s else s.

(** [while len(body) > length_cells: body.popleft()]; popping from an
    empty deque is an [IndexError]. *)
Fixpoint shrink_body (b : list (Z * Z)) (len : Z) : res (list (Z * Z)) :=
  if bool_decide (Z.of_nat (length b) > len)%Z then
    match b with
    | [] => Raise
    | _ :: b' => shrink_body b' len
    end
  else Ok b.

(** [while True: apple = (randrange(CELLS), randrange(CELLS)); if apple
    not in body: break], on the draws of the generator. *)
Fixpoint relocate_apple (draws : list (Z * Z)) (b : list (Z * Z))
    : res ((Z * Z) * list (Z * Z)) :=
  match draws with
  | [] => NoFuel
  | a :: draws' =>
      if bool_decide (a ∈ b) then relocate_apple draws' b else Ok (a, draws')
  end.

(** One pass of [while progress >= 1.0 and not game_over]. *)
Definition snake_step (draws : list (Z * Z)) (s : state)
    : res (state * list (Z * Z)) :=
  let s := set_progress (progress s - 1) s in
  let s := apply_queued s in
  match move_to_cell (grid_x s) (grid_y s) (dir_x s) (dir_y s) with
  | None => Ok (set_game_over true s, draws)
  | Some new_cell =>
      let s := set_grid new_cell s in
      if bool_decide ((grid_x s, grid_y s) ∈ body s) then
        Ok (set_game_over true s, draws)
      else
        b ← shrink_body (body s ++ [(grid_x s, grid_y s)]) (length_cells s);
        let s := set_body b s in
        if bool_decide ((grid_x s, grid_y s) = apple s) then
          let s := set_length_cells (length_cells s + 1) s in
          let s := set_score (score s + 1) s in
          '(a, draws') ← relocate_apple draws (body s);
          Ok (set_apple a s, draws')
        else Ok (s, draws)
  end.

Fixpoint snake_loop (fuel : nat) (draws : list (Z * Z)) (s : state)
    : res (state * list (Z * Z)) :=
  if bool_decide (progress s >= 1)%R && negb (game_over s) then
    match fuel with
    | O => NoFuel
    | S k => '(s', draws') ← snake_step draws s; snake_loop k draws' s'
    end
  else Ok (s, draws).

(** [progress += move_px / SIZE] and the loop; every pass takes one off
    [progress], so [up progress] passes are enough. *)
Definition move_snake (dt : R) (draws : list (Z * Z)) (s : state)
    : res state :=
  let move_px := (IZR SPEED * dt)%R in
  let s := set_progress (progress s + move_px / IZR SIZE) s in
  '(s', _) ← snake_loop (Z.to_nat (up (progress s))) draws s;
  Ok s'.

(** The interpolated position of the head, appended to the trail, and
    the trim to [length_cells * SIZE]. *)
Definition update_trail (s : state) : res state :=
  let interp_x := (IZR (grid_x s) - IZR (dir_x s) * (1 - progress s))%R in
  let interp_y := (IZR (grid_y s) - IZR (dir_y s) * (1 - progress s))%R in
  let s := set_xy (interp_x * IZR SIZE, interp_y * IZR SIZE)%R s in
  p ← trim_path_to_length (path s ++ [(x s, y s)]) (IZR (length_cells s * SIZE));
  Ok (set_path p s).

(** *** Projectiles *)

(** One projectile in [for b in bullets[:]]; [None] when it is removed
    from [bullets]. *)
Definition update_bullet (dt : R) (b : Bullet.t) : option Bullet.t :=
  if negb (Bullet.hit b) then
    let p := ((Bullet.pos b).1 + (Bullet.vel b).1 * dt,
              (Bullet.pos b).2 + (Bullet.vel b).2 * dt)%R in
    let b' := {| Bullet.pos := p; Bullet.vel := Bullet.vel b;
                 Bullet.r := Bullet.r b; Bullet.hit := Bullet.hit b;
                 Bullet.t_hit := Bullet.t_hit b; Bullet.alpha := Bullet.alpha b |} in
    if bool_decide (p.1 < -50)%R || bool_decide (p.1 > IZR RES + 50)%R
       || bool_decide (p.2 < -50)%R || bool_decide (p.2 > IZR RES + 50)%R
    then None else Some b'
  else
    let th := (Bullet.t_hit b + dt)%R in
    let b' := {| Bullet.pos := Bullet.pos b; Bullet.vel := Bullet.vel b;
                 Bullet.r := (IZR BULLET_RADIUS * (1 + 0.6 * (th / BULLET_FADE_TIME)))%R;
                 Bullet.hit := Bullet.hit b; Bullet.t_hit := th;
                 Bullet.alpha := Z.max 0 (py_int (255 * (1 - th / BULLET_FADE_TIME))) |} in
    if bool_decide (th >= BULLET_FADE_TIME)%R then None else Some b'.

(** The loop over the copy [bullets[:]]: every projectile is updated in
    place and [bullets.remove(b)] takes the removed ones out.  [remove]
    deletes the first dictionary equal to [b]; equal dictionaries are
    removed alike, so the list of values is the one computed here. *)
Definition update_bullets (dt : R) (bs : list Bullet.t) : list Bullet.t :=
  omap (update_bullet dt) bs.

(** *** Agents *)

(** [spawn_enemy()], on the draws of the generator. *)
Definition spawn_enemy (sd : side) (coord : Z) (kind : nat) : res Enemy.t :=
  let c :=
    match sd with
    | side_top => (coord, 0)
    | side_bottom => (coord, CELLS - 1)
    | side_left => (0, coord)
    | side_right => (CELLS - 1, coord)
    end in
  Enemy.init kind c.

Fixpoint update_enemies (dt : R) (target_cell : Z * Z)
    (blocked_cells : gset (Z * Z)) (es : list Enemy.t) : res (list Enemy.t) :=
  match es with
  | [] => Ok []
  | e :: es' =>
      e' ← Enemy.update dt target_cell blocked_cells e;
      es'' ← update_enemies dt target_cell blocked_cells es';
      Ok (e' :: es'')
  end.

Section pygame.
(** [Rect.collidepoint] and [Rect.colliderect] belong to pygame; the
    game is modelled for any such tests. *)
Variable collidepoint : Rect → R → R → bool.
Variable colliderect : Rect → Rect → bool.

(** [head_rect()] *)
Definition head_rect (s : state) : Rect :=
  mkRect (py_int (x s + 2)) (py_int (y s + 2)) (SIZE - 4) (SIZE - 4).

Definition damage (e : Enemy.t) : Enemy.t :=
  {| Enemy.name := Enemy.name e; Enemy.hp := Enemy.hp e - 1;
     Enemy.speed_px := Enemy.speed_px e; Enemy.color := Enemy.color e;
     Enemy.cell := Enemy.cell e; Enemy.pos := Enemy.pos e;
     Enemy.path := Enemy.path e; Enemy.next_idx := Enemy.next_idx e;
     Enemy._repath_timer := Enemy._repath_timer e;
     Enemy.size := Enemy.size e |}.

(** [for e in enemies: if e.rect().collidepoint(bx, by): ...; break]:
    the agents after the first hit, or [None] without a hit. *)
Fixpoint strike (bx by_ : R) (es : list Enemy.t) : option (list Enemy.t) :=
  match es with
  | [] => None
  | e :: es' =>
      if collidepoint (Enemy.rect e) bx by_ then
        let e' := damage e in
        Some (if bool_decide (Enemy.hp e' ≤ 0)%Z then es' else e' :: es')
      else (e ::.) <$> strike bx by_ es'
  end.

Definition mark_hit (b : Bullet.t) : Bullet.t :=
  {| Bullet.pos := Bullet.pos b; Bullet.vel := (0, 0)%R;
     Bullet.r := Bullet.r b; Bullet.hit := true; Bullet.t_hit := 0%R;
     Bullet.alpha := 255 |}.

(** One projectile of the collision pass. *)
Definition combat_bullet (b : Bullet.t) (es : list Enemy.t)
    : Bullet.t * list Enemy.t :=
  if Bullet.hit b then (b, es)
  else
    match strike (Bullet.pos b).1 (Bullet.pos b).2 es with
    | Some es' => (mark_hit b, es')
    | None => (b, es)
    end.

(** [for b in bullets: ...] *)
Fixpoint combat (bs : list Bullet.t) (es : list Enemy.t)
    : list Bullet.t * list Enemy.t :=
  match bs with
  | [] => ([], es)
  | b :: bs' =>
      let '(b', es') := combat_bullet b es in
      let '(bs'', es'') := combat bs' es' in
      (b' :: bs'', es'')
  end.

(** [for e in enemies: if e.rect().colliderect(headR): game_over = True] *)
Definition head_contact (headR : Rect) (es : list Enemy.t) : bool :=
  existsb (λ e, colliderect (Enemy.rect e) headR) es.

Definition check_head (s : state) : state :=
  if head_contact (head_rect s) (enemies s) then set_game_over true s else s.

(** The spawn on the timer. *)
Definition spawn (i : input) (s : state) : res state :=
  if bool_decide (in_now i - last_spawn_time s >= ENEMY_SPAWN_EVERY)%R
     && negb (game_over s) then
    e ← spawn_enemy (in_side i) (in_coord i) (in_kind i);
    Ok (set_last_spawn_time (in_now i) (set_enemies (enemies s ++ [e]) s))
  else Ok s.

Definition move_enemies (dt : R) (s : state) : res state :=
  es ← update_enemies dt (grid_x s, grid_y s) (list_to_set (body s)) (enemies s);
  Ok (set_enemies es s).

Definition collide (s : state) : state :=
  let '(bs, es) := combat (bullets s) (enemies s) in
  set_enemies es (set_bullets bs s).

(** The second half of a frame: projectiles, spawn, agents, the
    collision pass and the head check. *)
Definition resolve (i : input) (s : state) : res state :=
  let s := set_bullets (update_bullets (in_dt i) (bullets s)) s in
  s ← spawn i s;
  s ← move_enemies (in_dt i) s;
  let s := collide s in
  Ok (check_head s).

(** One pass of [while True], up to the rendering. *)
Definition frame (i : input) (s : state) : res state :=
  s ← handle_events (in_events i) s;
  s ← move_snake (in_dt i) (in_apples i) s;
  s ← update_trail s;
  resolve i s.

(** The main cycle on a list of inputs; it ends with the frame that
    leaves [game_over] set. *)
Fixpoint run (ins : list input) (s : state) : res state :=
  match ins with
  | [] => Ok s
  | i :: ins' =>
      s' ← frame i s;
      if game_over s' then Ok s' else run ins' s'
  end.

End pygame.

(** ** Inputs on which the game is run *)

(** The rectangle tests as pygame documents them: the right and bottom
    edges are outside.  The properties are proved for any tests; these
    are the ones frames are run with. *)
Definition pygame_collidepoint (rc : Rect) (px py : R) : bool :=
  bool_decide (IZR (rx rc) <= px)%R && bool_decide (px < IZR (rx rc + rw rc))%R
  && bool_decide (IZR (ry rc) <= py)%R
  && bool_decide (py < IZR (ry rc + rh rc))%R.

Definition pygame_colliderect (a b : Rect) : bool :=
  (rx a <? rx b + rw b)%Z && (ry a <? ry b + rh b)%Z
  && (rx b <? rx a + rw a)%Z && (ry b <? ry a + rh a)%Z.

(** An agent of the first kind, one repath interval after its path was
    computed. *)
Definition pink (c : Z * Z) (p : pt) (pth : list (Z * Z)) (idx : nat) : Enemy.t :=
  {| Enemy.name := "pink"; Enemy.hp := 1; Enemy.speed_px := 300;
     Enemy.color := (255, 105, 180); Enemy.cell := c; Enemy.pos := p;
     Enemy.path := pth; Enemy.next_idx := idx;
     Enemy._repath_timer := (1/4)%R; Enemy.size := 18 |}.

(** The cells of row [y] from column [x1] down to column [x0]. *)
Definition row (y x1 x0 : Z) : list (Z * Z) :=
  (λ k, (x1 - k, y)%Z) <$> seqZ 0 (x1 - x0 + 1).

(** Two frames of a quarter of a second, with no event; the first one
    spawns an agent at the right edge. *)
Definition slow1 : input :=
  mkInput (1/4) 1761696000 [] [] side_right 20 0.
Definition slow2 : input :=
  mkInput (1/4) (1761696000 + 1/4) [] [] side_right 20 0.

Definition after_slow1 : state :=
  {| grid_x := 23; grid_y := 20; dir_x := 1; dir_y := 0; queued_dir := (1, 0);
     progress := (3/4)%R; x := 455; y := 400; length_cells := 5;
     path := [(400, 400); (455, 400)]%R; game_over := false;
     body := [(20, 20); (21, 20); (22, 20); (23, 20)]; apple := (0, 0);
     score := 0; bullets := [];
     enemies := [pink (38, 20) (770, 410)%R (row 20 39 23) 2];
     last_spawn_time := 1761696000 |}.

Definition after_slow2 : state :=
  {| grid_x := 27; grid_y := 20; dir_x := 1; dir_y := 0; queued_dir := (1, 0);
     progress := (1/2)%R; x := 530; y := 400; length_cells := 5;
     path := [(425, 400); (455, 400); (530, 400)]%R; game_over := false;
     body := [(23, 20); (24, 20); (25, 20); (26, 20); (27, 20)];
     apple := (0, 0); score := 0; bullets := [];
     enemies := [pink (37, 20) (750, 410)%R (row 20 38 27) 2];
     last_spawn_time := 1761696000 |}.

(** A frame of a fifteenth of a second, in which the snake takes one
    step, onto the apple. *)
Definition eat1 : input :=
  mkInput (1/15) 1761696000 [] [(5, 5)] side_right 20 0.

Definition after_eat1 : state :=
  {| grid_x := 21; grid_y := 20; dir_x := 1; dir_y := 0; queued_dir := (1, 0);
     progress := 0%R; x := 400; y := 400; length_cells := 6;
     path := [(400, 400); (400, 400)]%R; game_over := false;
     body := [(20, 20); (21, 20)]; apple := (5, 5);
     score := 1; bullets := [];
     enemies := [pink (38, 20) (770, 410)%R (row 20 39 21) 2];
     last_spawn_time := 1761696000 |}.

(** A frame of a hundredth of a second in which a projectile in flight
    meets an agent that has reached the head. *)
Definition shot : Bullet.t :=
  {| Bullet.pos := (420, 410)%R; Bullet.vel := (700, 0)%R; Bullet.r := 5;
     Bullet.hit := false; Bullet.t_hit := 0; Bullet.alpha := 255 |}.

Definition duel_in : input :=
  mkInput (1/100) (1761696000 + 1/100) [] [] side_right 20 0.

Definition duel : state :=
  {| grid_x := 20; grid_y := 20; dir_x := 1; dir_y := 0; queued_dir := (1, 0);
     progress := (3/4)%R; x := 395; y := 400; length_cells := 5;
     path := [(400, 400); (380, 400); (395, 400)]%R; game_over := false;
     body := [(20, 20)]; apple := (0, 0); score := 0; bullets := [shot];
     enemies := [pink (21, 20) (427, 410)%R (row 20 21 20) 1];
     last_spawn_time := 1761696000 |}.

Definition after_duel : state :=
  {| grid_x := 20; grid_y := 20; dir_x := 1; dir_y := 0; queued_dir := (1, 0);
     progress := (9/10)%R; x := 398; y := 400; length_cells := 5;
     path := [(400, 400); (380, 400); (395, 400); (398, 400)]%R;
     game_over := false;
     body := [(20, 20)]; apple := (0, 0); score := 0;
     bullets := [ {| Bullet.pos := (427, 410)%R; Bullet.vel := (0, 0)%R;
                     Bullet.r := 5; Bullet.hit := true; Bullet.t_hit := 0;
                     Bullet.alpha := 255 |} ];
     enemies := []; last_spawn_time := 1761696000 |}.

(** ** Examples of paths *)

Definition blk (l : list cell) : gset cell := list_to_set l.

Example astar_ex1 :
  Astar.astar (0, 0) (2, 0) (blk [(1, 0)])
  = Some [(0, 0); (0, 1); (1, 1); (2, 1); (2, 0)].
Proof. vm_compute. reflexivity. Qed.

Example astar_ex2 :
  Astar.astar (0, 0) (5, 5) (blk [(1, 0); (0, 1)]) = Some [(0, 0)].
Proof. vm_compute. reflexivity. Qed.

(** ** Properties of the pathfinder *)

Module AstarFacts.
Import Astar.

(** Two cells are 4-adjacent when they differ by one of the four
    directions. *)
Definition adjacent (a b : cell) : Prop :=
  Z.abs (b.1 - a.1) + Z.abs (b.2 - a.2) = 1.

(** A cell may be entered when it is in the grid and, if blocked, is the
    goal. *)
Definition passable (goal : cell) (blocked : gset cell) (n : cell) : Prop :=
  in_grid n = true ∧ (n ∈ blocked → n = goal).

(** [is_walk goal blocked a b p]: the sequence [p] starts at [a], ends at
    [b], and every element after the first is 4-adjacent to its
    predecessor and may be entered. *)
Definition is_walk (goal : cell) (blocked : gset cell) (a b : cell)
    (p : list cell) : Prop :=
  head p = Some a ∧ last p = Some b ∧
  ∀ (i : nat) (x y : cell),
    p !! i = Some x → p !! S i = Some y →
    adjacent x y ∧ passable goal blocked y.

Lemma adjacent_deltas (c n : cell) :
  adjacent c n ↔ ∃ d, d ∈ deltas ∧ n = (c.1 + d.1, c.2 + d.2).
Proof.
  destruct c as [cx cy], n as [nx ny]. unfold adjacent, deltas. simpl. split.
  - intros H.
    assert (Hc : (nx = cx + 1 ∧ ny = cy) ∨ (nx = cx - 1 ∧ ny = cy) ∨
                 (nx = cx ∧ ny = cy + 1) ∨ (nx = cx ∧ ny = cy - 1)) by lia.
    destruct Hc as [[-> ->]|[[-> ->]|[[-> ->]|[-> ->]]]].
    + exists (1, 0). split; [set_solver|]. simpl. f_equal; lia.
    + exists (-1, 0). split; [set_solver|]. simpl. f_equal; lia.
    + exists (0, 1). split; [set_solver|]. simpl. f_equal; lia.
    + exists (0, -1). split; [set_solver|]. simpl. f_equal; lia.
  - intros [d [Hd Hn]].
    repeat (apply elem_of_cons in Hd as [->|Hd]);
      [..|by apply elem_of_nil in Hd]; simpl in Hn; inversion Hn; lia.
Qed.

(** *** The heap *)

Definition entry_lt (a b : entry) : Prop :=
  a.1.1 < b.1.1 ∨ (a.1.1 = b.1.1 ∧
    (a.1.2 < b.1.2 ∨ (a.1.2 = b.1.2 ∧
      (a.2.1 < b.2.1 ∨ (a.2.1 = b.2.1 ∧ a.2.2 < b.2.2))))).

Lemma entry_ltb_spec (a b : entry) : entry_ltb a b = true ↔ entry_lt a b.
Proof.
  destruct a as [[fa ga] [xa ya]], b as [[fb gb] [xb yb]].
  unfold entry_ltb, entry_lt. simpl.
  repeat match goal with
    | |- context [Z.ltb ?a ?b] => destruct (Z.ltb_spec a b)
    | |- context [Z.eqb ?a ?b] => destruct (Z.eqb_spec a b)
    end; simpl; split; intros; try discriminate; try reflexivity; lia.
Qed.

Lemma heap_min_elem (m : entry) (h : list entry) : heap_min m h ∈ m :: h.
Proof.
  revert m. induction h as [|e h IHh]; intros m; simpl.
  - apply elem_of_cons. by left.
  - pose proof (IHh (if entry_ltb e m then e else m)) as Hm.
    apply elem_of_cons in Hm as [Hm|Hm].
    + rewrite Hm. destruct (entry_ltb e m); set_solver.
    + set_solver.
Qed.

Lemma heap_min_below (m : entry) (h : list entry) :
  ¬ entry_lt m (heap_min m h).
Proof.
  revert m. induction h as [|e h IHh]; intros m; simpl.
  - unfold entry_lt. lia.
  - destruct (entry_ltb e m) eqn:He.
    + apply entry_ltb_spec in He. pose proof (IHh e) as Hm.
      unfold entry_lt in *. lia.
    + apply IHh.
Qed.

Lemma heap_min_least (m : entry) (h : list entry) (x : entry) :
  x ∈ m :: h → ¬ entry_lt x (heap_min m h).
Proof.
  intros Hx. apply elem_of_cons in Hx as [->|Hx]; [apply heap_min_below|].
  revert m. induction h as [|e h IHh]; intros m; [by apply elem_of_nil in Hx|].
  simpl. apply elem_of_cons in Hx as [->|Hx]; [|by apply IHh].
  destruct (entry_ltb e m) eqn:He; [apply heap_min_below|].
  assert (Hn : ¬ entry_lt e m) by (rewrite <- entry_ltb_spec; congruence).
  pose proof (heap_min_below m h) as Hm.
  unfold entry_lt in *. lia.
Qed.

Lemma heap_remove_elem (m x : entry) (h : list entry) :
  x ∈ h → x ≠ m → x ∈ heap_remove m h.
Proof.
  induction h as [|e h IH]; simpl; intros Hx Hne; [done|].
  apply elem_of_cons in Hx as [Hx|Hx].
  - subst x. rewrite decide_False by done. apply elem_of_cons. by left.
  - destruct (decide (e = m)); [done|].
    apply elem_of_cons. right. by apply IH.
Qed.

Lemma heap_remove_subset (m x : entry) (h : list entry) :
  x ∈ heap_remove m h → x ∈ h.
Proof.
  induction h as [|e h IH]; simpl; [done|].
  destruct (decide (e = m)); intros Hx.
  - apply elem_of_cons. by right.
  - apply elem_of_cons in Hx as [Hx|Hx]; apply elem_of_cons; auto.
Qed.

Lemma heap_remove_length (m : entry) (h : list entry) :
  m ∈ h → S (length (heap_remove m h)) = length h.
Proof.
  induction h as [|e h IH]; simpl; intros Hm; [by apply elem_of_nil in Hm|].
  destruct (decide (e = m)) as [Heq|He]; [done|].
  apply elem_of_cons in Hm as [Hm|Hm]; [congruence|].
  simpl. by rewrite IH.
Qed.

Lemma heappop_spec (h : list entry) (m : entry) (rest : list entry) :
  heappop h = Some (m, rest) →
  m ∈ h ∧ (∀ x, x ∈ h → ¬ entry_lt x m) ∧
  (∀ x, x ∈ h → x ≠ m → x ∈ rest) ∧ (∀ x, x ∈ rest → x ∈ h) ∧
  S (length rest) = length h.
Proof.
  destruct h as [|e h]; simpl; [done|]. intros [= <- <-].
  pose proof (heap_min_elem e h) as Hel.
  split_and!; [done| |..].
  - intros x Hx. by apply heap_min_least.
  - intros x Hx Hne. by apply (heap_remove_elem _ _ (e :: h)).
  - intros x Hx. by apply (heap_remove_subset _ _ (e :: h)) in Hx.
  - by apply (heap_remove_length _ (e :: h)).
Qed.

Lemma heappop_none (h : list entry) : heappop h = None → h = [].
Proof. by destruct h. Qed.

(** *** The grid is finite *)

Definition grid_cells : list cell :=
  x ← seqZ 0 CELLS; (λ y, (x, y)) <$> seqZ 0 CELLS.

Definition grid_set : gset cell := list_to_set grid_cells.

Lemma in_grid_spec (c : cell) :
  in_grid c = true ↔ 0 ≤ c.1 < CELLS ∧ 0 ≤ c.2 < CELLS.
Proof.
  unfold in_grid. rewrite !andb_true_iff, !Z.leb_le, !Z.ltb_lt. lia.
Qed.

Lemma in_grid_set (c : cell) : in_grid c = true → c ∈ grid_set.
Proof.
  rewrite in_grid_spec. intros [Hx Hy]. destruct c as [x y]. simpl in *.
  unfold grid_set, grid_cells. apply elem_of_list_to_set.
  apply list_elem_of_bind. exists x. split.
  - apply list_elem_of_fmap. exists y. split; [done|]. apply elem_of_seqZ. lia.
  - apply elem_of_seqZ. lia.
Qed.

Lemma grid_set_size : size grid_set = Z.to_nat (CELLS * CELLS).
Proof. vm_compute. reflexivity. Qed.

Lemma size_in_grid (X : gset cell) :
  (∀ n, n ∈ X → in_grid n = true) → Z.of_nat (size X) ≤ CELLS * CELLS.
Proof.
  intros HX. assert (Hsub : X ⊆ grid_set).
  { intros n Hn. apply in_grid_set. by apply HX. }
  apply subseteq_size in Hsub. rewrite grid_set_size in Hsub.
  change (CELLS * CELLS) with 1600 in *. lia.
Qed.

Lemma size_add_fresh (c : cell) (X : gset cell) :
  c ∉ X → size ({[c]} ∪ X) = S (size X).
Proof.
  intros Hc. rewrite size_union by set_solver. by rewrite size_singleton.
Qed.

(** The Manhattan distance changes by at most one along a step. *)
Lemma heur_step (goal c n : cell) :
  adjacent c n → heur goal c ≤ heur goal n + 1.
Proof. unfold adjacent, heur. lia. Qed.

(** *** Walks *)

Lemma is_walk_single (goal : cell) (blocked : gset cell) (a : cell) :
  is_walk goal blocked a a [a].
Proof.
  split_and!; [done..|]. intros i x y _ Hy. by destruct i.
Qed.

Lemma is_walk_snoc (goal : cell) (blocked : gset cell) (a b n : cell)
    (p : list cell) :
  is_walk goal blocked a b p → adjacent b n → passable goal blocked n →
  is_walk goal blocked a n (p ++ [n]).
Proof.
  intros (Hh & Hl & Hs) Hadj Hpass. split_and!.
  - destruct p; [done|]. done.
  - apply last_snoc.
  - intros i x y Hx Hy.
    destruct (decide (S i < length p)%nat) as [Hlt|Hge].
    + rewrite lookup_app_l in Hx by lia. rewrite lookup_app_l in Hy by lia.
      by apply (Hs i).
    + assert (Hi : S i = length p).
      { apply lookup_lt_Some in Hy. rewrite length_app in Hy. simpl in Hy. lia. }
      rewrite lookup_app_l in Hx by lia.
      rewrite lookup_app_r in Hy by lia.
      rewrite Hi, Nat.sub_diag in Hy. simpl in Hy. injection Hy as <-.
      rewrite last_lookup in Hl. rewrite <- Hi in Hl. simpl in Hl.
      rewrite Hx in Hl. injection Hl as ->. done.
Qed.

Section correctness.
Variables (start goal : cell) (blocked : gset cell).
Hypothesis start_in : in_grid start = true.

(** [reach k n]: [n] is reached from [start] in [k] steps. *)
Inductive reach : nat → cell → Prop :=
| reach_start : reach 0 start
| reach_step (k : nat) (c n : cell) :
    reach k c → adjacent c n → passable goal blocked n → reach (S k) n.

Lemma is_walk_reach (p : list cell) (n : cell) :
  is_walk goal blocked start n p → reach (pred (length p)) n.
Proof.
  revert n. induction p as [|x q IHq] using rev_ind; intros n (Hh & Hl & Hs).
  - done.
  - rewrite last_snoc in Hl. injection Hl as ->.
    rewrite length_app. simpl. rewrite Nat.add_1_r. simpl.
    destruct q as [|y q'] using rev_ind.
    + simpl in Hh. injection Hh as ->. constructor.
    + clear IHq'. specialize (IHq y).
      assert (Hq : is_walk goal blocked start y (q' ++ [y])).
      { split_and!.
        - destruct q'; done.
        - apply last_snoc.
        - intros i a b Ha Hb. apply (Hs i).
          + rewrite lookup_app_l; [done|]. by apply lookup_lt_Some in Ha.
          + rewrite lookup_app_l; [done|]. by apply lookup_lt_Some in Hb. }
      specialize (IHq Hq). rewrite length_app in *. simpl in *.
      rewrite Nat.add_1_r in *. simpl in IHq.
      destruct (Hs (length q') y n) as [Hadj Hpass].
      * rewrite lookup_app_l by (rewrite length_app; simpl; lia).
        rewrite lookup_app_r by lia. by rewrite Nat.sub_diag.
      * rewrite lookup_app_r by (rewrite length_app; simpl; lia).
        rewrite length_app. simpl. rewrite Nat.add_1_r, Nat.sub_diag. done.
      * by apply (reach_step _ y).
Qed.

Lemma reach_is_walk (k : nat) (n : cell) :
  reach k n → ∃ p, is_walk goal blocked start n p ∧ length p = S k.
Proof.
  induction 1 as [|k c n _ [p [Hp Hlen]] Hadj Hpass].
  - exists [start]. split; [apply is_walk_single|done].
  - exists (p ++ [n]). split; [by apply (is_walk_snoc _ _ _ c)|].
    rewrite length_app. simpl. lia.
Qed.

(** *** The invariant of the search loop *)

(** The edge from [n] to [m] has been relaxed. *)
Definition closed (g : gmap cell Z) (n m : cell) : Prop :=
  ∃ v w, g !! n = Some v ∧ g !! m = Some w ∧ w ≤ v + 1.

(** The edges out of [c] along the directions [ds] are still to be
    relaxed. *)
Definition pend (c : cell) (ds : list (Z * Z)) (n m : cell) : Prop :=
  n = c ∧ ∃ d, d ∈ ds ∧ m = (c.1 + d.1, c.2 + d.2).

Definition no_pend (n m : cell) : Prop := False.

Record inv (pending : cell → cell → Prop) (st : search) : Prop := {
  inv_start : gscore st !! start = Some 0;
  inv_came_start : came st !! start = None;
  inv_reach : ∀ n v, gscore st !! n = Some v →
    0 ≤ v ∧ reach (Z.to_nat v) n;
  inv_came : ∀ n v, gscore st !! n = Some v → n ≠ start →
    ∃ p gp, came st !! n = Some p ∧ gscore st !! p = Some gp ∧
      gp + 1 ≤ v ∧ adjacent p n ∧ passable goal blocked n;
  inv_heap : ∀ f gv n, (f, gv, n) ∈ openh st →
    f = gv + heur goal n ∧ in_grid n = true ∧
    gv ≤ Z.of_nat (size (visited st)) ∧
    ∃ v, gscore st !! n = Some v ∧ v ≤ gv;
  inv_open : ∀ n v, gscore st !! n = Some v → n ∉ visited st →
    (v + heur goal n, v, n) ∈ openh st;
  inv_visited : ∀ n, n ∈ visited st →
    in_grid n = true ∧
    ∃ v, gscore st !! n = Some v ∧ ∀ k, reach k n → v ≤ Z.of_nat k;
  inv_closed : ∀ n m, n ∈ visited st → adjacent n m →
    passable goal blocked m → pending n m ∨ closed (gscore st) n m
}.

Definition initial : search :=
  {| openh := heappush [] (heur goal start, 0, start);
     came := ∅; gscore := {[start := 0]}; visited := ∅ |}.

Lemma inv_initial : inv no_pend initial.
Proof.
  split; simpl.
  - apply lookup_singleton_eq.
  - apply lookup_empty.
  - intros n v Hn. apply lookup_singleton_Some in Hn as [<- <-].
    split; [lia|]. constructor.
  - intros n v Hn Hne. apply lookup_singleton_Some in Hn as [<- <-]. done.
  - intros f gv n Hin. unfold heappush in Hin.
    apply list_elem_of_singleton in Hin. injection Hin as -> -> ->.
    split_and!; [lia|done|lia|]. exists 0. rewrite lookup_singleton_eq.
    split; [done|lia].
  - intros n v Hn _. apply lookup_singleton_Some in Hn as [<- <-].
    unfold heappush. rewrite Z.add_0_l. apply list_elem_of_singleton. done.
  - intros n Hn. set_solver.
  - intros n m Hn. set_solver.
Qed.

(** Every walk to a cell that is not visited yet crosses the frontier
    at a cell whose heap entry is no worse than the walk. *)
Lemma frontier (st : search) (k : nat) (n : cell) :
  inv no_pend st → reach k n →
  n ∈ visited st ∨
  (∃ m w, (m ∉ visited st) ∧ gscore st !! m = Some w ∧
    w + heur goal m ≤ Z.of_nat k + heur goal n).
Proof.
  intros Hinv Hr. induction Hr as [|k c n Hr IH Hadj Hpass].
  - destruct (decide (start ∈ visited st)) as [Hv|Hv]; [by left|].
    right. exists start, 0. split_and!; [done|apply Hinv|lia].
  - destruct (decide (n ∈ visited st)) as [Hvn|Hvn]; [by left|]. right.
    destruct IH as [Hvc|(m & w & Hm & Hg & Hle)].
    + destruct (inv_visited _ _ Hinv c Hvc) as (_ & v & Hgc & Hopt).
      specialize (Hopt k Hr).
      destruct (inv_closed _ _ Hinv c n Hvc Hadj Hpass) as [[]|Hcl].
      destruct Hcl as (v' & w & Hv' & Hw & Hle).
      rewrite Hgc in Hv'. injection Hv' as <-.
      exists n, w. split_and!; [done..|lia].
    + exists m, w. split_and!; [done..|].
      pose proof (heur_step goal c n Hadj). lia.
Qed.

(** Dropping a heap entry of a visited cell. *)
Lemma inv_pop_visited (st : search) (f gc : Z) (c : cell)
    (rest : list entry) :
  inv no_pend st → heappop (openh st) = Some ((f, gc, c), rest) →
  c ∈ visited st →
  inv no_pend {| openh := rest; came := came st; gscore := gscore st;
                 visited := visited st |}.
Proof.
  intros Hinv Hpop Hvis.
  destruct (heappop_spec _ _ _ Hpop) as (Hm & Hleast & Hrest & Hsub & Hlen).
  split; simpl; try apply Hinv.
  - intros f' gv n Hin. apply (inv_heap _ _ Hinv). by apply Hsub.
  - intros n v Hn Hnv. apply Hrest; [by apply (inv_open _ _ Hinv)|].
    intros [= _ _ ->]. done.
Qed.

(** Taking the least entry of a cell that is not visited yet: its [g]
    is the length of a shortest walk. *)
Lemma inv_pop_fresh (st : search) (f gc : Z) (c : cell)
    (rest : list entry) :
  inv no_pend st → heappop (openh st) = Some ((f, gc, c), rest) →
  c ∉ visited st →
  gscore st !! c = Some gc ∧
  (∀ k, reach k c → gc ≤ Z.of_nat k) ∧
  gc + 1 ≤ Z.of_nat (size ({[c]} ∪ visited st)) ∧
  inv (pend c deltas)
    {| openh := rest; came := came st; gscore := gscore st;
       visited := {[c]} ∪ visited st |}.
Proof.
  intros Hinv Hpop Hvis.
  destruct (heappop_spec _ _ _ Hpop) as (Hm & Hleast & Hrest & Hsub & Hlen).
  destruct (inv_heap _ _ Hinv _ _ _ Hm) as (Hf & Hgrid & Hsz & v & Hg & Hv).
  assert (Hgc : v = gc).
  { pose proof (Hleast _ (inv_open _ _ Hinv c v Hg Hvis)) as Hnlt.
    unfold entry_lt in Hnlt. simpl in Hnlt. lia. }
  subst v.
  assert (Hopt : ∀ k, reach k c → gc ≤ Z.of_nat k).
  { intros k Hr. destruct (frontier st k c Hinv Hr) as [|(m & w & Hmv & Hgm & Hle)];
      [done|].
    pose proof (Hleast _ (inv_open _ _ Hinv m w Hgm Hmv)) as Hnlt.
    unfold entry_lt in Hnlt. simpl in Hnlt. lia. }
  rewrite size_add_fresh by done.
  split_and!; [done|done|lia|].
  split; simpl; try apply Hinv.
  - intros f' gv n Hin.
    destruct (inv_heap _ _ Hinv f' gv n (Hsub _ Hin)) as (? & ? & ? & ?).
    rewrite size_add_fresh by done. split_and!; [done|done|lia|done].
  - intros n w Hn Hnv. apply Hrest.
    + apply (inv_open _ _ Hinv); [done|set_solver].
    + intros [= _ _ ->]. set_solver.
  - intros n [->%elem_of_singleton|Hn]%elem_of_union.
    + split; [done|]. by exists gc.
    + by apply (inv_visited _ _ Hinv).
  - intros n m [->%elem_of_singleton|Hn]%elem_of_union Hadj Hpass.
    + left. split; [done|]. by apply adjacent_deltas.
    + right. destruct (inv_closed _ _ Hinv n m Hn Hadj Hpass) as [[]|]. done.
Qed.

Lemma inv_visited_size (pending : cell → cell → Prop) (st : search) :
  inv pending st → Z.of_nat (size (visited st)) ≤ CELLS * CELLS.
Proof.
  intros Hinv. apply size_in_grid. intros n Hn.
  by destruct (inv_visited _ _ Hinv n Hn).
Qed.

(** An edge that cannot be taken, or is closed already, is done. *)
Lemma inv_pend_done (c : cell) (d : Z * Z) (ds : list (Z * Z))
    (st : search) :
  inv (pend c (d :: ds)) st →
  (passable goal blocked (c.1 + d.1, c.2 + d.2) →
   closed (gscore st) c (c.1 + d.1, c.2 + d.2)) →
  inv (pend c ds) st.
Proof.
  intros Hinv Hdone. split; try apply Hinv.
  intros n m Hn Hadj Hpass.
  destruct (inv_closed _ _ Hinv n m Hn Hadj Hpass) as [[-> (d0 & Hd0 & ->)]|];
    [|by right].
  apply elem_of_cons in Hd0 as [->|Hd0].
  - right. by apply Hdone.
  - left. split; [done|]. by exists d0.
Qed.

Lemma closed_insert (g : gmap cell Z) (x m n : cell) (ng : Z) :
  closed g x m → x ≠ n → (∀ w, g !! n = Some w → ng < w) →
  closed (<[n:=ng]> g) x m.
Proof.
  intros (v & w & Hx & Hm & Hle) Hne Hlt.
  destruct (decide (m = n)) as [->|Hmn].
  - exists v, ng. rewrite lookup_insert_ne, lookup_insert_eq by done.
    split_and!; [done..|]. specialize (Hlt w Hm). lia.
  - exists v, w. by rewrite !lookup_insert_ne by done.
Qed.

(** One neighbour of the cell [c] that is being expanded. *)
Lemma inv_relax (c : cell) (gc : Z) (d : Z * Z) (ds : list (Z * Z))
    (st : search) :
  inv (pend c (d :: ds)) st → d ∈ deltas → c ∈ visited st →
  gscore st !! c = Some gc →
  gc + 1 ≤ Z.of_nat (size (visited st)) →
  inv (pend c ds) (relax goal blocked c gc st d) ∧
  visited (relax goal blocked c gc st d) = visited st ∧
  gscore (relax goal blocked c gc st d) !! c = Some gc ∧
  (length (openh (relax goal blocked c gc st d)) ≤ S (length (openh st)))%nat.
Proof.
  intros Hinv Hd Hc Hgc Hsz. unfold relax.
  set (n := (c.1 + d.1, c.2 + d.2)).
  pose proof (inv_visited_size _ _ Hinv) as Hbound.
  change (CELLS * CELLS) with 1600 in Hbound.
  destruct (in_grid n) eqn:Hgrid; simpl.
  2:{ split_and!; [|done|done|lia]. apply (inv_pend_done c d); [done|].
      intros [Hin _]. fold n in Hin. congruence. }
  match goal with
  | |- context [if ?b then st else _] => destruct b eqn:Hblk
  end.
  { split_and!; [|done|done|lia]. apply (inv_pend_done c d); [done|].
    intros [_ Hb]. fold n in Hb.
    apply andb_true_iff in Hblk as [Hb1 Hb2].
    apply bool_decide_eq_true in Hb1. apply negb_true_iff in Hb2.
    apply bool_decide_eq_false in Hb2. by specialize (Hb Hb1). }
  assert (Hpass : passable goal blocked n).
  { split; [done|]. intros Hb. apply andb_false_iff in Hblk as [Hb1|Hb2].
    - by apply bool_decide_eq_false in Hb1.
    - apply negb_false_iff in Hb2. by apply bool_decide_eq_true in Hb2. }
  assert (Hadj : adjacent c n) by (apply adjacent_deltas; by exists d).
  destruct (inv_reach _ _ Hinv c gc Hgc) as [Hgc0 Hrc].
  assert (Hrn : reach (S (Z.to_nat gc)) n) by (by apply (reach_step _ c)).
  match goal with
  | |- context [if ?b then _ else st] => destruct b eqn:Hlt
  end.
  2:{ split_and!; [|done|done|lia]. apply (inv_pend_done c d); [done|].
      intros _. fold n. apply Z.ltb_ge in Hlt.
      destruct (gscore st !! n) as [w|] eqn:Hw; simpl in Hlt; [|lia].
      exists gc, w. done. }
  apply Z.ltb_lt in Hlt.
  assert (Hless : ∀ w, gscore st !! n = Some w → gc + 1 < w).
  { intros w Hw. by rewrite Hw in Hlt. }
  assert (Hnv : n ∉ visited st).
  { intros Hv. destruct (inv_visited _ _ Hinv n Hv) as (_ & v & Hv1 & Hv2).
    specialize (Hv2 _ Hrn). specialize (Hless _ Hv1). lia. }
  assert (Hns : n ≠ start).
  { intros ->. specialize (Hless _ (inv_start _ _ Hinv)). lia. }
  assert (Hnc : n ≠ c) by (intros ->; done).
  simpl. split_and!; [|done|by rewrite lookup_insert_ne|simpl; lia].
  split; simpl.
  - rewrite lookup_insert_ne by done. apply Hinv.
  - rewrite lookup_insert_ne by done. apply Hinv.
  - intros n' v [[<- <-]|[Hne Hn']]%lookup_insert_Some.
    + split; [lia|]. by rewrite Z2Nat.inj_add, Nat.add_1_r by lia.
    + by apply (inv_reach _ _ Hinv).
  - intros n' v [[<- <-]|[Hne Hn']]%lookup_insert_Some Hstart.
    + exists c, gc. rewrite lookup_insert_eq, lookup_insert_ne by done.
      split_and!; [done|done|lia|done|done].
    + destruct (inv_came _ _ Hinv n' v Hn' Hstart)
        as (p & gp & Hp1 & Hp2 & Hp3 & Hp4 & Hp5).
      rewrite lookup_insert_ne by done.
      destruct (decide (p = n)) as [->|Hpn].
      * exists n, (gc + 1). rewrite lookup_insert_eq.
        specialize (Hless _ Hp2). split_and!; [done|done|lia|done|done].
      * exists p, gp. by rewrite lookup_insert_ne by done.
  - intros f gv x [Heq|Hin]%elem_of_cons.
    + injection Heq as -> -> ->. split_and!; [done|done|lia|].
      exists (gc + 1). rewrite lookup_insert_eq. split; [done|lia].
    + destruct (inv_heap _ _ Hinv f gv x Hin) as (? & ? & ? & v & Hv & ?).
      split_and!; [done..|].
      destruct (decide (x = n)) as [->|Hxn].
      * exists (gc + 1). rewrite lookup_insert_eq.
        specialize (Hless _ Hv). split; [done|lia].
      * exists v. by rewrite lookup_insert_ne by done.
  - intros x v [[<- <-]|[Hne Hx]]%lookup_insert_Some Hxv.
    + apply elem_of_cons. by left.
    + apply elem_of_cons. right. by apply (inv_open _ _ Hinv).
  - intros x Hx. destruct (inv_visited _ _ Hinv x Hx) as (? & v & ? & ?).
    split; [done|]. exists v. rewrite lookup_insert_ne by (by intros ->).
    done.
  - intros x m Hx Hxm Hm.
    assert (Hxn : x ≠ n) by (by intros ->).
    destruct (inv_closed _ _ Hinv x m Hx Hxm Hm)
      as [[-> (d0 & Hd0 & ->)]|Hcl].
    + apply elem_of_cons in Hd0 as [->|Hd0].
      * right. exists gc, (gc + 1). fold n.
        rewrite lookup_insert_ne, lookup_insert_eq by done.
        split_and!; [done..|lia].
      * left. split; [done|]. by exists d0.
    + right. by apply closed_insert.
Qed.

(** The whole [for dx, dy in ...] loop. *)
Lemma inv_relax_all (c : cell) (gc : Z) (ds : list (Z * Z)) (st : search) :
  inv (pend c ds) st → (∀ d, d ∈ ds → d ∈ deltas) → c ∈ visited st →
  gscore st !! c = Some gc →
  gc + 1 ≤ Z.of_nat (size (visited st)) →
  inv no_pend (fold_left (relax goal blocked c gc) ds st) ∧
  visited (fold_left (relax goal blocked c gc) ds st) = visited st ∧
  (length (openh (fold_left (relax goal blocked c gc) ds st))
     ≤ length ds + length (openh st))%nat.
Proof.
  revert st. induction ds as [|d ds IHds]; intros st Hinv Hds Hc Hgc Hsz.
  - simpl. split_and!; [|done|lia]. split; try apply Hinv.
    intros n m Hn Hadj Hpass.
    destruct (inv_closed _ _ Hinv n m Hn Hadj Hpass) as [[_ (d & Hd & _)]|];
      [by apply elem_of_nil in Hd|by right].
  - simpl.
    destruct (inv_relax c gc d ds st Hinv) as (Hinv' & Hvis & Hgc' & Hlen);
      [apply Hds; by left|done..|].
    destruct (IHds (relax goal blocked c gc st d)) as (Hinv'' & Hvis' & Hlen');
      [done|intros; apply Hds; by right|by rewrite Hvis|done|by rewrite Hvis|].
    split_and!; [done|congruence|lia].
Qed.

(** *** Rebuilding the path *)

Lemma walk_back_ok (pending : cell → cell → Prop) (st : search) (k : nat) :
  inv pending st → ∀ n v, gscore st !! n = Some v → (Z.to_nat v < k)%nat →
  ∃ tl, walk_back k (came st) n = Some tl ∧
    is_walk goal blocked start n (rev (n :: tl)) ∧
    (length tl ≤ Z.to_nat v)%nat.
Proof.
  intros Hinv. induction k as [|k IHk]; intros n v Hn Hk; [lia|].
  simpl. destruct (decide (n = start)) as [->|Hne].
  - rewrite (inv_came_start _ _ Hinv). exists []. split_and!; [done| |simpl; lia].
    apply is_walk_single.
  - destruct (inv_came _ _ Hinv n v Hn Hne)
      as (p & gp & Hp1 & Hp2 & Hp3 & Hp4 & Hp5).
    destruct (inv_reach _ _ Hinv p gp Hp2) as [Hgp _].
    destruct (IHk p gp Hp2) as (tl & Htl & Hwalk & Hlen); [lia|].
    rewrite Hp1, Htl. exists (p :: tl). split_and!; [done| |simpl; lia].
    change (rev (n :: p :: tl)) with (rev (p :: tl) ++ [n]).
    by apply (is_walk_snoc _ _ _ p).
Qed.

(** *** The loop *)

Definition measure (st : search) : nat :=
  length (openh st) + 4 * (Z.to_nat (CELLS * CELLS) - size (visited st)).

(** What the loop answers: [[start]] when the goal cannot be reached,
    and otherwise a walk to the goal that no walk is shorter than. *)
Definition answer (p : list cell) : Prop :=
  (p = [start] ∧ ∀ k, ¬ reach k goal) ∨
  (is_walk goal blocked start goal p ∧
   ∀ k, reach k goal → (length p ≤ S k)%nat).

Lemma astar_loop_unfold (fuel : nat) (st : search) :
  astar_loop (S fuel) start goal blocked st =
  match heappop (openh st) with
  | None => Some [start]
  | Some ((_, gc, c), rest) =>
      if bool_decide (c ∈ visited st) then
        astar_loop fuel start goal blocked
          {| openh := rest; came := came st; gscore := gscore st;
             visited := visited st |}
      else
        if bool_decide (c = goal) then
          (λ tl, rev (c :: tl)) <$> walk_back RFUEL (came st) c
        else
          astar_loop fuel start goal blocked
            (expand goal blocked c gc
               {| openh := rest; came := came st; gscore := gscore st;
                  visited := {[c]} ∪ visited st |})
  end.
Proof. reflexivity. Qed.

Lemma astar_loop_ok (fuel : nat) (st : search) :
  inv no_pend st → goal ∉ visited st → (measure st < fuel)%nat →
  ∃ p, astar_loop fuel start goal blocked st = Some p ∧ answer p.
Proof.
  revert st. induction fuel as [|fuel IHfuel]; intros st Hinv Hgoal Hfuel;
    [lia|].
  rewrite astar_loop_unfold.
  destruct (heappop (openh st)) as [[[[f gc] c] rest]|] eqn:Hpop.
  2:{ exists [start]. split; [done|]. left. split; [done|]. intros k Hr.
      apply heappop_none in Hpop.
      destruct (frontier st k goal Hinv Hr) as [|(m & w & Hm & Hg & _)];
        [done|].
      pose proof (inv_open _ _ Hinv m w Hg Hm) as Hin.
      rewrite Hpop in Hin. by apply elem_of_nil in Hin. }
  pose proof (heappop_spec _ _ _ Hpop) as (_ & _ & _ & _ & Hlen).
  destruct (bool_decide (c ∈ visited st)) eqn:Hvis.
  { apply bool_decide_eq_true in Hvis. apply IHfuel.
    - by apply (inv_pop_visited st f gc c).
    - done.
    - unfold measure in *. simpl. lia. }
  apply bool_decide_eq_false in Hvis.
  destruct (inv_pop_fresh st f gc c rest Hinv Hpop Hvis)
    as (Hgc & Hopt & Hsz & Hinv').
  pose proof (inv_visited_size _ _ Hinv') as Hbound. simpl in Hbound.
  change (CELLS * CELLS) with 1600 in *.
  destruct (inv_reach _ _ Hinv c gc Hgc) as [Hgc0 _].
  destruct (bool_decide (c = goal)) eqn:Hcg.
  { apply bool_decide_eq_true in Hcg. subst c.
    destruct (walk_back_ok no_pend st RFUEL Hinv goal gc Hgc)
      as (tl & Htl & Hwalk & Hlentl).
    { unfold RFUEL. change (CELLS * CELLS + 1) with 1601. lia. }
    rewrite Htl. simpl. exists (rev tl ++ [goal]). split; [done|].
    right. split; [done|]. intros k Hr. specialize (Hopt k Hr).
    rewrite length_app, length_rev. simpl. lia. }
  apply bool_decide_eq_false in Hcg.
  destruct (inv_relax_all c gc deltas _ Hinv') as (Hinv'' & Hvis' & Hlen');
    [done|set_solver|done|done|].
  cbn [visited openh] in Hvis', Hlen'.
  change (length deltas) with 4%nat in Hlen'. unfold expand. apply IHfuel.
  - done.
  - rewrite Hvis'. intros [Hg%elem_of_singleton|Hg]%elem_of_union; auto.
  - unfold measure in *. rewrite Hvis'.
    change (Z.to_nat (CELLS * CELLS)) with 1600%nat in *.
    rewrite size_add_fresh in * by done. lia.
Qed.

Lemma astar_answer :
  in_grid goal = true →
  ∃ p, astar start goal blocked = Some p ∧ answer p.
Proof.
  intros goal_in. unfold astar. rewrite start_in, goal_in. cbn [negb].
  apply (astar_loop_ok FUEL initial).
  - apply inv_initial.
  - set_solver.
  - unfold measure, initial. cbn [openh visited heappush length].
    rewrite size_empty. apply Nat.ltb_lt. vm_compute. reflexivity.
Qed.

End correctness.

Lemma is_walk_in_grid (goal : cell) (blocked : gset cell) (a b : cell)
    (p : list cell) :
  in_grid a = true → is_walk goal blocked a b p →
  ∀ c, c ∈ p → in_grid c = true ∧ (c ∈ blocked → c = goal ∨ c = a).
Proof.
  intros Ha (Hh & _ & Hstep) c Hc.
  apply list_elem_of_lookup in Hc as [i Hi]. destruct i as [|i].
  - rewrite head_lookup in Hh. rewrite Hh in Hi. injection Hi as <-.
    split; [done|]. by right.
  - destruct (lookup_lt_is_Some_2 p i) as [x Hx].
    { apply lookup_lt_Some in Hi. lia. }
    destruct (Hstep i x c Hx Hi) as [_ [Hin Hb]].
    split; [done|]. intros Hc. left. by apply Hb.
Qed.

(** Whatever the blocked cells, inside the grid [astar] answers a
    sequence of cells of the grid that starts at [start]. *)
Lemma astar_path (start goal : cell) (blocked : gset cell) :
  in_grid start = true → in_grid goal = true →
  ∃ p, astar start goal blocked = Some p ∧ head p = Some start ∧
    ∀ c, c ∈ p → in_grid c = true.
Proof.
  intros Hs Hg.
  destruct (astar_answer start goal blocked Hs Hg) as (p & Hp & [[-> _]|[Hw _]]).
  - exists [start]. split_and!; [done..|].
    by intros c ->%list_elem_of_singleton.
  - exists p. split_and!; [done|apply Hw|].
    intros c Hc. by destruct (is_walk_in_grid _ _ _ _ _ Hs Hw c Hc).
Qed.

(** C3.  For in-grid [start] and [goal] and any [blocked] set, if some
    walk from [start] to [goal] exists, [astar] returns a sequence that
    starts at [start], ends at [goal], moves between 4-adjacent cells of
    the grid, enters no blocked cell other than the goal, and is no
    longer than any such walk. *)
Theorem astar_shortest_walk (start goal : cell) (blocked : gset cell) :
  in_grid start = true → in_grid goal = true →
  (∃ q, is_walk goal blocked start goal q) →
  ∃ p, astar start goal blocked = Some p ∧
    is_walk goal blocked start goal p ∧
    (∀ c, c ∈ p → in_grid c = true ∧ (c ∈ blocked → c = goal ∨ c = start)) ∧
    ∀ q, is_walk goal blocked start goal q → (length p ≤ length q)%nat.
Proof.
  intros Hs Hg [q Hq].
  destruct (astar_answer start goal blocked Hs Hg) as (p & Hp & [[-> Hno]|[Hw Hmin]]).
  { apply is_walk_reach in Hq. by apply Hno in Hq. }
  exists p. split_and!; [done|done| |].
  - by apply (is_walk_in_grid goal blocked start goal).
  - intros q' Hq'. pose proof (is_walk_reach _ _ _ _ _ Hq') as Hr.
    specialize (Hmin _ Hr). destruct Hq' as (Hh & _).
    destruct q'; [done|]. simpl in *. lia.
Qed.

(** C4.  [astar] fails soft: outside the grid the answer is the empty
    sequence, and without any walk from [start] to [goal] it is
    [[start]]; a result is produced in both cases. *)
Theorem astar_fails_soft (start goal : cell) (blocked : gset cell) :
  (in_grid start = false ∨ in_grid goal = false →
   astar start goal blocked = Some []) ∧
  (in_grid start = true → in_grid goal = true →
   (¬ ∃ q, is_walk goal blocked start goal q) →
   astar start goal blocked = Some [start]).
Proof.
  split.
  - unfold astar. intros [->| ->]; simpl; [done|]. by destruct (in_grid start).
  - intros Hs Hg Hno.
    destruct (astar_answer start goal blocked Hs Hg) as (p & Hp & [[-> _]|[Hw _]]);
      [done|].
    exfalso. apply Hno. by exists p.
Qed.

(** *** Walks on given cells *)

(** The test of [is_walk] on the steps of a given sequence. *)
Fixpoint steps_ok (goal : cell) (blocked : gset cell) (p : list cell) : bool :=
  match p with
  | a :: ((b :: _) as rest) =>
      (Z.abs (b.1 - a.1) + Z.abs (b.2 - a.2) =? 1) && in_grid b
      && (negb (bool_decide (b ∈ blocked)) || bool_decide (b = goal))
      && steps_ok goal blocked rest
  | _ => true
  end.

Lemma steps_ok_walk (goal : cell) (blocked : gset cell) (a b : cell)
    (p : list cell) :
  head p = Some a → last p = Some b → steps_ok goal blocked p = true →
  is_walk goal blocked a b p.
Proof.
  intros Hh Hl Hok. split_and!; [done..|]. clear Hh Hl.
  induction p as [|c p IHp]; intros i u v Hu Hv; [done|].
  destruct p as [|d p]; [by destruct i|].
  simpl in Hok. apply andb_true_iff in Hok as [Hok Hrest].
  apply andb_true_iff in Hok as [Hok Hblk].
  apply andb_true_iff in Hok as [Hadj Hin].
  destruct i as [|i].
  - simpl in Hu, Hv. injection Hu as <-. injection Hv as <-. split.
    + unfold adjacent. by apply Z.eqb_eq in Hadj.
    + split; [done|]. intros Hb. apply orb_true_iff in Hblk as [Hn|He].
      * apply negb_true_iff, bool_decide_eq_false in Hn. done.
      * by apply bool_decide_eq_true in He.
  - by apply (IHp Hrest i).
Qed.

Lemma astar_shortest_walk_witness :
  ∃ p, astar (0, 0) (2, 0) (blk [(1, 0)]) = Some p ∧
    is_walk (2, 0) (blk [(1, 0)]) (0, 0) (2, 0) p ∧
    (∀ c, c ∈ p →
       in_grid c = true ∧
       (c ∈ blk [(1, 0)] → c = (2, 0) ∨ c = (0, 0))) ∧
    ∀ q, is_walk (2, 0) (blk [(1, 0)]) (0, 0) (2, 0) q →
         (length p ≤ length q)%nat.
Proof.
  apply astar_shortest_walk; [reflexivity|reflexivity|].
  exists [(0, 0); (0, 1); (1, 1); (2, 1); (2, 0)].
  apply steps_ok_walk; [reflexivity|reflexivity|]. vm_compute. reflexivity.
Defined.

(** The corner cell with both neighbours blocked has no way out. *)
Lemma walled_in :
  ¬ ∃ q, is_walk (5, 5) (blk [(1, 0); (0, 1)]) (0, 0) (5, 5) q.
Proof.
  intros [q (Hh & Hl & Hs)]. destruct q as [|a [|b q]]; [done| |].
  - simpl in Hh, Hl. congruence.
  - simpl in Hh. injection Hh as ->.
    destruct (Hs 0%nat (0, 0) b eq_refl eq_refl) as [Hadj [Hin Hb]].
    apply adjacent_deltas in Hadj as (d & Hd & ->).
    repeat (apply elem_of_cons in Hd as [->|Hd]);
      [| | | |by apply elem_of_nil in Hd].
    + change (((0, 0).1 + (1, 0).1, (0, 0).2 + (1, 0).2)) with (1, 0) in *.
      assert (Hm : (1, 0) ∈ blk [(1, 0); (0, 1)]) by (unfold blk; set_solver).
      apply Hb in Hm. discriminate.
    + vm_compute in Hin. discriminate.
    + change (((0, 0).1 + (0, 1).1, (0, 0).2 + (0, 1).2)) with (0, 1) in *.
      assert (Hm : (0, 1) ∈ blk [(1, 0); (0, 1)]) by (unfold blk; set_solver).
      apply Hb in Hm. discriminate.
    + vm_compute in Hin. discriminate.
Qed.

Lemma astar_fails_soft_witness :
  astar (40, 0) (5, 5) ∅ = Some [] ∧
  astar (0, 0) (5, 5) (blk [(1, 0); (0, 1)]) = Some [(0, 0)].
Proof.
  split.
  - apply (astar_fails_soft (40, 0) (5, 5) ∅). left. reflexivity.
  - apply (astar_fails_soft (0, 0) (5, 5) (blk [(1, 0); (0, 1)]));
      [reflexivity|reflexivity|apply walled_in].
Defined.

End AstarFacts.

(** ** Reading results *)

Lemma bind_Ok {A B : Type} (m : res A) (f : A → res B) (b : B) :
  m ≫= f = Ok b → ∃ a, m = Ok a ∧ f a = Ok b.
Proof. destruct m; simpl; intros H; try discriminate. by exists a. Qed.

Ltac res_inv H :=
  let a := fresh "a" in
  let Ha := fresh "Ha" in
  apply bind_Ok in H as (a & Ha & H).

Ltac case_if_hyp H :=
  match type of H with
  | context [if ?b then _ else _] => destruct b eqn:?
  end.

(** ** Turning *)

Lemma can_turn_opposite (a b : Z) : can_turn (a, b) (- a, - b) = false.
Proof.
  unfold can_turn. simpl. rewrite !Z.opp_involutive, !Z.eqb_refl. done.
Qed.

(** A step of the snake changes the heading only by applying the queued
    direction. *)
Lemma snake_step_heading (draws draws' : list (Z * Z)) (s s' : state) :
  snake_step draws s = Ok (s', draws') →
  dir_x s' = dir_x (apply_queued s) ∧ dir_y s' = dir_y (apply_queued s).
Proof.
  unfold snake_step. intros H.
  assert (Hd : dir_x (apply_queued (set_progress (progress s - 1) s))
               = dir_x (apply_queued s) ∧
               dir_y (apply_queued (set_progress (progress s - 1) s))
               = dir_y (apply_queued s)).
  { unfold apply_queued. simpl. by destruct (negb _ && _). }
  destruct Hd as [<- <-].
  destruct (move_to_cell _ _ _ _); [|by injection H as <- _].
  case_if_hyp H; [by injection H as <- _|].
  res_inv H. simpl in H. case_if_hyp H.
  - res_inv H. destruct a0. by injection H as <- _.
  - by injection H as <- _.
Qed.

(** C8.  A queued direction that is the exact opposite of the heading
    never changes the heading when it is applied at a grid step, so the
    step of the snake keeps the heading; and a key that asks for the
    exact opposite of the heading is not queued. *)
Theorem reversal_never_turns (s : state) :
  (queued_dir s = (- dir_x s, - dir_y s) →
   (dir_x (apply_queued s) = dir_x s ∧ dir_y (apply_queued s) = dir_y s) ∧
   ∀ draws draws' s', snake_step draws s = Ok (s', draws') →
     dir_x s' = dir_x s ∧ dir_y s' = dir_y s) ∧
  (∀ k, key_dir k (dir_x s, dir_y s) = (- dir_x s, - dir_y s) →
        handle_event s (KEYDOWN k) = Ok s).
Proof.
  split.
  - intros Hq.
    assert (Hsame : dir_x (apply_queued s) = dir_x s ∧
                    dir_y (apply_queued s) = dir_y s).
    { unfold apply_queued. rewrite Hq.
      rewrite can_turn_opposite, andb_false_r. done. }
    split; [done|]. intros draws draws' s' Hstep.
    apply snake_step_heading in Hstep as [-> ->]. done.
  - intros k Hk. unfold handle_event. rewrite Hk.
    rewrite can_turn_opposite, andb_false_r. done.
Qed.

(** The snake heads east; a reversal to the west is queued by hand and
    then met by a press of the left key. *)
Lemma reversal_never_turns_witness :
  let s := set_progress 1 (set_queued_dir (-1, 0) (initial_state (0, 0))) in
  ((dir_x (apply_queued s) = 1 ∧ dir_y (apply_queued s) = 0) ∧
   ∀ draws draws' s', snake_step draws s = Ok (s', draws') →
     dir_x s' = 1 ∧ dir_y s' = 0) ∧
  handle_event s (KEYDOWN K_LEFT) = Ok s.
Proof.
  intros s. destruct (reversal_never_turns s) as [H1 H2]. split.
  - apply H1. reflexivity.
  - apply (H2 K_LEFT). reflexivity.
Defined.

(** ** Firing *)

Lemma hypot_0_0 : hypot 0 0 = 0%R.
Proof. unfold hypot. rewrite Rmult_0_l, Rplus_0_l. apply sqrt_0. Qed.

Lemma hypot_nonneg (a b : R) : (0 <= hypot a b)%R.
Proof. apply sqrt_pos. Qed.

Lemma float_or_nonzero (a : R) : float_or a 1 ≠ 0%R.
Proof.
  unfold float_or. case_bool_decide; [lra|done].
Qed.

Lemma py_div_ok (a b : R) : b ≠ 0%R → py_div a b = Ok (a / b)%R.
Proof. intros Hb. unfold py_div. by rewrite bool_decide_eq_false_2. Qed.

(** The projectile made by a shot aimed at the centre of the head. *)
Definition still_bullet (hx hy : R) : Bullet.t :=
  {| Bullet.pos := (hx + IZR SIZE / 2, hy + IZR SIZE / 2)%R;
     Bullet.vel := (0 / 1 * IZR BULLET_SPEED, 0 / 1 * IZR BULLET_SPEED)%R;
     Bullet.r := IZR BULLET_RADIUS; Bullet.hit := false;
     Bullet.t_hit := 0%R; Bullet.alpha := 255 |}.

(** C2, as the code has it.  A shot aimed at the centre of the head
    divides by 1.0, so no division fails, and the projectile it makes
    has the zero vector as its velocity. *)
Theorem fire_at_head_centre (hx hy : R) (mouse : Z * Z) :
  IZR mouse.1 = (hx + IZR SIZE / 2)%R →
  IZR mouse.2 = (hy + IZR SIZE / 2)%R →
  ∃ b, fire hx hy mouse = Ok b ∧ Bullet.vel b = (0, 0)%R.
Proof.
  intros H1 H2. exists (still_bullet hx hy). unfold fire.
  rewrite H1, H2, !Rminus_diag, hypot_0_0.
  unfold float_or. rewrite bool_decide_eq_true_2 by done.
  rewrite py_div_ok by lra. simpl. split; [done|].
  f_equal; lra.
Qed.

Lemma fire_at_head_centre_witness :
  ∃ b, fire 400 400 (410, 410) = Ok b ∧ Bullet.vel b = (0, 0)%R.
Proof.
  apply fire_at_head_centre; simpl; unfold SIZE; lra.
Defined.

(** C2 fails as stated: the shot aimed at the centre of the head makes a
    projectile that does not move. *)
Lemma fire_at_head_not_moving :
  ¬ (∀ b, fire 400 400 (410, 410) = Ok b → Bullet.vel b ≠ (0, 0)%R).
Proof.
  intros Hmoves. apply (Hmoves (still_bullet 400 400)).
  - unfold fire.
    replace (IZR (410%Z, 410%Z).1 - (400 + IZR SIZE / 2))%R with 0%R
      by (simpl; unfold SIZE; lra).
    replace (IZR (410%Z, 410%Z).2 - (400 + IZR SIZE / 2))%R with 0%R
      by (simpl; unfold SIZE; lra).
    rewrite hypot_0_0. unfold float_or.
    rewrite bool_decide_eq_true_2 by done. rewrite py_div_ok by lra.
    reflexivity.
  - unfold still_bullet. simpl. f_equal; lra.
Qed.

(** Firing never divides by zero, wherever the mouse is. *)
Lemma fire_never_raises (hx hy : R) (mouse : Z * Z) :
  ∃ b, fire hx hy mouse = Ok b.
Proof.
  unfold fire. rewrite !py_div_ok by apply float_or_nonzero. simpl. eauto.
Qed.

(** ** Score and length *)

(** What a piece of the frame leaves alone. *)
Definition same_counters (s s' : state) : Prop :=
  length_cells s' = length_cells s ∧ score s' = score s.

Lemma handle_event_counters (s s' : state) (ev : event) :
  handle_event s ev = Ok s' → same_counters s s'.
Proof.
  destruct ev as [|k|button mouse|]; simpl; intros H; try discriminate.
  - case_if_hyp H; injection H as <-; done.
  - case_if_hyp H.
    + res_inv H. injection H as <-. done.
    + injection H as <-. done.
  - injection H as <-. done.
Qed.

Lemma handle_events_counters (evs : list event) (s s' : state) :
  handle_events evs s = Ok s' → same_counters s s'.
Proof.
  revert s. induction evs as [|ev evs IHevs]; simpl; intros s H.
  - injection H as <-. done.
  - res_inv H. apply handle_event_counters in Ha. apply IHevs in H.
    unfold same_counters in *. destruct Ha, H. split; congruence.
Qed.

Lemma apply_queued_fields (s : state) :
  same_counters s (apply_queued s) ∧ body (apply_queued s) = body s ∧
  apple (apply_queued s) = apple s ∧ grid_x (apply_queued s) = grid_x s ∧
  grid_y (apply_queued s) = grid_y s ∧
  enemies (apply_queued s) = enemies s ∧ bullets (apply_queued s) = bullets s.
Proof. unfold apply_queued. by case_match. Qed.

(** The only change of [length_cells] and of [score] in a step of the
    snake is the apple, which adds one to both. *)
Lemma snake_step_counters (draws draws' : list (Z * Z)) (s s' : state) :
  snake_step draws s = Ok (s', draws') →
  same_counters s s' ∨
  (length_cells s' = length_cells s + 1 ∧ score s' = score s + 1 ∧
   apple s' ∉ body s').
Proof.
  unfold snake_step. intros H.
  destruct (apply_queued_fields (set_progress (progress s - 1) s))
    as ((Hl & Hs) & _).
  simpl in Hl, Hs.
  set (s1 := apply_queued (set_progress (progress s - 1) s)) in *.
  destruct (move_to_cell _ _ _ _) as [new_cell|].
  2:{ injection H as <- <-. left. done. }
  case_if_hyp H.
  { injection H as <- <-. left. done. }
  res_inv H. simpl in H. case_if_hyp H.
  - res_inv H. destruct a0 as [ap dr]. injection H as <- <-. right. simpl.
    split_and!; [lia|lia|].
    simpl in Ha0. clear -Ha0. revert Ha0.
    induction draws as [|d draws IHd]; simpl; [done|].
    case_bool_decide; [done|]. by intros [= <- <-].
  - injection H as <- <-. left. done.
Qed.

Lemma snake_loop_counters (fuel : nat) (draws draws' : list (Z * Z))
    (s s' : state) :
  snake_loop fuel draws s = Ok (s', draws') →
  length_cells s' - score s' = length_cells s - score s.
Proof.
  revert draws s. induction fuel as [|fuel IHfuel]; simpl; intros draws s H.
  - case_if_hyp H; [done|]. by injection H as <- <-.
  - case_if_hyp H; [|by injection H as <- <-].
    res_inv H. destruct a as [s1 draws1].
    apply IHfuel in H.
    apply snake_step_counters in Ha as [[Hl Hs]|(Hl & Hs & _)]; lia.
Qed.

(** ** The phases of a frame *)

(** The part of the state that belongs to the snake. *)
Definition snake_of (s : state) :=
  (grid_x s, grid_y s, dir_x s, dir_y s, queued_dir s, progress s, x s, y s,
   length_cells s, path s, body s, apple s, score s).

Section phases.
Variable collidepoint : Rect → R → R → bool.
Variable colliderect : Rect → Rect → bool.

Lemma spawn_snake (i : input) (s s' : state) :
  spawn i s = Ok s' → snake_of s' = snake_of s ∧ game_over s' = game_over s.
Proof.
  unfold spawn. intros H. case_if_hyp H.
  - res_inv H. by injection H as <-.
  - by injection H as <-.
Qed.

Lemma move_enemies_snake (dt : R) (s s' : state) :
  move_enemies dt s = Ok s' →
  snake_of s' = snake_of s ∧ game_over s' = game_over s ∧
  bullets s' = bullets s.
Proof. unfold move_enemies. intros H. res_inv H. by injection H as <-. Qed.

Lemma collide_snake (s : state) :
  snake_of (collide collidepoint s) = snake_of s ∧
  game_over (collide collidepoint s) = game_over s.
Proof. unfold collide. by destruct (combat _ _ _). Qed.

Lemma check_head_snake (s : state) :
  snake_of (check_head colliderect s) = snake_of s ∧
  enemies (check_head colliderect s) = enemies s ∧
  bullets (check_head colliderect s) = bullets s ∧
  game_over (check_head colliderect s)
    = game_over s || head_contact colliderect (head_rect s) (enemies s).
Proof.
  unfold check_head. destruct (head_contact _ _ _); simpl.
  - by rewrite orb_true_r.
  - by rewrite orb_false_r.
Qed.

(** A frame is the three phases of the snake, then the projectiles,
    the spawn, the agents, the collision pass and the head check. *)
Lemma frame_phases (i : input) (s s' : state) :
  frame collidepoint colliderect i s = Ok s' →
  ∃ s1 s2 s3 s5 s6,
    handle_events (in_events i) s = Ok s1 ∧
    move_snake (in_dt i) (in_apples i) s1 = Ok s2 ∧
    update_trail s2 = Ok s3 ∧
    spawn i (set_bullets (update_bullets (in_dt i) (bullets s3)) s3) = Ok s5 ∧
    move_enemies (in_dt i) s5 = Ok s6 ∧
    s' = check_head colliderect (collide collidepoint s6).
Proof.
  unfold frame. intros H.
  apply bind_Ok in H as (s1 & H1 & H). apply bind_Ok in H as (s2 & H2 & H).
  apply bind_Ok in H as (s3 & H3 & H). unfold resolve in H.
  apply bind_Ok in H as (s5 & H5 & H).
  apply bind_Ok in H as (s6 & H6 & H). injection H as <-.
  by exists s1, s2, s3, s5, s6.
Qed.

Lemma frame_snake (i : input) (s s' : state) :
  frame collidepoint colliderect i s = Ok s' →
  ∃ s1 s2 s3,
    handle_events (in_events i) s = Ok s1 ∧
    move_snake (in_dt i) (in_apples i) s1 = Ok s2 ∧
    update_trail s2 = Ok s3 ∧
    snake_of s' = snake_of s3.
Proof.
  intros H. apply frame_phases in H
    as (s1 & s2 & s3 & s5 & s6 & H1 & H2 & H3 & H5 & H6 & ->).
  exists s1, s2, s3. split_and!; [done..|].
  destruct (check_head_snake (collide collidepoint s6)) as (-> & _).
  destruct (collide_snake s6) as (-> & _).
  apply move_enemies_snake in H6 as (-> & _).
  apply spawn_snake in H5 as (-> & _). done.
Qed.

Lemma move_snake_counters (dt : R) (draws : list (Z * Z)) (s s' : state) :
  move_snake dt draws s = Ok s' →
  length_cells s' - score s' = length_cells s - score s.
Proof.
  unfold move_snake. intros H. res_inv H. destruct a as [s1 d1].
  injection H as <-. by apply snake_loop_counters in Ha.
Qed.

Lemma update_trail_counters (s s' : state) :
  update_trail s = Ok s' → same_counters s s'.
Proof. unfold update_trail. intros H. res_inv H. by injection H as <-. Qed.

Lemma frame_counters (i : input) (s s' : state) :
  frame collidepoint colliderect i s = Ok s' →
  length_cells s' - score s' = length_cells s - score s.
Proof.
  intros H. apply frame_snake in H as (s1 & s2 & s3 & H1 & H2 & H3 & Hs).
  apply handle_events_counters in H1 as [? ?].
  apply move_snake_counters in H2.
  apply update_trail_counters in H3 as [? ?].
  unfold snake_of in Hs. injection Hs as _ _ _ _ _ _ _ _ Hl _ _ _ Hsc.
  lia.
Qed.

(** C9.  At every frame boundary of the main cycle
    [length_cells = INIT_LEN + score]. *)
Theorem length_is_score (apple0 : Z * Z) (ins : list input) (s : state) :
  run collidepoint colliderect ins (initial_state apple0) = Ok s →
  length_cells s = INIT_LEN + score s.
Proof.
  assert (Hgen : ∀ s0, length_cells s0 = INIT_LEN + score s0 →
    run collidepoint colliderect ins s0 = Ok s →
    length_cells s = INIT_LEN + score s).
  { induction ins as [|i ins IHins]; simpl; intros s0 H0 H.
    - by injection H as <-.
    - res_inv H. apply frame_counters in Ha.
      destruct (game_over a).
      + injection H as <-. lia.
      + apply (IHins a); [lia|done]. }
  apply Hgen. reflexivity.
Qed.

End phases.

(** ** The apple *)

Lemma relocate_apple_fresh (draws draws' : list (Z * Z)) (b : list (Z * Z))
    (a : Z * Z) :
  relocate_apple draws b = Ok (a, draws') → a ∉ b.
Proof.
  induction draws as [|d draws IHd]; simpl; [done|].
  case_bool_decide; [done|]. by intros [= <- <-].
Qed.

(** C10.  The first apple is any cell of the grid, the first cell of the
    snake among them, while an apple placed after eating is never on the
    body. *)
Theorem first_apple_unguarded :
  (∃ apple0, random_cell apple0 ∧
     apple (initial_state apple0) ∈ body (initial_state apple0)) ∧
  (∀ draws draws' s s',
     snake_step draws s = Ok (s', draws') → score s' ≠ score s →
     apple s' ∉ body s').
Proof.
  split.
  - exists (20, 20). split; [reflexivity|]. simpl. apply elem_of_cons. by left.
  - intros draws draws' s s' H Hne.
    apply snake_step_counters in H as [[_ Hs]|(_ & _ & Hfresh)]; done.
Qed.

(** ** Agents stay on their paths *)

(** What the main cycle keeps true of an agent: its cell is in the grid
    and, once a path has been computed, on that path. *)
Record agent_ok (e : Enemy.t) : Prop := {
  agent_cell : in_grid (Enemy.cell e) = true;
  agent_path : ∀ c, c ∈ Enemy.path e → in_grid c = true;
  agent_on_path : Enemy.path e = [] ∨ Enemy.cell e ∈ Enemy.path e
}.

Lemma Enemy_init_ok (kind : nat) (c : Z * Z) (e : Enemy.t) :
  in_grid c = true → Enemy.init kind c = Ok e → agent_ok e ∧ (0 < Enemy.hp e)%Z.
Proof.
  intros Hc. unfold Enemy.init.
  destruct kind as [|[|[|kind]]]; simpl; intros [= <-]; (split; [split|]);
    simpl; try done; try (by left); by intros c' ?%elem_of_nil.
Qed.

Lemma Enemy_init_total (kind : nat) (c : Z * Z) :
  (kind < 3)%nat → ∃ e, Enemy.init kind c = Ok e.
Proof.
  intros Hk. unfold Enemy.init.
  destruct kind as [|[|[|kind]]]; simpl; [eauto..|lia].
Qed.

(** [Enemy.update] returns, and leaves the agent on its path. *)
Lemma Enemy_update_ok (dt : R) (target : Z * Z) (blocked : gset (Z * Z))
    (e : Enemy.t) :
  in_grid target = true → agent_ok e →
  ∃ e', Enemy.update dt target blocked e = Ok e' ∧ agent_ok e' ∧
    Enemy.cell e' ∈ Enemy.path e' ∧ Enemy.hp e' = Enemy.hp e.
Proof.
  intros Ht [Hcell Hpath Hon]. unfold Enemy.update.
  set (timer := (Enemy._repath_timer e - dt)%R).
  assert (He1 : ∃ e1,
    (if bool_decide (timer <= 0)%R || bool_decide (Enemy.path e = []) then
       match Astar.astar (Enemy.cell e) target blocked with
       | None => NoFuel
       | Some p =>
           Ok {| Enemy.name := Enemy.name e; Enemy.hp := Enemy.hp e;
                 Enemy.speed_px := Enemy.speed_px e;
                 Enemy.color := Enemy.color e; Enemy.cell := Enemy.cell e;
                 Enemy.pos := Enemy.pos e; Enemy.path := p;
                 Enemy.next_idx :=
                   if bool_decide (1 < length p)%nat then 1%nat else 0%nat;
                 Enemy._repath_timer := ENEMY_REPATH_EVERY;
                 Enemy.size := Enemy.size e |}
       end
     else
       Ok {| Enemy.name := Enemy.name e; Enemy.hp := Enemy.hp e;
             Enemy.speed_px := Enemy.speed_px e;
             Enemy.color := Enemy.color e; Enemy.cell := Enemy.cell e;
             Enemy.pos := Enemy.pos e; Enemy.path := Enemy.path e;
             Enemy.next_idx := Enemy.next_idx e;
             Enemy._repath_timer := timer; Enemy.size := Enemy.size e |})
    = Ok e1 ∧ agent_ok e1 ∧ Enemy.cell e1 ∈ Enemy.path e1 ∧
      Enemy.hp e1 = Enemy.hp e).
  { destruct (bool_decide (timer <= 0)%R || bool_decide (Enemy.path e = []))
      eqn:Hre.
    - destruct (AstarFacts.astar_path (Enemy.cell e) target blocked Hcell Ht)
        as (p & -> & Hhead & Hgrid).
      eexists. split; [done|].
      assert (Hin : Enemy.cell e ∈ p) by (by apply head_Some_elem_of).
      split_and!; [split; simpl; auto|done..].
    - apply orb_false_iff in Hre as [_ Hne].
      apply bool_decide_eq_false in Hne. destruct Hon as [|Hon]; [done|].
      eexists. split; [done|]. split_and!; [split; simpl; auto|done..]. }
  destruct He1 as (e1 & -> & [Hcell1 Hpath1 Hon1] & Hin1 & Hhp1). simpl.
  destruct (Enemy.path e1 !! Enemy.next_idx e1) as [nxt|] eqn:Hnxt.
  2:{ exists e1. split_and!; [done|by split|done..]. }
  assert (Hnxt_in : nxt ∈ Enemy.path e1) by (by eapply list_elem_of_lookup_2).
  case_bool_decide as Hdist.
  2:{ exists e1. split_and!; [done|by split|done..]. }
  case_bool_decide as Hstep.
  - eexists. split; [done|]. rewrite <- surjective_pairing.
    split_and!; [split; simpl; auto|done..].
  - rewrite !py_div_ok by lra. simpl. eexists. split; [done|].
    split_and!; [split; simpl; auto|done..].
Qed.

Definition on_path (e : Enemy.t) : Prop := Enemy.cell e ∈ Enemy.path e.

Definition alive (e : Enemy.t) : Prop := (0 < Enemy.hp e)%Z.

Lemma update_enemies_ok (dt : R) (target : Z * Z) (blocked : gset (Z * Z))
    (es : list Enemy.t) :
  in_grid target = true → Forall agent_ok es → Forall alive es →
  ∃ es', update_enemies dt target blocked es = Ok es' ∧
    Forall agent_ok es' ∧ Forall on_path es' ∧ Forall alive es'.
Proof.
  intros Ht Hok Hal. induction es as [|e es IHes]; simpl.
  - exists []. by split_and!.
  - apply Forall_cons in Hok as [He Hes]. apply Forall_cons in Hal as [Ha Has].
    destruct (Enemy_update_ok dt target blocked e Ht He)
      as (e' & -> & He' & Hon & Hhp).
    destruct (IHes Hes Has) as (es' & -> & Hes' & Hons & Hals). simpl.
    exists (e' :: es'). split_and!; [done|by constructor..|].
    constructor; [|done]. unfold alive in *. by rewrite Hhp.
Qed.

Lemma move_to_cell_in_grid (xc yc dx dy : Z) (c : Z * Z) :
  move_to_cell xc yc dx dy = Some c → in_grid c = true.
Proof.
  unfold move_to_cell. case_match eqn:Hb; [done|]. intros [= <-].
  apply AstarFacts.in_grid_spec. simpl. lia.
Qed.

(** The head of the snake. *)
Definition head_cell (s : state) : Z * Z := (grid_x s, grid_y s).

Lemma handle_event_world (s s' : state) (ev : event) :
  handle_event s ev = Ok s' →
  head_cell s' = head_cell s ∧ enemies s' = enemies s.
Proof.
  destruct ev as [|k|button mouse|]; simpl; intros H; try discriminate.
  - case_if_hyp H; injection H as <-; done.
  - case_if_hyp H.
    + res_inv H. injection H as <-. done.
    + injection H as <-. done.
  - injection H as <-. done.
Qed.

Lemma handle_events_world (evs : list event) (s s' : state) :
  handle_events evs s = Ok s' →
  head_cell s' = head_cell s ∧ enemies s' = enemies s.
Proof.
  revert s. induction evs as [|ev evs IHevs]; simpl; intros s H.
  - injection H as <-. done.
  - res_inv H. apply handle_event_world in Ha as [Ha1 Ha2].
    apply IHevs in H as [-> ->]. done.
Qed.

Lemma snake_step_world (draws draws' : list (Z * Z)) (s s' : state) :
  snake_step draws s = Ok (s', draws') → in_grid (head_cell s) = true →
  in_grid (head_cell s') = true ∧ enemies s' = enemies s.
Proof.
  unfold snake_step. intros H Hin.
  destruct (apply_queued_fields (set_progress (progress s - 1) s))
    as (_ & _ & _ & Hx & Hy & He & _).
  simpl in Hx, Hy, He.
  set (s1 := apply_queued (set_progress (progress s - 1) s)) in *.
  destruct (move_to_cell _ _ _ _) as [new_cell|] eqn:Hmove.
  2:{ injection H as <- <-. unfold head_cell in *. simpl.
      by rewrite Hx, Hy, He. }
  apply move_to_cell_in_grid in Hmove.
  case_if_hyp H.
  { injection H as <- <-. unfold head_cell. simpl.
    by rewrite <- surjective_pairing. }
  res_inv H. simpl in H. case_if_hyp H.
  - res_inv H. destruct a0 as [ap dr]. injection H as <- <-.
    unfold head_cell. simpl. by rewrite <- surjective_pairing.
  - injection H as <- <-. unfold head_cell. simpl.
    by rewrite <- surjective_pairing.
Qed.

Lemma snake_loop_world (fuel : nat) (draws draws' : list (Z * Z))
    (s s' : state) :
  snake_loop fuel draws s = Ok (s', draws') → in_grid (head_cell s) = true →
  in_grid (head_cell s') = true ∧ enemies s' = enemies s.
Proof.
  revert draws s. induction fuel as [|fuel IHfuel]; simpl; intros draws s H Hin.
  - case_if_hyp H; [done|]. by injection H as <- <-.
  - case_if_hyp H; [|by injection H as <- <-].
    res_inv H. destruct a as [s1 draws1].
    apply snake_step_world in Ha as [Hin1 <-]; [|done]. by apply IHfuel in H.
Qed.

Lemma move_snake_world (dt : R) (draws : list (Z * Z)) (s s' : state) :
  move_snake dt draws s = Ok s' → in_grid (head_cell s) = true →
  in_grid (head_cell s') = true ∧ enemies s' = enemies s.
Proof.
  unfold move_snake. intros H Hin. res_inv H. destruct a as [s1 d1].
  injection H as <-. by apply snake_loop_world in Ha.
Qed.

Lemma update_trail_world (s s' : state) :
  update_trail s = Ok s' →
  head_cell s' = head_cell s ∧ enemies s' = enemies s.
Proof. unfold update_trail. intros H. res_inv H. by injection H as <-. Qed.

(** What the main cycle keeps true of the world: the head is in the
    grid, and every agent is alive, in the grid and, once it has a path,
    on it. *)
Record world_ok (s : state) : Prop := {
  world_head : in_grid (head_cell s) = true;
  world_agents : Forall agent_ok (enemies s);
  world_alive : Forall alive (enemies s)
}.

(** The draws of the generator that a frame uses for the spawn. *)
Definition spawn_draws_ok (i : input) : Prop :=
  (0 ≤ in_coord i < CELLS)%Z ∧ (in_kind i < 3)%nat.

Section agents.
Variable collidepoint : Rect → R → R → bool.
Variable colliderect : Rect → Rect → bool.

Lemma damage_ok (e : Enemy.t) :
  (agent_ok e → agent_ok (damage e)) ∧ (on_path e → on_path (damage e)).
Proof. split; [intros [? ? ?]; by split|done]. Qed.

(** What the first hit does to the agents: the one that is hit loses a
    point of [hp] and, at zero, its place. *)
Lemma strike_spec (bx by_ : R) (es es' : list Enemy.t) :
  strike collidepoint bx by_ es = Some es' →
  ∃ l1 e l2, es = l1 ++ e :: l2 ∧
    Forall (λ e0, collidepoint (Enemy.rect e0) bx by_ = false) l1 ∧
    collidepoint (Enemy.rect e) bx by_ = true ∧
    es' = l1 ++ (if bool_decide (Enemy.hp e - 1 ≤ 0)%Z then []
                 else [damage e]) ++ l2.
Proof.
  revert es'. induction es as [|e es IHes]; simpl; intros es' H; [done|].
  destruct (collidepoint (Enemy.rect e) bx by_) eqn:Hc.
  - injection H as <-. exists [], e, es. split_and!; [done..|].
    simpl. by case_bool_decide.
  - destruct (strike collidepoint bx by_ es) as [es1|]; [|done].
    injection H as <-.
    destruct (IHes es1 eq_refl) as (l1 & e1 & l2 & -> & Hl1 & He1 & ->).
    exists (e :: l1), e1, l2. split_and!; [done|by constructor|done..].
Qed.

Lemma strike_Forall (P : Enemy.t → Prop) (bx by_ : R)
    (es es' : list Enemy.t) :
  (∀ e, P e → ¬ (Enemy.hp e - 1 ≤ 0)%Z → P (damage e)) →
  strike collidepoint bx by_ es = Some es' → Forall P es → Forall P es'.
Proof.
  intros HP H Hes.
  apply strike_spec in H as (l1 & e & l2 & -> & _ & _ & ->).
  apply Forall_app in Hes as [H1 [He H2]%Forall_cons].
  apply Forall_app. split; [done|]. apply Forall_app. split; [|done].
  case_bool_decide; constructor; [by apply HP|constructor].
Qed.

Lemma combat_bullet_Forall (P : Enemy.t → Prop) (b : Bullet.t)
    (es : list Enemy.t) :
  (∀ e, P e → ¬ (Enemy.hp e - 1 ≤ 0)%Z → P (damage e)) →
  Forall P es → Forall P (combat_bullet collidepoint b es).2.
Proof.
  intros HP Hes. unfold combat_bullet. destruct (Bullet.hit b); [done|].
  destruct (strike _ _ _ _) as [es'|] eqn:Hs; [|done].
  by apply (strike_Forall P) in Hs.
Qed.

Lemma combat_Forall (P : Enemy.t → Prop) (bs : list Bullet.t)
    (es : list Enemy.t) :
  (∀ e, P e → ¬ (Enemy.hp e - 1 ≤ 0)%Z → P (damage e)) →
  Forall P es → Forall P (combat collidepoint bs es).2.
Proof.
  intros HP. revert es. induction bs as [|b bs IHbs]; simpl; intros es Hes;
    [done|].
  pose proof (combat_bullet_Forall P b es HP Hes) as Hb.
  destruct (combat_bullet collidepoint b es) as [b' es1]. simpl in Hb.
  specialize (IHbs es1 Hb).
  destruct (combat collidepoint bs es1) as [bs' es2]. done.
Qed.

Lemma collide_enemies (s : state) :
  enemies (collide collidepoint s)
  = (combat collidepoint (bullets s) (enemies s)).2.
Proof. unfold collide. by destruct (combat _ _ _). Qed.

(** The second half of a frame returns and keeps the world in order;
    at its end every agent is on its path. *)
Lemma resolve_ok (i : input) (s : state) :
  world_ok s → spawn_draws_ok i →
  ∃ s', resolve collidepoint colliderect i s = Ok s' ∧
    world_ok s' ∧ Forall on_path (enemies s') ∧ snake_of s' = snake_of s.
Proof.
  intros [Hhead Hag Hal] [Hdraw Hkind]. unfold resolve.
  set (s4 := set_bullets (update_bullets (in_dt i) (bullets s)) s).
  assert (H5 : ∃ s5, spawn i s4 = Ok s5 ∧ snake_of s5 = snake_of s ∧
    Forall agent_ok (enemies s5) ∧ Forall alive (enemies s5)).
  { unfold spawn. case_match.
    - unfold spawn_enemy.
      set (c := match in_side i with
                | side_top => (in_coord i, 0%Z)
                | side_bottom => (in_coord i, (CELLS - 1)%Z)
                | side_left => (0%Z, in_coord i)
                | side_right => ((CELLS - 1)%Z, in_coord i)
                end).
      assert (Hc : in_grid c = true).
      { apply AstarFacts.in_grid_spec.
        unfold c. change CELLS with 40%Z in *.
        destruct (in_side i); simpl; lia. }
      destruct (Enemy_init_total (in_kind i) c Hkind) as [e He].
      rewrite He. destruct (Enemy_init_ok _ _ _ Hc He) as [Hok Hhp].
      simpl. eexists. split; [done|]. simpl.
      split_and!; [done|apply Forall_app|apply Forall_app];
        (split; [done|by constructor]).
    - eexists. by split_and!. }
  destruct H5 as (s5 & -> & Hsn5 & Hag5 & Hal5). simpl.
  assert (Hhead5 : in_grid (head_cell s5) = true).
  { unfold snake_of in Hsn5. unfold head_cell in *.
    injection Hsn5 as -> -> _. done. }
  unfold move_enemies.
  destruct (update_enemies_ok (in_dt i) (grid_x s5, grid_y s5)
              (list_to_set (body s5)) (enemies s5) Hhead5 Hag5 Hal5)
    as (es & -> & Hag6 & Hon6 & Hal6).
  simpl. eexists. split; [done|].
  destruct (check_head_snake colliderect
              (collide collidepoint (set_enemies es s5))) as (Hsn & Hen & _).
  destruct (collide_snake collidepoint (set_enemies es s5)) as (Hsn' & _).
  rewrite Hen, collide_enemies. simpl.
  split_and!.
  - split.
    + unfold head_cell in *. unfold snake_of in Hsn, Hsn'.
      injection Hsn as -> -> _. injection Hsn' as -> -> _. done.
    + rewrite Hen, collide_enemies. simpl.
      apply combat_Forall; [|done]. intros e He _. by apply damage_ok.
    + rewrite Hen, collide_enemies. simpl.
      apply combat_Forall; [|done]. unfold alive. simpl. intros e He Hn. lia.
  - apply combat_Forall; [|done]. intros e He _. by apply damage_ok.
  - by rewrite Hsn, Hsn'.
Qed.

End agents.

(** The steps of the snake leave the agents alone. *)
Lemma snake_step_enemies (draws draws' : list (Z * Z)) (s s' : state) :
  snake_step draws s = Ok (s', draws') → enemies s' = enemies s.
Proof.
  unfold snake_step. intros H.
  destruct (apply_queued_fields (set_progress (progress s - 1) s))
    as (_ & _ & _ & _ & _ & He & _).
  simpl in He.
  destruct (move_to_cell _ _ _ _); [|by injection H as <- _].
  case_if_hyp H; [by injection H as <- _|].
  res_inv H. simpl in H. case_if_hyp H.
  - res_inv H. destruct a0. by injection H as <- _.
  - by injection H as <- _.
Qed.

Lemma snake_loop_enemies (fuel : nat) (draws draws' : list (Z * Z))
    (s s' : state) :
  snake_loop fuel draws s = Ok (s', draws') → enemies s' = enemies s.
Proof.
  revert draws s. induction fuel as [|fuel IHfuel]; simpl; intros draws s H.
  - case_if_hyp H; [done|]. by injection H as <- _.
  - case_if_hyp H; [|by injection H as <- _].
    res_inv H. destruct a as [s1 draws1].
    apply snake_step_enemies in Ha. apply IHfuel in H. congruence.
Qed.

Lemma move_snake_enemies (dt : R) (draws : list (Z * Z)) (s s' : state) :
  move_snake dt draws s = Ok s' → enemies s' = enemies s.
Proof.
  unfold move_snake. intros H. res_inv H. destruct a as [s1 d1].
  injection H as <-. by apply snake_loop_enemies in Ha.
Qed.

(** The pixel centre of a cell:
    [(cx*SIZE + SIZE/2, cy*SIZE + SIZE/2)]. *)
Definition centre (c : Z * Z) : pt :=
  (IZR (c.1 * SIZE) + IZR SIZE / 2, IZR (c.2 * SIZE) + IZR SIZE / 2)%R.

(** The agent has been put on a node of its path: it stands at the
    centre of its cell, and its cell is the node that [next_idx] has
    just passed. *)
Definition snapped (e : Enemy.t) : Prop :=
  Enemy.pos e = centre (Enemy.cell e) ∧
  ∃ k, Enemy.next_idx e = S k ∧ Enemy.path e !! k = Some (Enemy.cell e).

(** [Enemy.update] assigns to [cell] in one branch only, the one in
    which the step reaches the next node; there the agent is put at
    the centre of that node. *)
Lemma Enemy_update_snaps (dt : R) (target : Z * Z) (blocked : gset (Z * Z))
    (e e' : Enemy.t) :
  Enemy.update dt target blocked e = Ok e' →
  Enemy.cell e' = Enemy.cell e ∨
  (snapped e' ∧
   (hypot ((centre (Enemy.cell e')).1 - (Enemy.pos e).1)
          ((centre (Enemy.cell e')).2 - (Enemy.pos e).2)
    <= IZR (Enemy.speed_px e) * dt)%R).
Proof.
  unfold Enemy.update. intros H. res_inv H.
  assert (Ha' : Enemy.cell a = Enemy.cell e ∧ Enemy.pos a = Enemy.pos e ∧
                Enemy.speed_px a = Enemy.speed_px e).
  { case_if_hyp Ha.
    - destruct (Astar.astar _ _ _); [|done]. by injection Ha as <-.
    - by injection Ha as <-. }
  destruct Ha' as (<- & <- & <-). clear Ha.
  destruct (Enemy.path a !! Enemy.next_idx a) as [nxt|] eqn:Hnxt;
    [|injection H as <-; by left].
  cbn zeta in H. case_bool_decide as Hdist; [|injection H as <-; by left].
  case_bool_decide as Hstep.
  - injection H as <-. right. unfold snapped, centre. simpl.
    rewrite <- surjective_pairing. split; [split; [done|]|].
    + exists (Enemy.next_idx a). by split.
    + simpl in Hstep. lra.
  - res_inv H. res_inv H. injection H as <-. by left.
Qed.

Lemma Enemy_init_centre (kind : nat) (c : Z * Z) (e : Enemy.t) :
  Enemy.init kind c = Ok e → Enemy.cell e = c ∧ Enemy.pos e = centre c.
Proof.
  unfold Enemy.init.
  destruct (Enemy.TYPES !! kind) as [[[[nm h] spd] col]|]; [|done].
  by intros [= <-].
Qed.

Lemma update_enemies_each (dt : R) (target : Z * Z) (blocked : gset (Z * Z))
    (es es' : list Enemy.t) :
  update_enemies dt target blocked es = Ok es' →
  Forall2 (λ e e', Enemy.update dt target blocked e = Ok e') es es'.
Proof.
  revert es'. induction es as [|e es IHes]; simpl; intros es' H.
  - injection H as <-. constructor.
  - res_inv H. res_inv H. injection H as <-. constructor; [done|by apply IHes].
Qed.

(** What the collision pass leaves of an agent: where it is. *)
Definition same_place (e e' : Enemy.t) : Prop :=
  Enemy.cell e' = Enemy.cell e ∧ Enemy.pos e' = Enemy.pos e ∧
  Enemy.path e' = Enemy.path e ∧ Enemy.next_idx e' = Enemy.next_idx e.

Section agents_on_paths.
Variable collidepoint : Rect → R → R → bool.
Variable colliderect : Rect → Rect → bool.

Lemma frame_world (i : input) (s s' : state) :
  world_ok s → spawn_draws_ok i →
  frame collidepoint colliderect i s = Ok s' →
  world_ok s' ∧ Forall on_path (enemies s').
Proof.
  intros [Hhead Hag Hal] Hdraw H. unfold frame in H.
  apply bind_Ok in H as (s1 & H1 & H). apply bind_Ok in H as (s2 & H2 & H).
  apply bind_Ok in H as (s3 & H3 & H).
  apply handle_events_world in H1 as [Hh1 He1].
  apply move_snake_world in H2 as [Hh2 He2]; [|by rewrite Hh1].
  apply update_trail_world in H3 as [Hh3 He3].
  assert (Hok3 : world_ok s3).
  { split; [by rewrite Hh3|by rewrite He3, He2, He1..]. }
  destruct (resolve_ok collidepoint colliderect i s3 Hok3 Hdraw)
    as (s'' & Hres & Hok & Hon & _).
  rewrite Hres in H. by injection H as <-.
Qed.

Lemma initial_world (apple0 : Z * Z) : world_ok (initial_state apple0).
Proof. split; [reflexivity|constructor..]. Qed.

Lemma combat_same_place (bs : list Bullet.t) (es : list Enemy.t)
    (e' : Enemy.t) :
  e' ∈ (combat collidepoint bs es).2 → ∃ e, e ∈ es ∧ same_place e e'.
Proof.
  assert (Hall : Forall (λ e', ∃ e, e ∈ es ∧ same_place e e')
                   (combat collidepoint bs es).2).
  { apply combat_Forall.
    - intros e1 (e & He & Hp1 & Hp2 & Hp3 & Hp4) _. exists e. by split.
    - apply Forall_forall. intros e He. exists e. by split. }
  rewrite Forall_forall in Hall. apply Hall.
Qed.

(** From one frame boundary to the next: an agent is one of the last
    boundary, or the one spawned in this frame at the centre of its
    cell, and either it is still in the cell it had or [Enemy.update]
    has put it on a node of its path. *)
Lemma frame_agents (i : input) (s s' : state) (e' : Enemy.t) :
  frame collidepoint colliderect i s = Ok s' → e' ∈ enemies s' →
  ∃ e,
    (e ∈ enemies s ∨
     (spawn_enemy (in_side i) (in_coord i) (in_kind i) = Ok e ∧
      Enemy.pos e = centre (Enemy.cell e))) ∧
    (Enemy.cell e' = Enemy.cell e ∨ snapped e').
Proof.
  intros H He'. apply frame_phases in H
    as (s1 & s2 & s3 & s5 & s6 & H1 & H2 & H3 & H5 & H6 & ->).
  destruct (check_head_snake colliderect (collide collidepoint s6))
    as (_ & Hen & _).
  rewrite Hen, collide_enemies in He'.
  apply combat_same_place in He' as (e6 & He6 & Hc & Hp & Hpath & Hidx).
  unfold move_enemies in H6. apply bind_Ok in H6 as (es6 & Hup & H6).
  injection H6 as <-. simpl in He6.
  apply update_enemies_each in Hup.
  apply list_elem_of_lookup in He6 as [k Hk].
  destruct (Forall2_lookup_r _ _ _ _ _ Hup Hk) as (e5 & Hk5 & Hupd).
  apply list_elem_of_lookup_2 in Hk5.
  assert (Hfrom : e5 ∈ enemies s ∨
    (spawn_enemy (in_side i) (in_coord i) (in_kind i) = Ok e5 ∧
     Enemy.pos e5 = centre (Enemy.cell e5))).
  { apply handle_events_world in H1 as [_ He1].
    apply move_snake_enemies in H2 as He2.
    apply update_trail_world in H3 as [_ He3].
    unfold spawn in H5. case_if_hyp H5.
    - apply bind_Ok in H5 as (e0 & Hinit & H5). injection H5 as <-.
      simpl in Hk5. apply elem_of_app in Hk5 as [Hk5|Hk5].
      + left. by rewrite <- He1, <- He2, <- He3.
      + apply list_elem_of_singleton in Hk5 as ->. right. split; [done|].
        unfold spawn_enemy in Hinit.
        apply Enemy_init_centre in Hinit as [-> ->]. done.
    - injection H5 as <-. simpl in Hk5. left.
      by rewrite <- He1, <- He2, <- He3. }
  exists e5. split; [done|].
  apply Enemy_update_snaps in Hupd as [Hcell|[[Hpos (j & Hj & Hnode)] _]].
  - left. by rewrite Hc.
  - right. split; [by rewrite Hp, Hc|]. exists j. by rewrite Hidx, Hpath, Hc.
Qed.

(** C5.  At every frame boundary of the main cycle, the cell of every
    live agent is a member of the path of that agent.  The cell is
    never one the agent has not arrived at: over the next frame every
    agent is one of this boundary or the one spawned at the centre of
    its cell, and it keeps the cell it had unless [Enemy.update] has
    put it on a node of its path, at the centre of that node; and a
    call of [Enemy.update] changes the cell only in that way, when the
    step of the frame reaches the centre of the node. *)
Theorem agent_cell_on_path (apple0 : Z * Z) (ins : list input) (s : state) :
  Forall spawn_draws_ok ins →
  run collidepoint colliderect ins (initial_state apple0) = Ok s →
  (∀ e, e ∈ enemies s → Enemy.cell e ∈ Enemy.path e) ∧
  (∀ i s' e', frame collidepoint colliderect i s = Ok s' → e' ∈ enemies s' →
     ∃ e,
       (e ∈ enemies s ∨
        (spawn_enemy (in_side i) (in_coord i) (in_kind i) = Ok e ∧
         Enemy.pos e = centre (Enemy.cell e))) ∧
       (Enemy.cell e' = Enemy.cell e ∨ snapped e')) ∧
  (∀ dt target blocked e e', Enemy.update dt target blocked e = Ok e' →
     Enemy.cell e' = Enemy.cell e ∨
     (snapped e' ∧
      (hypot ((centre (Enemy.cell e')).1 - (Enemy.pos e).1)
             ((centre (Enemy.cell e')).2 - (Enemy.pos e).2)
       <= IZR (Enemy.speed_px e) * dt)%R)).
Proof.
  intros Hins Hrun.
  assert (Hgen : ∀ s0, world_ok s0 → Forall on_path (enemies s0) →
    run collidepoint colliderect ins s0 = Ok s →
    Forall on_path (enemies s)).
  { clear Hrun. induction ins as [|i ins IHins]; simpl; intros s0 H0 Hon H.
    - by injection H as <-.
    - apply Forall_cons in Hins as [Hi Hins]. res_inv H.
      destruct (frame_world i s0 a H0 Hi Ha) as [Hok Hon'].
      destruct (game_over a).
      + by injection H as <-.
      + by apply (IHins Hins a). }
  split_and!.
  - intros e He.
    specialize (Hgen _ (initial_world apple0) (Forall_nil_2 _) Hrun).
    rewrite Forall_forall in Hgen. by apply Hgen.
  - intros i s' e'. apply frame_agents.
  - intros dt target blocked e e'. apply Enemy_update_snaps.
Qed.

End agents_on_paths.

(** ** The collision pass *)

Lemma Enemy_init_alive (kind : nat) (c : Z * Z) (e : Enemy.t) :
  Enemy.init kind c = Ok e → alive e.
Proof.
  unfold Enemy.init, alive.
  destruct kind as [|[|[|kind]]]; simpl; intros [= <-]; simpl; lia.
Qed.

Lemma Enemy_update_hp (dt : R) (target : Z * Z) (blocked : gset (Z * Z))
    (e e' : Enemy.t) :
  Enemy.update dt target blocked e = Ok e' → Enemy.hp e' = Enemy.hp e.
Proof.
  unfold Enemy.update. intros H. res_inv H.
  assert (Hhp : Enemy.hp a = Enemy.hp e).
  { case_if_hyp Ha.
    - destruct (Astar.astar _ _ _); [|done]. by injection Ha as <-.
    - by injection Ha as <-. }
  rewrite <- Hhp. clear Ha Hhp.
  destruct (Enemy.path a !! Enemy.next_idx a) as [nxt|]; [|by injection H as <-].
  repeat case_if_hyp H; try (by injection H as <-).
  res_inv H. res_inv H. by injection H as <-.
Qed.

Lemma update_enemies_alive (dt : R) (target : Z * Z) (blocked : gset (Z * Z))
    (es es' : list Enemy.t) :
  update_enemies dt target blocked es = Ok es' →
  Forall alive es → Forall alive es'.
Proof.
  revert es'. induction es as [|e es IHes]; simpl; intros es' H Hal.
  - by injection H as <-.
  - res_inv H. res_inv H. injection H as <-.
    apply Forall_cons in Hal as [He Hes].
    constructor; [|by apply IHes].
    unfold alive in *. by rewrite (Enemy_update_hp _ _ _ _ _ Ha).
Qed.

(** The sum of the [hp] of the agents. *)
Definition total_hp (es : list Enemy.t) : Z :=
  foldr (λ e acc, Enemy.hp e + acc)%Z 0%Z es.

Lemma total_hp_app (l1 l2 : list Enemy.t) :
  total_hp (l1 ++ l2) = (total_hp l1 + total_hp l2)%Z.
Proof. induction l1 as [|e l1 IH]; simpl; lia. Qed.

Section combat.
Variable collidepoint : Rect → R → R → bool.
Variable colliderect : Rect → Rect → bool.

(** A hit takes exactly one point of [hp] from the agents. *)
Lemma strike_total_hp (bx by_ : R) (es es' : list Enemy.t) :
  Forall alive es → strike collidepoint bx by_ es = Some es' →
  total_hp es' = (total_hp es - 1)%Z.
Proof.
  intros Hal H. apply strike_spec in H as (l1 & e & l2 & -> & _ & _ & ->).
  apply Forall_app in Hal as [_ [He _]%Forall_cons]. unfold alive in He.
  rewrite !total_hp_app. case_bool_decide; simpl; lia.
Qed.

Lemma combat_bullet_hit (b : Bullet.t) (es : list Enemy.t) :
  Bullet.hit b = true → combat_bullet collidepoint b es = (b, es).
Proof. intros Hb. unfold combat_bullet. by rewrite Hb. Qed.

Lemma combat_bullet_damage (b : Bullet.t) (es : list Enemy.t) :
  Forall alive es → Bullet.hit b = false →
  (combat_bullet collidepoint b es = (b, es)) ∨
  (Bullet.hit (combat_bullet collidepoint b es).1 = true ∧
   total_hp (combat_bullet collidepoint b es).2 = (total_hp es - 1)%Z).
Proof.
  intros Hal Hb. unfold combat_bullet. rewrite Hb.
  destruct (strike _ _ _ _) as [es'|] eqn:Hs; [|by left].
  right. simpl. split; [done|]. by apply (strike_total_hp _ _ es es' Hal Hs).
Qed.

Lemma update_bullet_hit (dt : R) (b b' : Bullet.t) :
  update_bullet dt b = Some b' → Bullet.hit b' = Bullet.hit b.
Proof.
  unfold update_bullet. intros H.
  repeat case_if_hyp H; try discriminate; by injection H as <-.
Qed.

(** The life of one projectile: in every frame it is first moved by
    the update pass and, unless that pass removes it, then meets the
    agents of that frame in the collision pass.  [damage_dealt] adds up
    the [hp] that the agents lose to it. *)
Fixpoint damage_dealt (b : Bullet.t) (frames : list (R * list Enemy.t)) : Z :=
  match frames with
  | [] => 0
  | (dt, es) :: frames' =>
      match update_bullet dt b with
      | None => 0
      | Some b1 =>
          let '(b2, es') := combat_bullet collidepoint b1 es in
          (total_hp es - total_hp es') + damage_dealt b2 frames'
      end
  end%Z.

Lemma damage_dealt_bound (b : Bullet.t) (frames : list (R * list Enemy.t)) :
  Forall (λ f, Forall alive f.2) frames →
  (0 ≤ damage_dealt b frames ≤ if Bullet.hit b then 0 else 1)%Z.
Proof.
  revert b. induction frames as [|[dt es] frames IHf]; intros b Hal; simpl.
  - destruct (Bullet.hit b); lia.
  - apply Forall_cons in Hal as [Hes Hal]. simpl in Hes.
    destruct (update_bullet dt b) as [b1|] eqn:Hup;
      [|destruct (Bullet.hit b); lia].
    apply update_bullet_hit in Hup. rewrite <- Hup.
    destruct (Bullet.hit b1) eqn:Hb1.
    + rewrite combat_bullet_hit by done.
      specialize (IHf b1 Hal). rewrite Hb1 in IHf. lia.
    + destruct (combat_bullet_damage b1 es Hes Hb1) as [->|[Hh Hd]].
      * specialize (IHf b1 Hal). rewrite Hb1 in IHf. lia.
      * destruct (combat_bullet collidepoint b1 es) as [b2 es'].
        simpl in Hh, Hd. specialize (IHf b2 Hal). rewrite Hh in IHf. lia.
Qed.

(** C7.  Over its whole life a projectile takes at most one point of
    [hp] from the agents, and none once it is marked hit: the
    collision pass leaves a hit projectile and the agents as they
    are. *)
Theorem projectile_single_hit (b : Bullet.t)
    (frames : list (R * list Enemy.t)) :
  Forall (λ f, Forall alive f.2) frames →
  (0 ≤ damage_dealt b frames ≤ 1)%Z ∧
  (Bullet.hit b = true →
   damage_dealt b frames = 0%Z ∧
   ∀ es, combat_bullet collidepoint b es = (b, es)).
Proof.
  intros Hal. pose proof (damage_dealt_bound b frames Hal) as Hb. split.
  - destruct (Bullet.hit b); lia.
  - intros Hhit. rewrite Hhit in Hb. split; [lia|].
    intros es. by apply combat_bullet_hit.
Qed.

Lemma head_rect_snake (s1 s2 : state) :
  snake_of s1 = snake_of s2 → head_rect s1 = head_rect s2.
Proof.
  unfold snake_of, head_rect. intros H.
  injection H as _ _ _ _ _ _ -> -> _. done.
Qed.

(** What the collision pass does with one projectile, read off the
    loop: a projectile that is already hit is skipped; one that no
    agent contains is left as it is; otherwise the first agent that
    contains it loses a point of [hp] and, when that takes it to zero
    or below, is removed from [enemies] there and then, and the
    projectile is marked hit. *)
Inductive shot_outcome (b : Bullet.t) (es : list Enemy.t)
    : Bullet.t → list Enemy.t → Prop :=
| outcome_spent :
    Bullet.hit b = true → shot_outcome b es b es
| outcome_miss :
    Bullet.hit b = false →
    Forall (λ e, collidepoint (Enemy.rect e) (Bullet.pos b).1 (Bullet.pos b).2
                 = false) es →
    shot_outcome b es b es
| outcome_wound (l1 l2 : list Enemy.t) (e : Enemy.t) :
    Bullet.hit b = false → es = l1 ++ e :: l2 →
    Forall (λ e0, collidepoint (Enemy.rect e0) (Bullet.pos b).1
                    (Bullet.pos b).2 = false) l1 →
    collidepoint (Enemy.rect e) (Bullet.pos b).1 (Bullet.pos b).2 = true →
    (0 < Enemy.hp e - 1)%Z →
    shot_outcome b es (mark_hit b) (l1 ++ damage e :: l2)
| outcome_kill (l1 l2 : list Enemy.t) (e : Enemy.t) :
    Bullet.hit b = false → es = l1 ++ e :: l2 →
    Forall (λ e0, collidepoint (Enemy.rect e0) (Bullet.pos b).1
                    (Bullet.pos b).2 = false) l1 →
    collidepoint (Enemy.rect e) (Bullet.pos b).1 (Bullet.pos b).2 = true →
    (Enemy.hp e - 1 ≤ 0)%Z →
    shot_outcome b es (mark_hit b) (l1 ++ l2).

(** The pass over the projectiles, each meeting the agents that the
    ones before it have left. *)
Inductive pass_outcome
    : list Bullet.t → list Enemy.t → list Bullet.t → list Enemy.t → Prop :=
| pass_nil (es : list Enemy.t) : pass_outcome [] es [] es
| pass_cons (b b' : Bullet.t) (bs bs' : list Bullet.t)
    (es es1 es2 : list Enemy.t) :
    shot_outcome b es b' es1 → pass_outcome bs es1 bs' es2 →
    pass_outcome (b :: bs) es (b' :: bs') es2.

Lemma strike_none (bx by_ : R) (es : list Enemy.t) :
  strike collidepoint bx by_ es = None →
  Forall (λ e, collidepoint (Enemy.rect e) bx by_ = false) es.
Proof.
  induction es as [|e es IHes]; simpl; intros H; [constructor|].
  destruct (collidepoint (Enemy.rect e) bx by_) eqn:Hc; [done|].
  destruct (strike collidepoint bx by_ es); [done|]. constructor; auto.
Qed.

Lemma combat_bullet_outcome (b : Bullet.t) (es : list Enemy.t) :
  shot_outcome b es (combat_bullet collidepoint b es).1
    (combat_bullet collidepoint b es).2.
Proof.
  unfold combat_bullet. destruct (Bullet.hit b) eqn:Hhit.
  { by apply outcome_spent. }
  destruct (strike _ _ _ _) as [es'|] eqn:Hs; simpl.
  - apply strike_spec in Hs as (l1 & e & l2 & -> & Hl1 & He & ->).
    case_bool_decide as Hhp; simpl.
    + by apply (outcome_kill b _ l1 l2 e).
    + apply (outcome_wound b _ l1 l2 e); try done. lia.
  - apply outcome_miss; [done|]. by apply strike_none.
Qed.

Lemma combat_outcome (bs : list Bullet.t) (es : list Enemy.t) :
  pass_outcome bs es (combat collidepoint bs es).1
    (combat collidepoint bs es).2.
Proof.
  revert es. induction bs as [|b bs IHbs]; simpl; intros es; [constructor|].
  pose proof (combat_bullet_outcome b es) as Hb.
  destruct (combat_bullet collidepoint b es) as [b' es1]. simpl in Hb.
  specialize (IHbs es1).
  destruct (combat collidepoint bs es1) as [bs' es2]. simpl in *.
  by apply (pass_cons b b' bs bs' es es1 es2).
Qed.

(** C6.  A frame goes through its phases in this order: the events,
    the move of the snake, the trail, the projectiles and the spawn,
    the agents, then the collision pass on the projectiles and agents
    that these have left, and last the head check.  In the collision
    pass an agent whose [hp] a projectile takes to zero is removed at
    once.  The head check tests the agents that the pass has left, all
    of them alive, and only they, besides what the move of the snake
    has decided, can set [game_over]: an agent that a projectile has
    destroyed in this frame cannot. *)
Theorem kill_precedes_head_contact (i : input) (s s' : state) :
  Forall alive (enemies s) →
  frame collidepoint colliderect i s = Ok s' →
  ∃ s1 s2 s3 s5 s6,
    handle_events (in_events i) s = Ok s1 ∧
    move_snake (in_dt i) (in_apples i) s1 = Ok s2 ∧
    update_trail s2 = Ok s3 ∧
    spawn i (set_bullets (update_bullets (in_dt i) (bullets s3)) s3) = Ok s5 ∧
    move_enemies (in_dt i) s5 = Ok s6 ∧
    pass_outcome (bullets s6) (enemies s6) (bullets s') (enemies s') ∧
    Forall alive (enemies s') ∧
    game_over s'
    = game_over s2 || head_contact colliderect (head_rect s3) (enemies s') ∧
    (game_over s' = true →
     game_over s2 = true ∨
     ∃ e, e ∈ enemies s' ∧ alive e ∧
       colliderect (Enemy.rect e) (head_rect s3) = true).
Proof.
  intros Hal H.
  apply frame_phases in H
    as (s1 & s2 & s3 & s5 & s6 & H1 & H2 & H3 & H5 & H6 & ->).
  exists s1, s2, s3, s5, s6.
  destruct (check_head_snake colliderect (collide collidepoint s6))
    as (Hsn & Hen & Hbu & Hgo).
  destruct (collide_snake collidepoint s6) as (Hsn' & Hgo').
  assert (Hal6 : Forall alive (enemies s6)).
  { apply handle_events_world in H1 as [_ He1].
    apply move_snake_enemies in H2 as He2.
    apply update_trail_world in H3 as [_ He3].
    assert (Hal3 : Forall alive (enemies s3)) by (by rewrite He3, He2, He1).
    unfold move_enemies in H6. apply bind_Ok in H6 as (es6 & Hup & H6).
    injection H6 as <-. simpl.
    apply (update_enemies_alive _ _ _ _ _ Hup).
    unfold spawn in H5. case_if_hyp H5.
    - apply bind_Ok in H5 as (e & Hinit & H5). injection H5 as <-. simpl.
      apply Forall_app. split; [done|]. constructor; [|done].
      unfold spawn_enemy in Hinit. by apply Enemy_init_alive in Hinit.
    - by injection H5 as <-. }
  assert (Hbs : bullets (collide collidepoint s6)
                = (combat collidepoint (bullets s6) (enemies s6)).1).
  { unfold collide. by destruct (combat _ _ _). }
  assert (Hal' : Forall alive (enemies (check_head colliderect
                                          (collide collidepoint s6)))).
  { rewrite Hen, collide_enemies. apply combat_Forall; [|done].
    unfold alive. simpl. intros e He Hn. lia. }
  assert (Hhead : head_rect (collide collidepoint s6) = head_rect s3).
  { apply head_rect_snake. rewrite Hsn'.
    apply move_enemies_snake in H6 as (-> & _).
    by apply spawn_snake in H5 as (-> & _). }
  assert (Hgo2 : game_over s6 = game_over s2).
  { apply move_enemies_snake in H6 as (_ & -> & _).
    apply spawn_snake in H5 as (_ & ->). simpl.
    unfold update_trail in H3. apply bind_Ok in H3 as (p & _ & H3).
    by injection H3 as <-. }
  assert (Hover : game_over (check_head colliderect (collide collidepoint s6))
    = game_over s2
      || head_contact colliderect (head_rect s3)
           (enemies (check_head colliderect (collide collidepoint s6)))).
  { by rewrite Hgo, Hgo', Hgo2, Hhead, Hen. }
  split_and!; [done..| | | |].
  - rewrite Hbu, Hbs, Hen, collide_enemies. apply combat_outcome.
  - exact Hal'.
  - exact Hover.
  - rewrite Hover. intros [Hm|Hc]%orb_true_iff; [by left|]. right.
    unfold head_contact in Hc. apply existsb_exists in Hc as (e & Hin & Hc).
    exists e. apply list_elem_of_In in Hin. split_and!; [done| |done].
    rewrite Forall_forall in Hal'. by apply Hal'.
Qed.

End combat.

(** ** The cut of the trail *)

Lemma hypot_scale (k a b : R) : hypot (k * a) (k * b) = (Rabs k * hypot a b)%R.
Proof.
  unfold hypot.
  replace (k * a * (k * a) + k * b * (k * b))%R
    with (Rsqr k * (a * a + b * b))%R by (unfold Rsqr; ring).
  rewrite sqrt_mult; [|apply Rle_0_sqr|nra].
  by rewrite sqrt_Rsqr_abs.
Qed.

(** The cut point that [trim_path_to_length] computes lies at
    [seg_len - leftover] from the newer end of the cut segment, where an
    exact trim needs [leftover]. *)
Lemma cut_point_mirrored (x0 y0 x1 y1 leftover : R) :
  let seg_len := hypot (x1 - x0) (y1 - y0) in
  let t := (leftover / seg_len)%R in
  (0 < seg_len)%R → (0 <= leftover <= seg_len)%R →
  hypot (x1 - (x1 + (x0 - x1) * (1 - t))) (y1 - (y1 + (y0 - y1) * (1 - t)))
  = (seg_len - leftover)%R.
Proof.
  intros seg_len t Hseg Hleft.
  replace (x1 - (x1 + (x0 - x1) * (1 - t)))%R with ((1 - t) * (x1 - x0))%R
    by ring.
  replace (y1 - (y1 + (y0 - y1) * (1 - t)))%R with ((1 - t) * (y1 - y0))%R
    by ring.
  rewrite hypot_scale. fold seg_len.
  assert (Ht : (0 <= 1 - t)%R).
  { assert (Hle : (t <= 1)%R).
    { unfold t. apply (Rmult_le_reg_r seg_len); [done|].
      unfold Rdiv. rewrite Rmult_assoc, Rinv_l by lra. lra. }
    lra. }
  rewrite Rabs_right by lra. unfold t. field. lra.
Qed.

(** ** Running the game on given inputs *)

Lemma up_eq (r : R) (z : Z) : (r < IZR z)%R → (IZR z <= r + 1)%R → up r = z.
Proof. intros H1 H2. symmetry. by apply tech_up. Qed.

Lemma Int_part_eq (r : R) (z : Z) :
  (IZR z <= r)%R → (r < IZR z + 1)%R → Int_part r = z.
Proof.
  intros H1 H2. unfold Int_part.
  rewrite (up_eq r (z + 1)); [lia|rewrite plus_IZR; lra..].
Qed.

Lemma hypot_axis (a b : R) : b = 0%R → (0 <= a)%R → hypot a b = a.
Proof.
  intros -> Ha. unfold hypot. rewrite Rmult_0_l, Rplus_0_r.
  by apply sqrt_square.
Qed.

Lemma hypot_axis_neg (a b : R) : b = 0%R → (a <= 0)%R → hypot a b = (- a)%R.
Proof.
  intros -> Ha. unfold hypot. rewrite Rmult_0_l, Rplus_0_r.
  replace (a * a)%R with ((- a) * (- a))%R by lra. apply sqrt_square. lra.
Qed.

(** Evaluation that leaves the real numbers alone. *)
Ltac rcbv :=
  cbv -[Rplus Rminus Rmult Rdiv Ropp Rinv IZR up hypot sqrt Int_part
        Rle Rlt Rge Rgt Rle_decision Rlt_decision Rge_decision Rgt_decision
        Req_decision pygame_collidepoint pygame_colliderect
        Astar.astar list_to_set resolve collide check_head].

Ltac rcbv_all :=
  cbv -[Rplus Rminus Rmult Rdiv Ropp Rinv IZR up hypot sqrt Int_part
        Rle Rlt Rge Rgt Rle_decision Rlt_decision Rge_decision Rgt_decision
        Req_decision].

Ltac rdecide P d :=
  first
    [ let H := fresh in
      assert (H : P) by lra; destruct d as [_|?]; [clear H|contradiction]
    | let H := fresh in
      assert (H : ¬ P) by (intro; lra);
      destruct d as [?|_]; [contradiction|clear H] ].

Ltac rdec :=
  match goal with
  | |- context [Rge_decision ?a ?b] => rdecide (a >= b)%R (Rge_decision a b)
  | |- context [Rle_decision ?a ?b] => rdecide (a <= b)%R (Rle_decision a b)
  | |- context [Rgt_decision ?a ?b] => rdecide (a > b)%R (Rgt_decision a b)
  | |- context [Rlt_decision ?a ?b] => rdecide (a < b)%R (Rlt_decision a b)
  | |- context [Req_decision ?a ?b] => rdecide (a = b) (Req_decision a b)
  end.

Ltac rhyp :=
  match goal with
  | |- context [hypot ?a ?b] =>
      first [ rewrite (hypot_axis a b) by lra
            | rewrite (hypot_axis_neg a b) by lra ]
  end.

Ltac rint z :=
  match goal with
  | |- context [Int_part ?r] => rewrite (Int_part_eq r z) by lra
  end.

Ltac rup z :=
  match goal with
  | |- context [up ?r] => rewrite (up_eq r z) by (rcbv; lra)
  end.

Ltac reval := repeat first [rdec | rhyp].

Ltac eval_astar :=
  match goal with
  | |- context [Astar.astar ?a ?b ?c] =>
      let r := eval vm_compute in (Astar.astar a b c) in
      replace (Astar.astar a b c) with r by (vm_compute; reflexivity)
  end.

(** Two states are the same when their fields are. *)
Ltac same_state := f_equal; repeat (f_equal; try lra).

(** *** Two slow frames *)

Lemma frame_slow1 :
  frame pygame_collidepoint pygame_colliderect slow1 (initial_state (0, 0))
  = Ok after_slow1.
Proof.
  unfold frame, slow1, move_snake.
  cbn [in_events in_dt in_apples handle_events mbind res_bind progress
       set_progress initial_state].
  rup 4%Z. rcbv. reval.
  unfold resolve. rcbv. reval. eval_astar. rcbv. reval.
  unfold collide, check_head. rcbv. reval.
  rint 457%Z. rint 402%Z. rint 761%Z. rint 401%Z.
  rcbv_all. same_state.
Qed.

Lemma frame_slow2 :
  frame pygame_collidepoint pygame_colliderect slow2 after_slow1
  = Ok after_slow2.
Proof.
  unfold frame, slow2, move_snake.
  cbn [in_events in_dt in_apples handle_events mbind res_bind progress
       set_progress after_slow1].
  rup 5%Z. rcbv. reval.
  unfold resolve. rcbv. reval. eval_astar. rcbv. reval.
  unfold collide, check_head. rcbv. reval.
  rint 532%Z. rint 402%Z. rint 741%Z. rint 401%Z.
  rcbv_all. same_state.
Qed.

Lemma run_slow :
  run pygame_collidepoint pygame_colliderect [slow1; slow2]
    (initial_state (0, 0)) = Ok after_slow2.
Proof.
  cbn [run]. rewrite frame_slow1. cbn [mbind res_bind after_slow1 game_over].
  rewrite frame_slow2. reflexivity.
Qed.

Lemma run_slow_first :
  run pygame_collidepoint pygame_colliderect [slow1] (initial_state (0, 0))
  = Ok after_slow1.
Proof. cbn [run]. rewrite frame_slow1. reflexivity. Qed.

Lemma slow_trail_length : polyline_length (path after_slow2) = 105%R.
Proof.
  unfold polyline_length. cbn [path after_slow2 segment_lengths fold_right fst snd].
  reval. lra.
Qed.

(** C1 does not hold of the code.  The main cycle is run on two frames
    of a quarter of a second each, with no key pressed: the trail is
    trimmed every frame with the budget of [length_cells * SIZE = 100]
    pixels, and after the second frame it is 105 pixels long.  The cut
    point is put at [1 - t] of the cut segment, counted from its newer
    end, where the exact cut is at [t]. *)
Theorem trail_exceeds_budget :
  run pygame_collidepoint pygame_colliderect [slow1; slow2]
    (initial_state (0, 0)) = Ok after_slow2 ∧
  IZR (length_cells after_slow2 * SIZE) = 100%R ∧
  polyline_length (path after_slow2) = 105%R.
Proof.
  split_and!; [apply run_slow|reflexivity|apply slow_trail_length].
Qed.

(** The trim alone, on the trail of that second frame. *)
Lemma trim_overshoots :
  trim_path_to_length [(400, 400); (455, 400); (530, 400)]%R 100
  = Ok [(425, 400); (455, 400); (530, 400)]%R.
Proof.
  unfold trim_path_to_length, dists. rcbv. reval. rcbv. reval.
  repeat (f_equal; try lra).
Qed.

Lemma spawn_draws_slow : Forall spawn_draws_ok [slow1; slow2].
Proof. repeat constructor; simpl; unfold CELLS, RES, SIZE; lia. Qed.

(** The agent of the two slow frames: over the second one it goes from
    cell (38, 20) to cell (37, 20), at the centre of which it is put. *)
Lemma agent_cell_on_path_witness :
  let e' := pink (37, 20) (750, 410)%R (row 20 38 27) 2 in
  Forall spawn_draws_ok [slow1] ∧
  (∀ e, e ∈ enemies after_slow1 → Enemy.cell e ∈ Enemy.path e) ∧
  (∃ e,
     (e ∈ enemies after_slow1 ∨
      (spawn_enemy (in_side slow2) (in_coord slow2) (in_kind slow2) = Ok e ∧
       Enemy.pos e = centre (Enemy.cell e))) ∧
     (Enemy.cell e' = Enemy.cell e ∨ snapped e')) ∧
  (∀ dt target blocked e e0, Enemy.update dt target blocked e = Ok e0 →
     Enemy.cell e0 = Enemy.cell e ∨
     (snapped e0 ∧
      (hypot ((centre (Enemy.cell e0)).1 - (Enemy.pos e).1)
             ((centre (Enemy.cell e0)).2 - (Enemy.pos e).2)
       <= IZR (Enemy.speed_px e) * dt)%R)).
Proof.
  intros e'.
  assert (Hd : Forall spawn_draws_ok [slow1]).
  { repeat constructor; simpl; unfold CELLS, RES, SIZE; lia. }
  split; [exact Hd|].
  destruct (agent_cell_on_path pygame_collidepoint pygame_colliderect (0, 0)
              [slow1] after_slow1 Hd run_slow_first) as (HA & HB & HC).
  split_and!; [exact HA| |exact HC].
  apply (HB slow2 after_slow2 e' frame_slow2).
  apply elem_of_cons. by left.
Defined.

(** *** A frame in which the apple is eaten *)

Lemma frame_eat1 :
  frame pygame_collidepoint pygame_colliderect eat1 (initial_state (21, 20))
  = Ok after_eat1.
Proof.
  unfold frame, eat1, move_snake.
  cbn [in_events in_dt in_apples handle_events mbind res_bind progress
       set_progress initial_state].
  rup 2%Z. rcbv. reval.
  unfold resolve. rcbv. reval. eval_astar. rcbv. reval.
  unfold collide, check_head. rcbv. reval.
  rint 402%Z. rint 402%Z. rint 761%Z. rint 401%Z.
  rcbv_all. same_state.
Qed.

Lemma run_eat :
  run pygame_collidepoint pygame_colliderect [eat1] (initial_state (21, 20))
  = Ok after_eat1.
Proof. cbn [run]. rewrite frame_eat1. reflexivity. Qed.

Lemma length_is_score_witness :
  length_cells after_eat1 = (INIT_LEN + score after_eat1)%Z.
Proof.
  apply (length_is_score pygame_collidepoint pygame_colliderect (21, 20) [eat1]).
  apply run_eat.
Defined.

(** The step of the snake onto the apple, on its own. *)
Lemma snake_step_eats :
  snake_step [(20, 20); (5, 5)] (set_progress 1 (initial_state (21, 20)))
  = Ok (set_path [(400, 400)%R] (set_enemies []
          (set_last_spawn_time 0 after_eat1)), []).
Proof. rcbv. repeat (f_equal; try lra). Qed.

Lemma first_apple_unguarded_witness :
  (∃ apple0, random_cell apple0 ∧
     apple (initial_state apple0) ∈ body (initial_state apple0)) ∧
  (5, 5) ∉ [(20, 20); (21, 20)].
Proof.
  destruct first_apple_unguarded as [Hfirst Hlater]. split; [exact Hfirst|].
  apply (Hlater _ _ _ _ snake_step_eats). discriminate.
Defined.

(** *** A frame in which a projectile destroys an agent at the head *)

Lemma frame_duel :
  frame pygame_collidepoint pygame_colliderect duel_in duel = Ok after_duel.
Proof.
  unfold frame, duel_in, move_snake.
  cbn [in_events in_dt in_apples handle_events mbind res_bind progress
       set_progress duel].
  rup 1%Z. rcbv. reval.
  unfold resolve. rcbv. reval.
  match goal with
  | |- context [(427 + ?u * ?v)%R] =>
      replace (427 + u * v)%R with 424%R by (field; lra)
  end.
  match goal with
  | |- context [(410 + ?u * ?v)%R] =>
      replace (410 + u * v)%R with 410%R by (field; lra)
  end.
  unfold collide, check_head. rcbv. reval.
  rint 415%Z. rint 401%Z.
  unfold pygame_collidepoint. rcbv. reval.
  rcbv_all. same_state.
Qed.

(** Without the shot the same agent ends the game in that frame. *)
Lemma frame_duel_unarmed :
  frame pygame_collidepoint pygame_colliderect duel_in (set_bullets [] duel)
  = Ok (set_game_over true (set_bullets [] (set_enemies
          [ {| Enemy.name := "pink"; Enemy.hp := 1; Enemy.speed_px := 300;
               Enemy.color := (255, 105, 180); Enemy.cell := (21, 20);
               Enemy.pos := (424, 410)%R; Enemy.path := row 20 21 20;
               Enemy.next_idx := 1; Enemy._repath_timer := (6/25)%R;
               Enemy.size := 18 |} ] after_duel))).
Proof.
  unfold frame, duel_in, move_snake.
  cbn [in_events in_dt in_apples handle_events mbind res_bind progress
       set_progress set_bullets duel].
  rup 1%Z. rcbv. reval.
  unfold resolve. rcbv. reval.
  match goal with
  | |- context [(427 + ?u * ?v)%R] =>
      replace (427 + u * v)%R with 424%R by (field; lra)
  end.
  match goal with
  | |- context [(410 + ?u * ?v)%R] =>
      replace (410 + u * v)%R with 410%R by (field; lra)
  end.
  unfold collide, check_head. rcbv. reval.
  rint 400%Z. rint 402%Z. rint 415%Z. rint 401%Z.
  rcbv_all. same_state.
Qed.

Lemma kill_precedes_head_contact_witness :
  Forall alive (enemies duel) ∧
  frame pygame_collidepoint pygame_colliderect duel_in duel = Ok after_duel ∧
  ∃ s1 s2 s3 s5 s6,
    handle_events (in_events duel_in) duel = Ok s1 ∧
    move_snake (in_dt duel_in) (in_apples duel_in) s1 = Ok s2 ∧
    update_trail s2 = Ok s3 ∧
    spawn duel_in
      (set_bullets (update_bullets (in_dt duel_in) (bullets s3)) s3) = Ok s5 ∧
    move_enemies (in_dt duel_in) s5 = Ok s6 ∧
    pass_outcome pygame_collidepoint (bullets s6) (enemies s6)
      (bullets after_duel) (enemies after_duel) ∧
    Forall alive (enemies after_duel) ∧
    game_over after_duel
    = game_over s2
      || head_contact pygame_colliderect (head_rect s3) (enemies after_duel) ∧
    (game_over after_duel = true →
     game_over s2 = true ∨
     ∃ e, e ∈ enemies after_duel ∧ alive e ∧
       pygame_colliderect (Enemy.rect e) (head_rect s3) = true).
Proof.
  assert (Hal : Forall alive (enemies duel)).
  { repeat constructor. }
  split; [exact Hal|]. split; [apply frame_duel|].
  apply (kill_precedes_head_contact pygame_collidepoint pygame_colliderect
           duel_in duel after_duel Hal).
  apply frame_duel.
Defined.

Lemma projectile_single_hit_witness :
  let frames := [((1/100)%R, enemies duel); ((1/100)%R, enemies duel)] in
  Forall (λ f, Forall alive f.2) frames ∧
  (0 ≤ damage_dealt pygame_collidepoint shot frames ≤ 1)%Z ∧
  (Bullet.hit shot = true →
   damage_dealt pygame_collidepoint shot frames = 0%Z ∧
   ∀ es, combat_bullet pygame_collidepoint shot es = (shot, es)).
Proof.
  intros frames.
  assert (Hal : Forall (λ f, Forall alive f.2) frames).
  { repeat constructor. }
  split; [exact Hal|].
  apply (projectile_single_hit pygame_collidepoint shot frames Hal).
Defined.

(** * Further properties of the program *)

(** ** The snake on the grid *)

(** The four headings. *)
Definition heading (d : Z * Z) : Prop :=
  d = (1, 0) ∨ d = (-1, 0) ∨ d = (0, 1) ∨ d = (0, -1).

(** Consecutive cells of a sequence are 4-adjacent. *)
Definition chain (b : list (Z * Z)) : Prop :=
  ∀ (i : nat) (c1 c2 : Z * Z),
    b !! i = Some c1 → b !! S i = Some c2 → AstarFacts.adjacent c1 c2.

(** What the main cycle keeps true of the snake. *)
Record snake_ok (s : state) : Prop := {
  snake_dir : heading (dir_x s, dir_y s);
  snake_queued : heading (queued_dir s);
  snake_turn : can_turn (dir_x s, dir_y s) (queued_dir s) = true;
  snake_nodup : NoDup (body s);
  snake_chain : chain (body s);
  snake_in_grid : ∀ c, c ∈ body s → in_grid c = true;
  snake_len : 1 ≤ Z.of_nat (length (body s)) ≤ length_cells s;
  snake_head : game_over s = false → last (body s) = Some (head_cell s)
}.

(** [while len(body) > length_cells: body.popleft()] keeps the newest
    [length_cells] cells. *)
Lemma shrink_body_spec (b : list (Z * Z)) (len : Z) :
  0 ≤ len → shrink_body b len = Ok (drop (length b - Z.to_nat len) b).
Proof.
  intros Hlen. induction b as [|c b IHb]; simpl.
  - rewrite bool_decide_eq_false_2 by lia. done.
  - case_bool_decide as Hgt.
    + rewrite IHb. replace (S (length b) - Z.to_nat len)%nat
        with (S (length b - Z.to_nat len)) by lia. done.
    + replace (S (length b) - Z.to_nat len)%nat with 0%nat by lia. done.
Qed.

Lemma shrink_body_negative (b : list (Z * Z)) (len : Z) :
  len < 0 → shrink_body b len = Raise.
Proof.
  intros Hlen. induction b as [|c b IHb]; simpl;
    rewrite bool_decide_eq_true_2 by lia; done.
Qed.

Lemma chain_snoc (b : list (Z * Z)) (c n : Z * Z) :
  chain b → last b = Some c → AstarFacts.adjacent c n → chain (b ++ [n]).
Proof.
  intros Hb Hl Hadj i c1 c2 H1 H2.
  destruct (decide (S i < length b)%nat) as [Hlt|Hge].
  - rewrite lookup_app_l in H1 by lia. rewrite lookup_app_l in H2 by lia.
    by apply (Hb i).
  - assert (Hi : S i = length b).
    { apply lookup_lt_Some in H2. rewrite length_app in H2. simpl in H2. lia. }
    rewrite lookup_app_l in H1 by lia. rewrite lookup_app_r in H2 by lia.
    rewrite Hi, Nat.sub_diag in H2. simpl in H2. injection H2 as <-.
    rewrite last_lookup, <- Hi in Hl. simpl in Hl. rewrite H1 in Hl.
    by injection Hl as ->.
Qed.

Lemma chain_drop (k : nat) (b : list (Z * Z)) : chain b → chain (drop k b).
Proof.
  intros Hb i c1 c2 H1 H2. rewrite lookup_drop in H1, H2.
  apply (Hb (k + i)%nat); [done|]. by rewrite <- Nat.add_succ_r.
Qed.

Lemma NoDup_drop {A : Type} (k : nat) (l : list A) : NoDup l → NoDup (drop k l).
Proof.
  intros Hl. rewrite <- (take_drop k l) in Hl. by apply NoDup_app in Hl as (_ & _ & ?).
Qed.

Lemma elem_of_drop_list {A : Type} (k : nat) (l : list A) (a : A) :
  a ∈ drop k l → a ∈ l.
Proof.
  intros Ha. rewrite <- (take_drop k l). apply elem_of_app. by right.
Qed.

Lemma last_drop_lt {A : Type} (k : nat) (l : list A) :
  (k < length l)%nat → last (drop k l) = last l.
Proof.
  intros Hk. rewrite !last_lookup, lookup_drop, length_drop. f_equal. lia.
Qed.

Lemma heading_can_turn_self (d : Z * Z) : heading d → can_turn d d = true.
Proof. by intros [->|[->|[->| ->]]]. Qed.

Lemma key_dir_heading (k : key) (cur : Z * Z) :
  heading cur → heading (key_dir k cur).
Proof. unfold heading. destruct k; simpl; auto. Qed.

Lemma heading_adjacent (c d : Z * Z) :
  heading d → AstarFacts.adjacent c (c.1 + d.1, c.2 + d.2).
Proof.
  unfold AstarFacts.adjacent. intros [->|[->|[->| ->]]]; simpl; lia.
Qed.

(** The invariant looks at the fields of the snake only, and at whether
    the game goes on. *)
Lemma snake_ok_same (s s' : state) :
  dir_x s' = dir_x s → dir_y s' = dir_y s → queued_dir s' = queued_dir s →
  body s' = body s → length_cells s' = length_cells s →
  head_cell s' = head_cell s →
  (game_over s' = false → game_over s = false) →
  snake_ok s → snake_ok s'.
Proof.
  intros Hdx Hdy Hq Hb Hl Hh Hg [H1 H2 H3 H4 H5 H6 H7 H8].
  split; rewrite ?Hdx, ?Hdy, ?Hq, ?Hb, ?Hl, ?Hh; auto.
Qed.

Lemma handle_event_snake (s s' : state) (ev : event) :
  snake_ok s → handle_event s ev = Ok s' → snake_ok s'.
Proof.
  intros Hok. destruct ev as [|k|button mouse|]; simpl; intros H;
    try discriminate.
  - case_if_hyp H; injection H as <-; [|done].
    apply andb_true_iff in Heqb as [_ Hturn].
    destruct Hok as [H1 H2 H3 H4 H5 H6 H7 H8]. split; simpl; auto.
    by apply key_dir_heading.
  - case_if_hyp H.
    + res_inv H. injection H as <-. by apply (snake_ok_same s).
    + by injection H as <-.
  - by injection H as <-.
Qed.

Lemma handle_events_snake (evs : list event) (s s' : state) :
  snake_ok s → handle_events evs s = Ok s' → snake_ok s'.
Proof.
  revert s. induction evs as [|ev evs IHevs]; simpl; intros s Hok H.
  - by injection H as <-.
  - res_inv H. apply (IHevs a); [|done]. by apply (handle_event_snake s _ ev).
Qed.

Lemma handle_event_game_over (s s' : state) (ev : event) :
  handle_event s ev = Ok s' → game_over s' = game_over s.
Proof.
  destruct ev as [|k|button mouse|]; simpl; intros H; try discriminate.
  - case_if_hyp H; by injection H as <-.
  - case_if_hyp H.
    + res_inv H. by injection H as <-.
    + by injection H as <-.
  - by injection H as <-.
Qed.

Lemma apply_queued_snake (s : state) :
  snake_ok s → snake_ok (apply_queued s).
Proof.
  intros Hok. unfold apply_queued. case_match; [|done].
  destruct Hok as [H1 H2 H3 H4 H5 H6 H7 H8]. split; simpl; auto.
  - by rewrite <- surjective_pairing.
  - rewrite <- surjective_pairing. by apply heading_can_turn_self.
Qed.

Lemma apply_queued_game_over (s : state) :
  game_over (apply_queued s) = game_over s.
Proof. unfold apply_queued. by case_match. Qed.

(** A step of the snake keeps the invariant. *)
Lemma snake_step_snake (draws draws' : list (Z * Z)) (s s' : state) :
  snake_ok s → game_over s = false →
  snake_step draws s = Ok (s', draws') → snake_ok s'.
Proof.
  intros Hok Hgo. unfold snake_step.
  assert (Hok1 : snake_ok (apply_queued (set_progress (progress s - 1) s))).
  { apply apply_queued_snake. by apply (snake_ok_same s). }
  assert (Hgo1 : game_over (apply_queued (set_progress (progress s - 1) s))
                 = false).
  { by rewrite apply_queued_game_over. }
  set (s1 := apply_queued (set_progress (progress s - 1) s)) in *.
  clearbody s1. clear Hok Hgo s.
  destruct Hok1 as [H1 H2 H3 H4 H5 H6 H7 H8]. specialize (H8 Hgo1).
  destruct (move_to_cell _ _ _ _) as [new_cell|] eqn:Hmove.
  2:{ intros [= <- <-]. split; simpl; auto; done. }
  pose proof (move_to_cell_in_grid _ _ _ _ _ Hmove) as Hin.
  assert (Hnew : new_cell = (grid_x s1 + dir_x s1, grid_y s1 + dir_y s1)).
  { unfold move_to_cell in Hmove. case_match; [done|]. by injection Hmove. }
  assert (Hadj : AstarFacts.adjacent (head_cell s1) new_cell).
  { rewrite Hnew. by apply (heading_adjacent (head_cell s1) (dir_x s1, dir_y s1)). }
  cbn [set_grid grid_x grid_y body length_cells]. rewrite <- surjective_pairing.
  case_bool_decide as Hself.
  { intros [= <- <-]. split; simpl; auto; done. }
  rewrite shrink_body_spec by lia.
  set (k := (length (body s1 ++ [new_cell]) - Z.to_nat (length_cells s1))%nat).
  assert (Hk : (k < length (body s1 ++ [new_cell]))%nat).
  { unfold k. rewrite length_app. simpl. lia. }
  assert (Hlen : (length (drop k (body s1 ++ [new_cell]))
                  = Nat.min (length (body s1) + 1) (Z.to_nat (length_cells s1)))%nat).
  { rewrite length_drop. unfold k. rewrite length_app. simpl. lia. }
  assert (Hb : NoDup (drop k (body s1 ++ [new_cell])) ∧
               chain (drop k (body s1 ++ [new_cell])) ∧
               (∀ c, c ∈ drop k (body s1 ++ [new_cell]) → in_grid c = true) ∧
               last (drop k (body s1 ++ [new_cell])) = Some new_cell).
  { split_and!.
    - apply NoDup_drop. apply NoDup_app. split_and!; [done| |apply NoDup_singleton].
      intros c Hc ->%list_elem_of_singleton. done.
    - apply chain_drop. by apply (chain_snoc _ (head_cell s1)).
    - intros c [Hc| ->%list_elem_of_singleton]%elem_of_drop_list%elem_of_app; auto.
    - rewrite last_drop_lt by done. apply last_snoc. }
  destruct Hb as (Hb1 & Hb2 & Hb3 & Hb4).
  cbn [mbind res_bind set_body grid_x grid_y body apple length_cells score].
  case_bool_decide as Happle.
  - intros H. res_inv H. destruct a as [ap dr]. injection H as <- <-.
    split; simpl; auto;
      [rewrite Hlen; lia
      |intros _; rewrite Hb4; unfold head_cell; simpl;
       by rewrite <- surjective_pairing].
  - intros [= <- <-]. split; simpl; auto;
      [rewrite Hlen; lia
      |intros _; rewrite Hb4; unfold head_cell; simpl;
       by rewrite <- surjective_pairing].
Qed.
Lemma snake_loop_snake (fuel : nat) (draws draws' : list (Z * Z))
    (s s' : state) :
  snake_ok s → snake_loop fuel draws s = Ok (s', draws') → snake_ok s'.
Proof.
  revert draws s. induction fuel as [|fuel IHfuel]; simpl; intros draws s Hok H.
  - case_if_hyp H; [done|]. by injection H as <- <-.
  - case_if_hyp H; [|by injection H as <- <-].
    apply andb_true_iff in Heqb as [_ Hgo%negb_true_iff].
    res_inv H. destruct a as [s1 draws1].
    apply (IHfuel draws1 s1); [|done]. by apply (snake_step_snake draws draws1 s).
Qed.

Lemma move_snake_snake (dt : R) (draws : list (Z * Z)) (s s' : state) :
  snake_ok s → move_snake dt draws s = Ok s' → snake_ok s'.
Proof.
  unfold move_snake. intros Hok H. res_inv H. destruct a as [s1 d1].
  injection H as <-. apply snake_loop_snake in Ha; [done|].
  by apply (snake_ok_same s).
Qed.

Lemma update_trail_snake (s s' : state) :
  snake_ok s → update_trail s = Ok s' → snake_ok s'.
Proof.
  unfold update_trail. intros Hok H. res_inv H. injection H as <-.
  by apply (snake_ok_same s).
Qed.

Lemma handle_events_game_over (evs : list event) (s s' : state) :
  handle_events evs s = Ok s' → game_over s' = game_over s.
Proof.
  revert s. induction evs as [|ev evs IHevs]; simpl; intros s H.
  - by injection H as <-.
  - res_inv H. apply handle_event_game_over in Ha. apply IHevs in H. congruence.
Qed.

Lemma update_trail_game_over (s s' : state) :
  update_trail s = Ok s' → game_over s' = game_over s.
Proof. unfold update_trail. intros H. res_inv H. by injection H as <-. Qed.

Lemma snake_of_ok (s s' : state) :
  snake_of s' = snake_of s → (game_over s' = false → game_over s = false) →
  snake_ok s → snake_ok s'.
Proof.
  unfold snake_of. intros Hs Hg.
  injection Hs as Hx Hy Hdx Hdy Hq _ _ _ Hl _ Hb _ _.
  apply snake_ok_same; try done. unfold head_cell. by rewrite Hx, Hy.
Qed.

Section snake_on_grid.
Variable collidepoint : Rect → R → R → bool.
Variable colliderect : Rect → Rect → bool.

(** The second half of a frame never clears [game_over]. *)
Lemma frame_game_over (i : input) (s s' : state) :
  frame collidepoint colliderect i s = Ok s' →
  ∃ s1 s2 s3,
    handle_events (in_events i) s = Ok s1 ∧
    move_snake (in_dt i) (in_apples i) s1 = Ok s2 ∧
    update_trail s2 = Ok s3 ∧
    snake_of s' = snake_of s3 ∧
    (game_over s' = false → game_over s3 = false).
Proof.
  intros H. apply frame_phases in H
    as (s1 & s2 & s3 & s5 & s6 & H1 & H2 & H3 & H5 & H6 & ->).
  exists s1, s2, s3. split_and!; [done..| |].
  - destruct (check_head_snake colliderect (collide collidepoint s6)) as (-> & _).
    destruct (collide_snake collidepoint s6) as (-> & _).
    apply move_enemies_snake in H6 as (-> & _).
    by apply spawn_snake in H5 as (-> & _).
  - destruct (check_head_snake colliderect (collide collidepoint s6))
      as (_ & _ & _ & ->).
    destruct (collide_snake collidepoint s6) as (_ & ->).
    apply move_enemies_snake in H6 as (_ & -> & _).
    apply spawn_snake in H5 as (_ & ->). by intros [? _]%orb_false_iff.
Qed.

Lemma frame_snake_ok (i : input) (s s' : state) :
  snake_ok s → frame collidepoint colliderect i s = Ok s' → snake_ok s'.
Proof.
  intros Hok H.
  apply frame_game_over in H as (s1 & s2 & s3 & H1 & H2 & H3 & Hsn & Hgo).
  apply (snake_of_ok s3); [done..|].
  apply (update_trail_snake s2); [|done].
  apply (move_snake_snake _ _ s1) in H2; [done|].
  by apply (handle_events_snake (in_events i) s).
Qed.

Lemma initial_snake_ok (apple0 : Z * Z) : snake_ok (initial_state apple0).
Proof.
  split; simpl.
  - by left.
  - by left.
  - reflexivity.
  - apply NoDup_singleton.
  - intros i c1 c2 _ H2. by destruct i.
  - by intros c ->%list_elem_of_singleton.
  - unfold INIT_LEN. lia.
  - done.
Qed.

Lemma run_snake_ok (ins : list input) (s0 s : state) :
  snake_ok s0 → run collidepoint colliderect ins s0 = Ok s → snake_ok s.
Proof.
  revert s0. induction ins as [|i ins IHins]; simpl; intros s0 H0 H.
  - by injection H as <-.
  - res_inv H. apply (frame_snake_ok i s0 a H0) in Ha.
    destruct (game_over a).
    + by injection H as <-.
    + by apply (IHins a).
Qed.

(** X1.  At every frame boundary of the main cycle the body of the snake has
    no cell twice, each of its cells is 4-adjacent to the one before
    it, and all of them are cells of the grid. *)
Theorem body_never_overlaps (apple0 : Z * Z) (ins : list input) (s : state) :
  run collidepoint colliderect ins (initial_state apple0) = Ok s →
  NoDup (body s) ∧ chain (body s) ∧ ∀ c, c ∈ body s → in_grid c = true.
Proof.
  intros H. apply run_snake_ok in H as [H1 H2 H3 H4 H5 H6 H7 H8];
    [done|apply initial_snake_ok].
Qed.

(** X2.  At every frame boundary the body holds at least one and at most
    [length_cells] cells and, while the game goes on, the newest of
    them is the cell of the head. *)
Theorem body_length_and_head (apple0 : Z * Z) (ins : list input) (s : state) :
  run collidepoint colliderect ins (initial_state apple0) = Ok s →
  1 ≤ Z.of_nat (length (body s)) ≤ length_cells s ∧
  (game_over s = false → last (body s) = Some (grid_x s, grid_y s)).
Proof.
  intros H. apply run_snake_ok in H as [H1 H2 H3 H4 H5 H6 H7 H8];
    [done|apply initial_snake_ok].
Qed.

(** X3.  At every frame boundary the heading and the queued direction are
    two of the four unit directions, and the queued direction is not
    the reverse of the heading. *)
Theorem heading_is_unit (apple0 : Z * Z) (ins : list input) (s : state) :
  run collidepoint colliderect ins (initial_state apple0) = Ok s →
  heading (dir_x s, dir_y s) ∧ heading (queued_dir s) ∧
  queued_dir s ≠ (- dir_x s, - dir_y s).
Proof.
  intros H. apply run_snake_ok in H as [H1 H2 H3 H4 H5 H6 H7 H8];
    [|apply initial_snake_ok].
  split_and!; [done..|]. intros Hq. rewrite Hq, can_turn_opposite in H3. done.
Qed.

End snake_on_grid.
(** ** The fraction of a cell *)

Lemma snake_step_progress (draws draws' : list (Z * Z)) (s s' : state) :
  snake_step draws s = Ok (s', draws') → progress s' = (progress s - 1)%R.
Proof.
  unfold snake_step. intros H.
  assert (Hp : progress (apply_queued (set_progress (progress s - 1) s))
               = (progress s - 1)%R).
  { unfold apply_queued. simpl. by destruct (negb _ && _). }
  rewrite <- Hp.
  destruct (move_to_cell _ _ _ _); [|by injection H as <- _].
  case_if_hyp H; [by injection H as <- _|].
  res_inv H. simpl in H. case_if_hyp H.
  - res_inv H. destruct a0. by injection H as <- _.
  - by injection H as <- _.
Qed.

(** The loop of the snake leaves when less than a cell is left to go, or
    when the game is over. *)
Lemma snake_loop_progress (fuel : nat) (draws draws' : list (Z * Z))
    (s s' : state) :
  (0 <= progress s)%R → snake_loop fuel draws s = Ok (s', draws') →
  (0 <= progress s')%R ∧ (game_over s' = false → (progress s' < 1)%R).
Proof.
  revert draws s. induction fuel as [|fuel IHfuel]; simpl; intros draws s Hp H.
  - case_if_hyp H; [done|]. injection H as <- <-. split; [done|].
    intros Hgo. rewrite Hgo, andb_true_r in Heqb.
    apply bool_decide_eq_false in Heqb. lra.
  - case_if_hyp H.
    + apply andb_true_iff in Heqb as [Hge%bool_decide_eq_true _].
      res_inv H. destruct a as [s1 draws1].
      apply snake_step_progress in Ha. apply (IHfuel draws1 s1); [|done].
      rewrite Ha. lra.
    + injection H as <- <-. split; [done|].
      intros Hgo. rewrite Hgo, andb_true_r in Heqb.
      apply bool_decide_eq_false in Heqb. lra.
Qed.

Lemma move_snake_progress (dt : R) (draws : list (Z * Z)) (s s' : state) :
  (0 <= dt)%R → (0 <= progress s)%R → move_snake dt draws s = Ok s' →
  (0 <= progress s')%R ∧ (game_over s' = false → (progress s' < 1)%R).
Proof.
  unfold move_snake. intros Hdt Hp H. res_inv H. destruct a as [s1 d1].
  injection H as <-. apply snake_loop_progress in Ha; [done|]. simpl.
  change (IZR SPEED) with 300%R. change (IZR SIZE) with 20%R. lra.
Qed.

Lemma handle_event_progress (s s' : state) (ev : event) :
  handle_event s ev = Ok s' →
  progress s' = progress s ∧ dir_x s' = dir_x s ∧ dir_y s' = dir_y s.
Proof.
  destruct ev as [|k|button mouse|]; simpl; intros H; try discriminate.
  - case_if_hyp H; by injection H as <-.
  - case_if_hyp H.
    + res_inv H. by injection H as <-.
    + by injection H as <-.
  - by injection H as <-.
Qed.

Lemma handle_events_progress (evs : list event) (s s' : state) :
  handle_events evs s = Ok s' →
  progress s' = progress s ∧ dir_x s' = dir_x s ∧ dir_y s' = dir_y s.
Proof.
  revert s. induction evs as [|ev evs IHevs]; simpl; intros s H.
  - by injection H as <-.
  - res_inv H. apply handle_event_progress in Ha as (Hp & Hx & Hy).
    apply IHevs in H as (-> & -> & ->). done.
Qed.

(** The interpolated position of the head that a frame computes. *)
Lemma update_trail_head (s s' : state) :
  update_trail s = Ok s' →
  x s' = ((IZR (grid_x s') - IZR (dir_x s') * (1 - progress s')) * IZR SIZE)%R ∧
  y s' = ((IZR (grid_y s') - IZR (dir_y s') * (1 - progress s')) * IZR SIZE)%R ∧
  progress s' = progress s ∧ game_over s' = game_over s.
Proof. unfold update_trail. intros H. res_inv H. by injection H as <-. Qed.

(** How far the drawn head is from the corner of its cell. *)
Definition head_offset (s : state) : R * R :=
  (x s - IZR (grid_x s) * IZR SIZE, y s - IZR (grid_y s) * IZR SIZE)%R.

Record motion_ok (s : state) : Prop := {
  motion_progress : (0 <= progress s)%R;
  motion_fraction : game_over s = false → (progress s < 1)%R;
  motion_offset : game_over s = false →
    (Rabs (head_offset s).1 <= IZR SIZE)%R ∧
    (Rabs (head_offset s).2 <= IZR SIZE)%R
}.

Lemma heading_bounds (d : Z * Z) :
  heading d → (-1 <= IZR d.1 <= 1)%R ∧ (-1 <= IZR d.2 <= 1)%R.
Proof. intros [->|[->|[->| ->]]]; simpl; lra. Qed.

Section motion.
Variable collidepoint : Rect → R → R → bool.
Variable colliderect : Rect → Rect → bool.

Lemma frame_motion (i : input) (s s' : state) :
  (0 <= in_dt i)%R → snake_ok s → (0 <= progress s)%R →
  frame collidepoint colliderect i s = Ok s' → motion_ok s'.
Proof.
  intros Hdt Hok Hp H.
  pose proof (frame_snake_ok collidepoint colliderect i s s' Hok H) as Hok'.
  apply frame_game_over in H as (s1 & s2 & s3 & H1 & H2 & H3 & Hsn & Hgo).
  apply handle_events_progress in H1 as (Hp1 & _).
  apply move_snake_progress in H2 as [Hp2 Hlt2]; [|done|by rewrite Hp1].
  apply update_trail_head in H3 as (Hx & Hy & Hp3 & Hgo3).
  unfold snake_of in Hsn.
  injection Hsn as Hgx Hgy Hdx Hdy _ Hpr Hxx Hyy _ _ _ _ _.
  rewrite <- Hgx, <- Hdx, <- Hpr, <- Hxx in Hx.
  rewrite <- Hgy, <- Hdy, <- Hpr, <- Hyy in Hy.
  assert (Hlt : game_over s' = false → (progress s' < 1)%R).
  { intros Hg. rewrite Hpr, Hp3. apply Hlt2. rewrite <- Hgo3. by apply Hgo. }
  split; [by rewrite Hpr, Hp3|done|].
  intros Hg. specialize (Hlt Hg).
  assert (Hp' : (0 <= progress s')%R) by (by rewrite Hpr, Hp3).
  destruct (heading_bounds _ (snake_dir _ Hok')) as [Hbx Hby]. simpl in Hbx, Hby.
  unfold head_offset. simpl. rewrite Hx, Hy.
  change (IZR SIZE) with 20%R.
  split; apply Rabs_le; nra.
Qed.

Lemma initial_motion (apple0 : Z * Z) : motion_ok (initial_state apple0).
Proof.
  split; simpl; [lra|lra|]. intros _. unfold head_offset. simpl.
  rewrite !mult_IZR, !Rminus_diag, Rabs_R0. change (IZR SIZE) with 20%R. lra.
Qed.

Lemma run_motion (ins : list input) (s0 s : state) :
  Forall (λ i, (0 <= in_dt i)%R) ins → snake_ok s0 → motion_ok s0 →
  run collidepoint colliderect ins s0 = Ok s → motion_ok s.
Proof.
  revert s0. induction ins as [|i ins IHins]; simpl; intros s0 Hdt Hok Hm H.
  - by injection H as <-.
  - apply Forall_cons in Hdt as [Hi Hdt]. res_inv H.
    pose proof (frame_snake_ok collidepoint colliderect i s0 a Hok Ha) as Hok'.
    apply frame_motion in Ha; [|done|done|by destruct Hm].
    destruct (game_over a).
    + by injection H as <-.
    + by apply (IHins a).
Qed.

(** X4.  When no frame takes negative time, at every frame boundary
    [progress] is not negative and, while the game goes on, less than a
    whole cell. *)
Theorem progress_below_one (apple0 : Z * Z) (ins : list input) (s : state) :
  Forall (λ i, (0 <= in_dt i)%R) ins →
  run collidepoint colliderect ins (initial_state apple0) = Ok s →
  (0 <= progress s)%R ∧ (game_over s = false → (progress s < 1)%R).
Proof.
  intros Hdt H. apply run_motion in H as [H1 H2 H3];
    [done|done|apply initial_snake_ok|apply initial_motion].
Qed.

(** X5.  While the game goes on, the head is drawn within one cell of the
    cell it is in. *)
Theorem head_drawn_near_cell (apple0 : Z * Z) (ins : list input) (s : state) :
  Forall (λ i, (0 <= in_dt i)%R) ins →
  run collidepoint colliderect ins (initial_state apple0) = Ok s →
  game_over s = false →
  (Rabs (x s - IZR (grid_x s) * IZR SIZE) <= IZR SIZE)%R ∧
  (Rabs (y s - IZR (grid_y s) * IZR SIZE) <= IZR SIZE)%R.
Proof.
  intros Hdt H Hgo. apply run_motion in H as [H1 H2 H3];
    [by apply H3|done|apply initial_snake_ok|apply initial_motion].
Qed.

End motion.

(** ** Turns inside a frame *)

Lemma snake_step_turn (draws draws' : list (Z * Z)) (s s' : state) :
  can_turn (dir_x s, dir_y s) (queued_dir s) = true →
  snake_step draws s = Ok (s', draws') →
  (dir_x s', dir_y s') = queued_dir s ∧ queued_dir s' = queued_dir s.
Proof.
  intros Hturn H.
  assert (Hq : queued_dir s' = queued_dir (apply_queued s)).
  { revert H. unfold snake_step.
    assert (Hd : queued_dir (apply_queued (set_progress (progress s - 1) s))
                 = queued_dir (apply_queued s)).
    { unfold apply_queued. simpl. by destruct (negb _ && _). }
    rewrite <- Hd. intros H.
    destruct (move_to_cell _ _ _ _); [|by injection H as <- _].
    case_if_hyp H; [by injection H as <- _|].
    res_inv H. simpl in H. case_if_hyp H.
    - res_inv H. destruct a0. by injection H as <- _.
    - by injection H as <- _. }
  apply snake_step_heading in H as [-> ->]. rewrite Hq.
  unfold apply_queued. rewrite Hturn, andb_true_r.
  case_bool_decide as Heq; simpl.
  - by rewrite Heq.
  - by rewrite <- surjective_pairing.
Qed.

Lemma snake_loop_turn (fuel : nat) (draws draws' : list (Z * Z))
    (s s' : state) :
  snake_ok s → snake_loop fuel draws s = Ok (s', draws') →
  ((dir_x s', dir_y s') = (dir_x s, dir_y s) ∨
   (dir_x s', dir_y s') = queued_dir s) ∧ queued_dir s' = queued_dir s.
Proof.
  revert draws s. induction fuel as [|fuel IHfuel]; simpl; intros draws s Hok H.
  - case_if_hyp H; [done|]. injection H as <- <-. auto.
  - case_if_hyp H; [|injection H as <- <-; auto].
    apply andb_true_iff in Heqb as [_ Hgo%negb_true_iff].
    res_inv H. destruct a as [s1 draws1].
    pose proof (snake_step_snake _ _ _ _ Hok Hgo Ha) as Hok1.
    apply snake_step_turn in Ha as [Hd Hq]; [|by destruct Hok].
    apply IHfuel in H as [[Hs|Hs] Hq']; [| |done].
    + split; [right|]; congruence.
    + split; [right|]; congruence.
Qed.

Section turns.
Variable collidepoint : Rect → R → R → bool.
Variable colliderect : Rect → Rect → bool.

(** X6.  From one frame boundary of the main cycle to the next the heading
    is never reversed, whatever keys are pressed in between. *)
Theorem frame_never_reverses (apple0 : Z * Z) (ins : list input)
    (i : input) (s s' : state) :
  run collidepoint colliderect ins (initial_state apple0) = Ok s →
  frame collidepoint colliderect i s = Ok s' →
  (dir_x s', dir_y s') ≠ (- dir_x s, - dir_y s).
Proof.
  intros Hrun H.
  apply run_snake_ok in Hrun as Hok; [|apply initial_snake_ok].
  apply frame_game_over in H as (s1 & s2 & s3 & H1 & H2 & H3 & Hsn & _).
  pose proof (handle_events_snake _ _ _ Hok H1) as Hok1.
  apply handle_events_progress in H1 as (_ & Hdx & Hdy).
  unfold move_snake in H2. apply bind_Ok in H2 as ([s2' d2] & Hloop & H2).
  injection H2 as ->.
  apply snake_loop_turn in Hloop as [Hdir _]; [|by apply (snake_ok_same s1)].
  simpl in Hdir.
  assert (H23 : dir_x s3 = dir_x s2 ∧ dir_y s3 = dir_y s2).
  { unfold update_trail in H3. res_inv H3. by injection H3 as <-. }
  destruct H23 as [Hx3 Hy3]. unfold snake_of in Hsn.
  injection Hsn as _ _ -> -> _. rewrite Hx3, Hy3, <- Hdx, <- Hdy.
  destruct Hok1 as [Hh _ Hturn _ _ _ _ _]. destruct Hdir as [-> | ->].
  - clear -Hh. destruct Hh as [Hh|[Hh|[Hh|Hh]]]; injection Hh as -> ->; done.
  - intros Hq. rewrite Hq, can_turn_opposite in Hturn. done.
Qed.

End turns.
(** ** The trim of the trail *)

Lemma segment_lengths_app (o : list pt) (p : pt) (l : list pt) :
  segment_lengths (o ++ p :: l)
  = segment_lengths (o ++ [p]) ++ segment_lengths (p :: l).
Proof.
  induction o as [|a o IHo]; [done|].
  destruct o as [|b o]; [done|].
  change (segment_lengths ((a :: b :: o) ++ p :: l))
    with (hypot (b.1 - a.1) (b.2 - a.2) :: segment_lengths ((b :: o) ++ p :: l)).
  rewrite IHo. done.
Qed.

Lemma segment_lengths_nonneg (pts : list pt) :
  Forall (λ d, (0 <= d)%R) (segment_lengths pts).
Proof.
  induction pts as [|a pts IH]; [constructor|].
  destruct pts as [|b pts]; [constructor|].
  constructor; [apply hypot_nonneg|done].
Qed.

Lemma sum_nonneg (l : list R) :
  Forall (λ d, (0 <= d)%R) l → (0 <= fold_right Rplus 0%R l)%R.
Proof. induction 1; simpl; lra. Qed.

Lemma polyline_length_nonneg (pts : list pt) : (0 <= polyline_length pts)%R.
Proof. apply sum_nonneg, segment_lengths_nonneg. Qed.

Lemma sum_app (l k : list R) :
  fold_right Rplus 0%R (l ++ k)
  = (fold_right Rplus 0 l + fold_right Rplus 0 k)%R.
Proof. induction l as [|d l IHl]; simpl; lra. Qed.

Lemma polyline_length_app (o : list pt) (p : pt) (l : list pt) :
  polyline_length (o ++ p :: l)
  = (polyline_length (o ++ [p]) + polyline_length (p :: l))%R.
Proof. unfold polyline_length. by rewrite segment_lengths_app, sum_app. Qed.

Lemma polyline_length_cons (p q : pt) (l : list pt) :
  polyline_length (p :: q :: l)
  = (hypot (q.1 - p.1) (q.2 - p.2) + polyline_length (q :: l))%R.
Proof. done. Qed.

(** The point [new_tail] that the trim puts on the segment from [q]
    back to [p0]. *)
Definition cut_point (p0 q : pt) (leftover : R) : pt :=
  let seg_len := float_or (hypot (q.1 - p0.1) (q.2 - p0.2)) 1 in
  let t := (leftover / seg_len)%R in
  (q.1 + (p0.1 - q.1) * (1 - t), q.2 + (p0.2 - q.2) * (1 - t))%R.

(** The scan from the newest segment to the oldest: with the points
    [p1 :: new'] behind it and those of [old] ahead, it either leaves
    the deque as it is or cuts the first segment at which the length
    reaches [max_len_px]. *)
Lemma trim_scan_cases (max_len_px : R) (old : list pt) :
  ∀ (p1 : pt) (new' : list pt) (total : R),
    total = polyline_length (p1 :: new') →
    (trim_scan (old ++ p1 :: new') max_len_px total (S (length new'))
       (dists (old ++ [p1])) = Ok (old ++ p1 :: new') ∧
     ((total < max_len_px)%R →
      (polyline_length (old ++ p1 :: new') < max_len_px)%R)) ∨
    (∃ o p0 q kept, old ++ p1 :: new' = o ++ p0 :: q :: kept ∧
       trim_scan (old ++ p1 :: new') max_len_px total (S (length new'))
         (dists (old ++ [p1]))
       = Ok (cut_point p0 q (max_len_px - polyline_length (q :: kept))
             :: q :: kept) ∧
       (max_len_px
        <= polyline_length (q :: kept) + hypot (q.1 - p0.1) (q.2 - p0.2))%R ∧
       ((total < max_len_px)%R →
        (polyline_length (q :: kept) < max_len_px)%R)).
Proof.
  induction old as [|p0 o IHo] using rev_ind; intros p1 new' total Htot.
  { left. split; [done|]. simpl. by rewrite Htot. }
  assert (Hds : dists ((o ++ [p0]) ++ [p1])
                = hypot (p1.1 - p0.1) (p1.2 - p0.2) :: dists (o ++ [p0])).
  { unfold dists. rewrite <- app_assoc. simpl.
    rewrite segment_lengths_app, rev_app_distr. done. }
  rewrite Hds. cbn [trim_scan].
  assert (Hpts : (o ++ [p0]) ++ p1 :: new' = o ++ p0 :: p1 :: new').
  { by rewrite <- app_assoc. }
  case_bool_decide as Hcut.
  - right. exists o, p0, p1, new'. split; [done|].
    replace (length ((o ++ [p0]) ++ p1 :: new') - 1 - S (length new'))%nat
      with (length o) by (rewrite !length_app; simpl; lia).
    assert (H0 : ((o ++ [p0]) ++ p1 :: new') !! length o = Some p0).
    { rewrite Hpts. by apply list_lookup_middle. }
    assert (H1 : ((o ++ [p0]) ++ p1 :: new') !! S (length o) = Some p1).
    { apply list_lookup_middle. rewrite length_app. simpl. lia. }
    assert (Hd : drop (S (length o)) ((o ++ [p0]) ++ p1 :: new') = p1 :: new').
    { apply drop_app_length'. rewrite length_app. simpl. lia. }
    rewrite H0, H1, Hd. clear H0 H1 Hd.
    destruct p0 as [x0 y0], p1 as [x1 y1].
    rewrite py_div_ok by apply float_or_nonzero.
    split_and!; [by rewrite Htot|rewrite <- Htot; simpl in *; lra|by rewrite Htot].
  - assert (Htot' : (total + hypot (p1.1 - p0.1) (p1.2 - p0.2))%R
                    = polyline_length (p0 :: p1 :: new')).
    { rewrite polyline_length_cons, Htot. lra. }
    destruct (IHo p0 (p1 :: new') _ Htot') as [[Hsame Hlt]|Hc].
    + left. rewrite Hpts. split; [done|]. intros _. apply Hlt. lra.
    + right. destruct Hc as (o' & p0' & q & kept & Heq & Hres & Hle & Hlt).
      exists o', p0', q, kept. rewrite Hpts.
      split_and!; [done..|]. intros _. apply Hlt. lra.
Qed.

(** [trim_path_to_length] either leaves the deque as it is, or cuts one
    segment and keeps the points after it. *)
Lemma trim_cases (pts : list pt) (max_len_px : R) :
  (trim_path_to_length pts max_len_px = Ok pts ∧
   ((0 < max_len_px)%R → (polyline_length pts < max_len_px)%R)) ∨
  (∃ o p0 q kept, pts = o ++ p0 :: q :: kept ∧
     trim_path_to_length pts max_len_px
     = Ok (cut_point p0 q (max_len_px - polyline_length (q :: kept))
           :: q :: kept) ∧
     (max_len_px
      <= polyline_length (q :: kept) + hypot (q.1 - p0.1) (q.2 - p0.2))%R ∧
     ((0 < max_len_px)%R → (polyline_length (q :: kept) < max_len_px)%R)).
Proof.
  unfold trim_path_to_length. case_bool_decide as Hlen.
  - left. split; [done|]. destruct pts as [|a [|b pts]]; simpl in Hlen;
      [by unfold polyline_length..|lia].
  - destruct pts as [|p1 old _] using rev_ind; [simpl in Hlen; lia|].
    apply (trim_scan_cases max_len_px old p1 [] 0%R). done.
Qed.

Lemma trim_returns (pts : list pt) (max_len_px : R) :
  ∃ p', trim_path_to_length pts max_len_px = Ok p' ∧ last p' = last pts.
Proof.
  destruct (trim_cases pts max_len_px)
    as [[-> _]|(o & p0 & q & kept & -> & -> & _)].
  - by exists pts.
  - eexists. split; [done|]. by rewrite (last_app_cons o), !last_cons_cons.
Qed.

(** X7.  The trim never fails.  It keeps the newest point as the last one
    and adds no point, and the points after the first of the result are
    the last points of the deque, in their order. *)
Theorem trim_keeps_newest (pts : list pt) (max_len_px : R) :
  ∃ p', trim_path_to_length pts max_len_px = Ok p' ∧
    last p' = last pts ∧ (length p' ≤ length pts)%nat ∧
    tail p' `suffix_of` pts.
Proof.
  destruct (trim_cases pts max_len_px)
    as [[-> _]|(o & p0 & q & kept & -> & -> & _)].
  - exists pts. split_and!; [done..|].
    destruct pts as [|a pts]; [done|]. by exists [a].
  - eexists. split; [done|]. split_and!.
    + rewrite (last_app_cons o), !last_cons_cons. done.
    + rewrite length_app. simpl. lia.
    + exists (o ++ [p0]). by rewrite <- app_assoc.
Qed.

(** X8.  A trail shorter than the budget is left as it is. *)
Theorem trim_short_unchanged (pts : list pt) (max_len_px : R) :
  (polyline_length pts < max_len_px)%R →
  trim_path_to_length pts max_len_px = Ok pts.
Proof.
  intros Hshort.
  destruct (trim_cases pts max_len_px)
    as [[-> _]|(o & p0 & q & kept & -> & _ & Hle & _)]; [done|].
  rewrite polyline_length_app, polyline_length_cons in Hshort.
  pose proof (polyline_length_nonneg (o ++ [p0])). lra.
Qed.

(** The length that is left after a cut. *)
Lemma cut_length (p0 q : pt) (kept : list pt) (max_len_px : R) :
  (polyline_length (q :: kept) < max_len_px)%R →
  (max_len_px
   <= polyline_length (q :: kept) + hypot (q.1 - p0.1) (q.2 - p0.2))%R →
  polyline_length
    (cut_point p0 q (max_len_px - polyline_length (q :: kept)) :: q :: kept)
  = (hypot (q.1 - p0.1) (q.2 - p0.2)
     - (max_len_px - polyline_length (q :: kept))
     + polyline_length (q :: kept))%R.
Proof.
  intros Hlt Hle. rewrite polyline_length_cons. f_equal.
  unfold cut_point, float_or. rewrite bool_decide_eq_false_2 by lra.
  cbn [fst snd]. apply cut_point_mirrored; lra.
Qed.

(** X9.  With a positive budget the trim never makes the trail longer. *)
Theorem trim_never_longer (pts : list pt) (max_len_px : R) :
  (0 < max_len_px)%R →
  ∃ p', trim_path_to_length pts max_len_px = Ok p' ∧
    (polyline_length p' <= polyline_length pts)%R.
Proof.
  intros Hmax.
  destruct (trim_cases pts max_len_px)
    as [[-> _]|(o & p0 & q & kept & -> & -> & Hle & Hlt)].
  - exists pts. split; [done|lra].
  - eexists. split; [done|]. specialize (Hlt Hmax).
    rewrite cut_length by done.
    rewrite polyline_length_app, polyline_length_cons.
    pose proof (polyline_length_nonneg (o ++ [p0])). lra.
Qed.

(** X10.  A trail that has reached a positive budget is cut to the budget
    give or take the length of one segment: when no segment is longer
    than [m], the length that is left is between [max_len_px - m] and
    [max_len_px + m]. *)
Theorem trim_within_a_segment (pts : list pt) (max_len_px m : R) :
  (0 < max_len_px)%R → (max_len_px <= polyline_length pts)%R →
  Forall (λ d, (d <= m)%R) (segment_lengths pts) →
  ∃ p', trim_path_to_length pts max_len_px = Ok p' ∧
    (max_len_px - m <= polyline_length p' <= max_len_px + m)%R.
Proof.
  intros Hmax Hlong Hseg.
  destruct (trim_cases pts max_len_px)
    as [[_ Hlt]|(o & p0 & q & kept & -> & -> & Hle & Hlt)];
    specialize (Hlt Hmax); [lra|].
  eexists. split; [done|]. rewrite cut_length by done.
  rewrite segment_lengths_app in Hseg. apply Forall_app in Hseg as [_ Hseg].
  apply Forall_cons in Hseg as [Hd _]. simpl in Hd. lra.
Qed.

(** ** The trail follows the head *)

Lemma update_trail_last (s s' : state) :
  update_trail s = Ok s' → last (path s') = Some (x s', y s').
Proof.
  unfold update_trail. intros H. res_inv H. injection H as <-. simpl.
  destruct (trim_returns
              (path s ++ [((IZR (grid_x s) - IZR (dir_x s) * (1 - progress s))
                           * IZR SIZE,
                           (IZR (grid_y s) - IZR (dir_y s) * (1 - progress s))
                           * IZR SIZE)%R])
              (IZR (length_cells s * SIZE))) as (p' & Hp' & Hlast).
  simpl in Ha. rewrite Hp' in Ha. injection Ha as <-.
  rewrite Hlast. apply last_snoc.
Qed.

Section trail.
Variable collidepoint : Rect → R → R → bool.
Variable colliderect : Rect → Rect → bool.

(** X11.  At every frame boundary of the main cycle the trail is not empty
    and its newest point is the position of the head. *)
Theorem trail_ends_at_head (apple0 : Z * Z) (ins : list input) (s : state) :
  run collidepoint colliderect ins (initial_state apple0) = Ok s →
  last (path s) = Some (x s, y s).
Proof.
  assert (Hgen : ∀ s0, last (path s0) = Some (x s0, y s0) →
    run collidepoint colliderect ins s0 = Ok s →
    last (path s) = Some (x s, y s)).
  { induction ins as [|i ins IHins]; simpl; intros s0 H0 H.
    - by injection H as <-.
    - res_inv H.
      assert (Ha' : last (path a) = Some (x a, y a)).
      { apply frame_snake in Ha as (s1 & s2 & s3 & _ & _ & H3 & Hsn).
        apply update_trail_last in H3. unfold snake_of in Hsn.
        injection Hsn as _ _ _ _ _ _ -> -> _ -> _ _ _. done. }
      destruct (game_over a).
      + by injection H as <-.
      + by apply (IHins a). }
  apply Hgen. reflexivity.
Qed.

End trail.

(** ** The speed of a projectile *)

Lemma hypot_zero (a b : R) : hypot a b = 0%R → a = 0%R ∧ b = 0%R.
Proof.
  unfold hypot. intros H. apply sqrt_eq_0 in H; [|nra]. split; nra.
Qed.

(** X12.  A shot aimed anywhere but at the centre of the head makes a
    projectile at the centre of the head that flies towards the mouse at
    [BULLET_SPEED]. *)
Theorem fire_speed (hx hy : R) (mouse : Z * Z) :
  (IZR mouse.1, IZR mouse.2) ≠ (hx + IZR SIZE / 2, hy + IZR SIZE / 2)%R →
  ∃ b, fire hx hy mouse = Ok b ∧
    Bullet.pos b = (hx + IZR SIZE / 2, hy + IZR SIZE / 2)%R ∧
    Bullet.hit b = false ∧
    hypot (Bullet.vel b).1 (Bullet.vel b).2 = IZR BULLET_SPEED ∧
    ∃ k, (0 < k)%R ∧
      Bullet.vel b = (k * (IZR mouse.1 - (hx + IZR SIZE / 2)),
                      k * (IZR mouse.2 - (hy + IZR SIZE / 2)))%R.
Proof.
  intros Haim. unfold fire.
  set (vx := (IZR mouse.1 - (hx + IZR SIZE / 2))%R).
  set (vy := (IZR mouse.2 - (hy + IZR SIZE / 2))%R).
  assert (Hd : (0 < hypot vx vy)%R).
  { destruct (Rle_lt_or_eq_dec _ _ (hypot_nonneg vx vy)) as [|Hz]; [done|].
    symmetry in Hz. apply hypot_zero in Hz as [Hx Hy]. exfalso. apply Haim.
    unfold vx, vy in *. f_equal; lra. }
  unfold float_or. rewrite bool_decide_eq_false_2 by lra.
  rewrite !py_div_ok by lra. simpl. eexists. split; [done|]. simpl.
  split_and!; [done|done| |].
  - replace (vx / hypot vx vy * IZR BULLET_SPEED)%R
      with (IZR BULLET_SPEED / hypot vx vy * vx)%R by (field; lra).
    replace (vy / hypot vx vy * IZR BULLET_SPEED)%R
      with (IZR BULLET_SPEED / hypot vx vy * vy)%R by (field; lra).
    rewrite hypot_scale. change (IZR BULLET_SPEED) with 700%R.
    rewrite Rabs_right.
    + field. lra.
    + apply Rle_ge, Rlt_le, Rdiv_lt_0_compat; lra.
  - exists (IZR BULLET_SPEED / hypot vx vy)%R. split.
    + change (IZR BULLET_SPEED) with 700%R. apply Rdiv_lt_0_compat; lra.
    + f_equal; field; lra.
Qed.

(** ** Projectiles from frame to frame *)

Lemma snake_step_bullets (draws draws' : list (Z * Z)) (s s' : state) :
  snake_step draws s = Ok (s', draws') →
  bullets s' = bullets s ∧ last_spawn_time s' = last_spawn_time s.
Proof.
  unfold snake_step. intros H.
  assert (Hb : bullets (apply_queued (set_progress (progress s - 1) s))
               = bullets s ∧
               last_spawn_time (apply_queued (set_progress (progress s - 1) s))
               = last_spawn_time s).
  { unfold apply_queued. simpl. by destruct (negb _ && _). }
  destruct Hb as [<- <-].
  destruct (move_to_cell _ _ _ _); [|by injection H as <- _].
  case_if_hyp H; [by injection H as <- _|].
  res_inv H. simpl in H. case_if_hyp H.
  - res_inv H. destruct a0. by injection H as <- _.
  - by injection H as <- _.
Qed.

Lemma snake_loop_bullets (fuel : nat) (draws draws' : list (Z * Z))
    (s s' : state) :
  snake_loop fuel draws s = Ok (s', draws') →
  bullets s' = bullets s ∧ last_spawn_time s' = last_spawn_time s.
Proof.
  revert draws s. induction fuel as [|fuel IHfuel]; simpl; intros draws s H.
  - case_if_hyp H; [done|]. by injection H as <- _.
  - case_if_hyp H; [|by injection H as <- _].
    res_inv H. destruct a as [s1 draws1].
    apply snake_step_bullets in Ha as [Hb Ht].
    apply IHfuel in H as [-> ->]. done.
Qed.

Lemma move_snake_bullets (dt : R) (draws : list (Z * Z)) (s s' : state) :
  move_snake dt draws s = Ok s' →
  bullets s' = bullets s ∧ last_spawn_time s' = last_spawn_time s.
Proof.
  unfold move_snake. intros H. res_inv H. destruct a as [s1 d1].
  injection H as <-. by apply snake_loop_bullets in Ha.
Qed.

Lemma update_trail_bullets (s s' : state) :
  update_trail s = Ok s' →
  bullets s' = bullets s ∧ last_spawn_time s' = last_spawn_time s.
Proof. unfold update_trail. intros H. res_inv H. by injection H as <-. Qed.

Lemma spawn_bullets (i : input) (s s' : state) :
  spawn i s = Ok s' → bullets s' = bullets s.
Proof.
  unfold spawn. intros H. case_if_hyp H.
  - res_inv H. by injection H as <-.
  - by injection H as <-.
Qed.

Section projectiles.
Variable collidepoint : Rect → R → R → bool.
Variable colliderect : Rect → Rect → bool.

Lemma collide_bullets (s : state) :
  bullets (collide collidepoint s)
  = (combat collidepoint (bullets s) (enemies s)).1.
Proof. unfold collide. by destruct (combat _ _ _). Qed.

Lemma combat_bullets_Forall (P : Bullet.t → Prop) (bs : list Bullet.t)
    (es : list Enemy.t) :
  (∀ b, P b → Bullet.hit b = false → P (mark_hit b)) →
  Forall P bs → Forall P (combat collidepoint bs es).1.
Proof.
  intros HP. revert es. induction bs as [|b bs IHbs]; simpl; intros es Hbs;
    [done|].
  apply Forall_cons in Hbs as [Hb Hbs].
  assert (Hb' : P (combat_bullet collidepoint b es).1).
  { unfold combat_bullet. destruct (Bullet.hit b) eqn:Hhit; [done|].
    destruct (strike _ _ _ _); [|done]. by apply HP. }
  destruct (combat_bullet collidepoint b es) as [b' es1]. simpl in Hb'.
  specialize (IHbs es1 Hbs).
  destruct (combat collidepoint bs es1) as [bs' es2]. by constructor.
Qed.

(** How a property of the projectiles passes through a frame: [Q] is
    what is known before the update pass, of the projectiles of the
    last frame and of those fired in this one, and [P] what is known
    after it. *)
Lemma frame_bullets (P Q : Bullet.t → Prop) (i : input) (s s' : state) :
  (∀ b, P b → Q b) →
  (∀ hx hy m b, fire hx hy m = Ok b → Q b) →
  (∀ b b', Q b → update_bullet (in_dt i) b = Some b' → P b') →
  (∀ b, P b → Bullet.hit b = false → P (mark_hit b)) →
  Forall P (bullets s) → frame collidepoint colliderect i s = Ok s' →
  Forall P (bullets s').
Proof.
  intros HPQ Hfire Hup Hmark Hs H.
  apply frame_phases in H
    as (s1 & s2 & s3 & s5 & s6 & H1 & H2 & H3 & H5 & H6 & ->).
  assert (HQ1 : Forall Q (bullets s1)).
  { assert (HQ : Forall Q (bullets s)) by (by eapply Forall_impl).
    clear -H1 HQ Hfire. revert s H1 HQ.
    induction (in_events i) as [|ev evs IHevs]; simpl; intros s H1 HQ.
    - by injection H1 as <-.
    - res_inv H1. apply (IHevs a); [done|].
      destruct ev as [|k|button mouse|]; simpl in Ha; try discriminate.
      + case_if_hyp Ha; by injection Ha as <-.
      + case_if_hyp Ha; [|by injection Ha as <-].
        res_inv Ha. injection Ha as <-. simpl.
        apply Forall_app. split; [done|]. constructor; [|done].
        by eapply Hfire.
      + by injection Ha as <-. }
  apply move_snake_bullets in H2 as [H2 _].
  apply update_trail_bullets in H3 as [H3 _].
  apply spawn_bullets in H5. simpl in H5.
  apply move_enemies_snake in H6 as (_ & _ & H6).
  destruct (check_head_snake colliderect (collide collidepoint s6))
    as (_ & _ & -> & _).
  rewrite collide_bullets. apply combat_bullets_Forall; [done|].
  rewrite H6, H5. unfold update_bullets. rewrite H3, H2.
  clear -HQ1 Hup. induction HQ1 as [|b bs Hb Hbs IH]; simpl; [done|].
  destruct (update_bullet (in_dt i) b) as [b'|] eqn:Hb'; [|done].
  constructor; [by apply (Hup b)|done].
Qed.

(** The window with its margin of 50 pixels. *)
Definition in_margin (p : pt) : Prop :=
  (-50 <= p.1 <= IZR RES + 50)%R ∧ (-50 <= p.2 <= IZR RES + 50)%R.

Lemma update_bullet_margin (dt : R) (b b' : Bullet.t) :
  (Bullet.hit b = true → in_margin (Bullet.pos b)) →
  update_bullet dt b = Some b' → in_margin (Bullet.pos b').
Proof.
  unfold update_bullet. intros Hb H. destruct (Bullet.hit b); simpl in H.
  - case_if_hyp H; [done|]. injection H as <-. by apply Hb.
  - case_if_hyp H; [done|]. injection H as <-. simpl.
    apply orb_false_iff in Heqb0 as [Heqb0 H4%bool_decide_eq_false].
    apply orb_false_iff in Heqb0 as [Heqb0 H3%bool_decide_eq_false].
    apply orb_false_iff in Heqb0
      as [H1%bool_decide_eq_false H2%bool_decide_eq_false].
    unfold in_margin. simpl in *. lra.
Qed.

(** X13.  At every frame boundary of the main cycle every projectile is in
    the window or within 50 pixels of it. *)
Theorem bullets_stay_in_margin (apple0 : Z * Z) (ins : list input)
    (s : state) :
  run collidepoint colliderect ins (initial_state apple0) = Ok s →
  ∀ b, b ∈ bullets s → in_margin (Bullet.pos b).
Proof.
  intros Hrun.
  assert (Hgen : ∀ s0, Forall (λ b, in_margin (Bullet.pos b)) (bullets s0) →
    run collidepoint colliderect ins s0 = Ok s →
    Forall (λ b, in_margin (Bullet.pos b)) (bullets s)).
  { clear Hrun. induction ins as [|i ins IHins]; simpl; intros s0 H0 H.
    - by injection H as <-.
    - res_inv H.
      apply (frame_bullets (λ b, in_margin (Bullet.pos b))
               (λ b, Bullet.hit b = true → in_margin (Bullet.pos b)))
        in Ha; [| | | | |done].
      + destruct (game_over a); [by injection H as <-|by apply (IHins a)].
      + done.
      + intros hx hy m b Hb. unfold fire in Hb. res_inv Hb. res_inv Hb.
        by injection Hb as <-.
      + intros b b'. apply update_bullet_margin.
      + done. }
  intros b Hb. specialize (Hgen (initial_state apple0) (Forall_nil_2 _) Hrun).
  rewrite Forall_forall in Hgen. by apply Hgen.
Qed.

(** A projectile in flight is as it was fired; one that has hit stands
    still and fades. *)
Record bullet_ok (b : Bullet.t) : Prop := {
  flying_r : Bullet.hit b = false → Bullet.r b = IZR BULLET_RADIUS;
  flying_alpha : Bullet.hit b = false → Bullet.alpha b = 255;
  flying_t_hit : Bullet.hit b = false → Bullet.t_hit b = 0%R;
  fading_vel : Bullet.hit b = true → Bullet.vel b = (0, 0)%R;
  fading_t_hit :
    Bullet.hit b = true → (0 <= Bullet.t_hit b < BULLET_FADE_TIME)%R;
  fading_alpha : Bullet.hit b = true → 0 ≤ Bullet.alpha b ≤ 255;
  fading_r :
    Bullet.hit b = true →
    (IZR BULLET_RADIUS <= Bullet.r b < 1.6 * IZR BULLET_RADIUS)%R
}.

Lemma py_int_bounds (r : R) (n : Z) :
  (0 <= r <= IZR n)%R → 0 ≤ py_int r ≤ n.
Proof.
  intros [H0 Hn]. unfold py_int. rewrite bool_decide_eq_true_2 by done.
  destruct (base_Int_part r) as [Hle Hgt]. split.
  - assert (Hlt : (IZR (-1) < IZR (Int_part r))%R) by (simpl; lra).
    apply lt_IZR in Hlt. lia.
  - apply le_IZR. lra.
Qed.

Lemma update_bullet_ok (dt : R) (b b' : Bullet.t) :
  (0 <= dt)%R → bullet_ok b → update_bullet dt b = Some b' → bullet_ok b'.
Proof.
  intros Hdt [H1 H2 H3 H4 H5 H6 H7]. unfold update_bullet.
  destruct (Bullet.hit b) eqn:Hhit; simpl; intros H.
  - case_bool_decide as Hfade; [done|]. injection H as <-.
    specialize (H5 eq_refl). specialize (H4 eq_refl).
    split; simpl; rewrite ?Hhit; try done; intros _;
      unfold BULLET_FADE_TIME in *; change (IZR BULLET_RADIUS) with 5%R in *.
    + lra.
    + assert (Hb : 0 ≤ py_int (255 * (1 - (Bullet.t_hit b + dt) / 0.25)) ≤ 255).
      { apply py_int_bounds. split.
        - apply Rmult_le_pos; [lra|]. lra.
        - assert ((Bullet.t_hit b + dt) / 0.25 >= 0)%R; [|lra].
          apply Rle_ge. apply Rmult_le_pos; lra. }
      lia.
    + lra.
  - case_if_hyp H; [done|]. injection H as <-.
    split; simpl; rewrite ?Hhit; auto.
Qed.

(** X14.  When no frame takes negative time, at every frame boundary a
    projectile that has not hit has the radius, the opacity and the
    clock it was fired with, and one that has hit has no velocity, has
    been fading for less than [BULLET_FADE_TIME], and has an opacity
    from 0 to 255 and a radius of less than 1.6 times
    [BULLET_RADIUS]. *)
Theorem bullets_fly_or_fade (apple0 : Z * Z) (ins : list input) (s : state) :
  Forall (λ i, (0 <= in_dt i)%R) ins →
  run collidepoint colliderect ins (initial_state apple0) = Ok s →
  ∀ b, b ∈ bullets s → bullet_ok b.
Proof.
  intros Hdt Hrun.
  assert (Hgen : ∀ s0, Forall bullet_ok (bullets s0) →
    run collidepoint colliderect ins s0 = Ok s → Forall bullet_ok (bullets s)).
  { clear Hrun. induction ins as [|i ins IHins]; simpl; intros s0 H0 H.
    - by injection H as <-.
    - apply Forall_cons in Hdt as [Hi Hdt]. res_inv H.
      apply (frame_bullets bullet_ok bullet_ok) in Ha; [| | | | |done].
      + destruct (game_over a); [by injection H as <-|by apply (IHins Hdt a)].
      + done.
      + intros hx hy m b Hb. unfold fire in Hb. res_inv Hb. res_inv Hb.
        injection Hb as <-. by split.
      + intros b b'. by apply update_bullet_ok.
      + intros b [H1 H2 H3 H4 H5 H6 H7] Hhit.
        split; simpl; try done; intros _.
        * unfold BULLET_FADE_TIME. lra.
        * rewrite H1 by done. change (IZR BULLET_RADIUS) with 5%R. lra. }
  intros b Hb. specialize (Hgen (initial_state apple0) (Forall_nil_2 _) Hrun).
  rewrite Forall_forall in Hgen. by apply Hgen.
Qed.

End projectiles.

(** ** What the collision pass conserves *)

(** The number of projectiles that are marked hit. *)
Definition hit_count (bs : list Bullet.t) : Z :=
  foldr (λ b n, (if Bullet.hit b then 1 else 0) + n) 0 bs.

Section conservation.
Variable collidepoint : Rect → R → R → bool.
Variable colliderect : Rect → Rect → bool.

Lemma strike_length (bx by_ : R) (es es' : list Enemy.t) :
  strike collidepoint bx by_ es = Some es' → (length es' ≤ length es)%nat.
Proof.
  intros H. apply strike_spec in H as (l1 & e & l2 & -> & _ & _ & ->).
  rewrite !length_app. simpl. case_bool_decide; simpl; lia.
Qed.

Lemma combat_bullet_step (b : Bullet.t) (es : list Enemy.t) :
  Forall alive es →
  Forall alive (combat_bullet collidepoint b es).2 ∧
  (length (combat_bullet collidepoint b es).2 ≤ length es)%nat ∧
  total_hp es - total_hp (combat_bullet collidepoint b es).2
  = (if Bullet.hit (combat_bullet collidepoint b es).1 then 1 else 0)
    - (if Bullet.hit b then 1 else 0).
Proof.
  intros Hal. split.
  { apply combat_bullet_Forall; [|done]. unfold alive. simpl. intros e He Hn. lia. }
  unfold combat_bullet. destruct (Bullet.hit b) eqn:Hhit.
  { simpl. rewrite Hhit. split; lia. }
  destruct (strike _ _ _ _) as [es'|] eqn:Hs; simpl.
  - split; [by apply strike_length in Hs|].
    apply strike_total_hp in Hs; [lia|done].
  - rewrite Hhit. split; lia.
Qed.

(** X15.  The collision pass keeps every projectile in its place, adds no
    agent, and takes from the agents one point of [hp] for each
    projectile that it marks hit. *)
Theorem combat_conserves (bs : list Bullet.t) (es : list Enemy.t) :
  Forall alive es →
  length (combat collidepoint bs es).1 = length bs ∧
  (length (combat collidepoint bs es).2 ≤ length es)%nat ∧
  total_hp es - total_hp (combat collidepoint bs es).2
  = hit_count (combat collidepoint bs es).1 - hit_count bs.
Proof.
  revert es. induction bs as [|b bs IHbs]; simpl; intros es Hal.
  { split_and!; [done|lia|lia]. }
  destruct (combat_bullet_step b es Hal) as (Hal1 & Hlen1 & Hhp1).
  destruct (combat_bullet collidepoint b es) as [b' es1]. simpl in *.
  destruct (IHbs es1 Hal1) as (Hlen & Hlen2 & Hhp).
  destruct (combat collidepoint bs es1) as [bs' es2]. simpl in *.
  split_and!; [by rewrite Hlen|lia|lia].
Qed.

End conservation.

(** ** Where and how agents enter *)

(** X16.  [spawn_enemy] puts the agent on a border cell of the grid, at the
    centre of that cell, with the [hp] and the speed of its kind and no
    path yet. *)
Theorem spawn_enemy_on_border (sd : side) (coord : Z) (kind : nat) :
  0 ≤ coord < CELLS → (kind < 3)%nat →
  ∃ e, spawn_enemy sd coord kind = Ok e ∧
    in_grid (Enemy.cell e) = true ∧
    ((Enemy.cell e).1 = 0 ∨ (Enemy.cell e).1 = CELLS - 1 ∨
     (Enemy.cell e).2 = 0 ∨ (Enemy.cell e).2 = CELLS - 1) ∧
    Enemy.pos e = (IZR ((Enemy.cell e).1 * SIZE) + IZR SIZE / 2,
                   IZR ((Enemy.cell e).2 * SIZE) + IZR SIZE / 2)%R ∧
    Enemy.path e = [] ∧
    (Enemy.hp e, Enemy.speed_px e)
      ∈ [(1, 15 * SIZE); (3, 5 * SIZE); (15, 2 * SIZE)].
Proof.
  intros Hc Hk. unfold spawn_enemy, Enemy.init. change CELLS with 40 in *.
  destruct kind as [|[|[|kind]]]; [| | |lia]; simpl;
    (eexists; split; [done|]; simpl; split_and!;
      [apply AstarFacts.in_grid_spec; change CELLS with 40;
       destruct sd; simpl; lia
      |destruct sd; simpl; auto
      |done|done|]).
  - apply elem_of_cons. by left.
  - apply elem_of_cons. right. apply elem_of_cons. by left.
  - do 2 (apply elem_of_cons; right). apply elem_of_cons. by left.
Qed.

Lemma handle_event_spawn_time (s s' : state) (ev : event) :
  handle_event s ev = Ok s' → last_spawn_time s' = last_spawn_time s.
Proof.
  destruct ev as [|k|button mouse|]; simpl; intros H; try discriminate.
  - case_if_hyp H; by injection H as <-.
  - case_if_hyp H.
    + res_inv H. by injection H as <-.
    + by injection H as <-.
  - by injection H as <-.
Qed.

Lemma handle_events_spawn_time (evs : list event) (s s' : state) :
  handle_events evs s = Ok s' → last_spawn_time s' = last_spawn_time s.
Proof.
  revert s. induction evs as [|ev evs IHevs]; simpl; intros s H.
  - by injection H as <-.
  - res_inv H. apply handle_event_spawn_time in Ha. apply IHevs in H.
    congruence.
Qed.

Lemma update_enemies_length (dt : R) (target : Z * Z) (blocked : gset (Z * Z))
    (es es' : list Enemy.t) :
  update_enemies dt target blocked es = Ok es' → length es' = length es.
Proof.
  revert es'. induction es as [|e es IHes]; simpl; intros es' H.
  - by injection H as <-.
  - res_inv H. res_inv H. injection H as <-. simpl. f_equal. by apply IHes.
Qed.

Section spawning.
Variable collidepoint : Rect → R → R → bool.
Variable colliderect : Rect → Rect → bool.

Lemma combat_length (bs : list Bullet.t) (es : list Enemy.t) :
  (length (combat collidepoint bs es).2 ≤ length es)%nat.
Proof.
  revert es. induction bs as [|b bs IHbs]; simpl; intros es; [done|].
  assert (Hb : (length (combat_bullet collidepoint b es).2 ≤ length es)%nat).
  { unfold combat_bullet. destruct (Bullet.hit b); [done|].
    destruct (strike _ _ _ _) as [es'|] eqn:Hs; [|done].
    by apply strike_length in Hs. }
  destruct (combat_bullet collidepoint b es) as [b' es1]. simpl in Hb.
  specialize (IHbs es1).
  destruct (combat collidepoint bs es1) as [bs' es2]. simpl in *. lia.
Qed.

(** X17.  A frame appends an agent exactly when [ENEMY_SPAWN_EVERY]
    seconds of the clock have passed since the last one was appended
    and the move of the snake has not ended the game: then the agent
    that [spawn_enemy] makes is appended to [enemies] and the clock of
    the spawn is set to [now]; otherwise no agent is appended and the
    clock of the spawn is left as it is.  The later phases of the
    frame add no agent. *)
Theorem spawn_rate (i : input) (s s' : state) :
  frame collidepoint colliderect i s = Ok s' →
  ∃ s1 s2 s3 s5,
    handle_events (in_events i) s = Ok s1 ∧
    move_snake (in_dt i) (in_apples i) s1 = Ok s2 ∧
    update_trail s2 = Ok s3 ∧
    spawn i (set_bullets (update_bullets (in_dt i) (bullets s3)) s3) = Ok s5 ∧
    ((in_now i - last_spawn_time s >= ENEMY_SPAWN_EVERY)%R ∧
     game_over s2 = false →
     ∃ e0, spawn_enemy (in_side i) (in_coord i) (in_kind i) = Ok e0 ∧
       enemies s5 = enemies s ++ [e0] ∧ last_spawn_time s' = in_now i) ∧
    (¬ (in_now i - last_spawn_time s >= ENEMY_SPAWN_EVERY)%R ∨
     game_over s2 = true →
     enemies s5 = enemies s ∧ last_spawn_time s' = last_spawn_time s) ∧
    (length (enemies s') ≤ length (enemies s5))%nat.
Proof.
  intros H. apply frame_phases in H
    as (s1 & s2 & s3 & s5 & s6 & H1 & H2 & H3 & H5 & H6 & ->).
  exists s1, s2, s3, s5. split_and!; [done..| | |].
  all: pose proof (handle_events_world _ _ _ H1) as [_ He1].
  all: pose proof (handle_events_spawn_time _ _ _ H1) as Ht1.
  all: pose proof (move_snake_enemies _ _ _ _ H2) as He2.
  all: pose proof (move_snake_bullets _ _ _ _ H2) as [_ Ht2].
  all: pose proof (update_trail_world _ _ H3) as [_ He3].
  all: pose proof (update_trail_bullets _ _ H3) as [_ Ht3].
  all: pose proof (update_trail_game_over _ _ H3) as Hg3.
  all: assert (He : enemies s3 = enemies s) by congruence.
  all: assert (Ht : last_spawn_time s3 = last_spawn_time s) by congruence.
  all: assert (H6' : length (enemies s6) = length (enemies s5) ∧
                     last_spawn_time s6 = last_spawn_time s5);
    [unfold move_enemies in H6; apply bind_Ok in H6 as (es & Hes & H6);
     injection H6 as <-; simpl; split; [|done];
     by apply update_enemies_length in Hes|].
  all: destruct H6' as [Hlen6 Ht6].
  all: assert (Hend : (length (enemies (check_head colliderect
                                          (collide collidepoint s6)))
                       ≤ length (enemies s6))%nat ∧
                      last_spawn_time (check_head colliderect
                                         (collide collidepoint s6))
                      = last_spawn_time s6);
    [split;
     [destruct (check_head_snake colliderect (collide collidepoint s6))
        as (_ & -> & _); rewrite collide_enemies; apply combat_length
     |unfold check_head, collide; destruct (combat _ _ _);
      by destruct (head_contact _ _ _)]|].
  all: destruct Hend as [Hlen Htime]; rewrite ?Htime, ?Ht6.
  all: unfold spawn in H5; simpl in H5; rewrite Ht, Hg3 in H5.
  - intros [Hnow Hgo]. rewrite Hgo, bool_decide_eq_true_2 in H5 by done.
    simpl in H5. apply bind_Ok in H5 as (e0 & Hinit & H5).
    injection H5 as <-. simpl. exists e0. by rewrite He.
  - intros Hno.
    assert (Hcond : bool_decide (in_now i - last_spawn_time s
                                 >= ENEMY_SPAWN_EVERY)%R
                    && negb (game_over s2) = false).
    { destruct Hno as [Hno| ->]; [|by rewrite andb_false_r].
      by rewrite bool_decide_eq_false_2. }
    rewrite Hcond in H5. injection H5 as <-. simpl. by rewrite He.
  - lia.
Qed.

End spawning.

(** ** How an agent moves *)

(** [Enemy.update] up to the move: the path, the index and the timer
    after the repath, if any. *)
Lemma Enemy_update_repath (dt : R) (target : Z * Z) (blocked : gset (Z * Z))
    (e e' : Enemy.t) :
  Enemy.update dt target blocked e = Ok e' →
  ∃ p idx,
    ((Astar.astar (Enemy.cell e) target blocked = Some p ∧
      idx = (if bool_decide (1 < length p)%nat then 1%nat else 0%nat)) ∨
     (p = Enemy.path e ∧ idx = Enemy.next_idx e ∧ Enemy.path e ≠ [])) ∧
    Enemy.path e' = p ∧ Enemy.speed_px e' = Enemy.speed_px e ∧
    match p !! idx with
    | None =>
        Enemy.cell e' = Enemy.cell e ∧ Enemy.pos e' = Enemy.pos e ∧
        Enemy.next_idx e' = idx
    | Some nxt =>
        let target_px := (IZR (nxt.1 * SIZE) + IZR SIZE / 2,
                          IZR (nxt.2 * SIZE) + IZR SIZE / 2)%R in
        let dx := (target_px.1 - (Enemy.pos e).1)%R in
        let dy := (target_px.2 - (Enemy.pos e).2)%R in
        let dist := hypot dx dy in
        let step := (IZR (Enemy.speed_px e) * dt)%R in
        (Enemy.cell e' = Enemy.cell e ∧ Enemy.pos e' = Enemy.pos e ∧
         Enemy.next_idx e' = idx ∧ (dist <= 1e-6)%R) ∨
        (Enemy.cell e' = nxt ∧ Enemy.pos e' = target_px ∧
         Enemy.next_idx e' = S idx ∧ (1e-6 < dist <= step)%R) ∨
        (Enemy.cell e' = Enemy.cell e ∧
         Enemy.pos e' = ((Enemy.pos e).1 + dx / dist * step,
                         (Enemy.pos e).2 + dy / dist * step)%R ∧
         Enemy.next_idx e' = idx ∧ (1e-6 < dist)%R ∧ (step < dist)%R)
    end.
Proof.
  unfold Enemy.update. intros H. apply bind_Ok in H as (e1 & H1 & H).
  assert (He1 : ∃ p idx,
    ((Astar.astar (Enemy.cell e) target blocked = Some p ∧
      idx = (if bool_decide (1 < length p)%nat then 1%nat else 0%nat)) ∨
     (p = Enemy.path e ∧ idx = Enemy.next_idx e ∧ Enemy.path e ≠ [])) ∧
    Enemy.path e1 = p ∧ Enemy.next_idx e1 = idx ∧
    Enemy.speed_px e1 = Enemy.speed_px e ∧ Enemy.cell e1 = Enemy.cell e ∧
    Enemy.pos e1 = Enemy.pos e).
  { case_if_hyp H1.
    - destruct (Astar.astar _ _ _) as [p|]; [|done]. injection H1 as <-.
      eexists _, _. split; [left; done|done].
    - apply orb_false_iff in Heqb as [_ Hne%bool_decide_eq_false].
      injection H1 as <-. eexists _, _. split; [right; done|done]. }
  destruct He1 as (p & idx & Hp & Hpath & Hidx & Hspd & Hcell & Hpos).
  exists p, idx. split; [done|]. clear H1 Hp.
  rewrite Hpath, Hidx, Hspd, Hpos in H.
  destruct (p !! idx) as [nxt|].
  2:{ injection H as <-. by split_and!. }
  cbn zeta in *. case_bool_decide as Hdist.
  2:{ injection H as <-. split_and!; [done..|]. left. split_and!; [done..|lra]. }
  case_bool_decide as Hstep.
  - injection H as <-. simpl in *. split_and!; [done..|]. right. left.
    rewrite <- surjective_pairing. split_and!; [done..|lra].
  - rewrite !py_div_ok in H by lra. injection H as <-. simpl in *.
    split_and!; [done..|]. right. right. split_and!; [done..|lra|lra].
Qed.

(** Every answer of [astar] starts at [start], unless it is empty, and
    goes by single steps. *)
Lemma astar_chain (start goal : Z * Z) (blocked : gset (Z * Z)) :
  ∃ p, Astar.astar start goal blocked = Some p ∧ chain p ∧
    (p = [] ∨ head p = Some start).
Proof.
  destruct (in_grid start) eqn:Hs.
  2:{ exists []. unfold Astar.astar. rewrite Hs. simpl.
      split_and!; [done| |by left]. by intros i c1 c2 ?. }
  destruct (in_grid goal) eqn:Hg.
  2:{ exists []. unfold Astar.astar. rewrite Hs, Hg. simpl.
      split_and!; [done| |by left]. by intros i c1 c2 ?. }
  destruct (AstarFacts.astar_answer start goal blocked Hs Hg)
    as (p & Hp & [[-> _]|[Hw _]]).
  - exists [start]. split_and!; [done| |by right].
    intros i c1 c2 _ H2. by destruct i.
  - exists p. split_and!; [done| |right; apply Hw].
    destruct Hw as (_ & _ & Hstep). intros i c1 c2 H1 H2.
    by destruct (Hstep i c1 c2 H1 H2).
Qed.

(** [Enemy.update] always returns: the search ends, and the division
    by the distance is made only when the distance is not zero. *)
Lemma Enemy_update_total (dt : R) (target : Z * Z) (blocked : gset (Z * Z))
    (e : Enemy.t) :
  ∃ e', Enemy.update dt target blocked e = Ok e'.
Proof.
  unfold Enemy.update.
  destruct (astar_chain (Enemy.cell e) target blocked) as (p & -> & _).
  destruct (_ || _); simpl;
    (match goal with |- context [?l !! ?i] => destruct (l !! i) end;
     [|eauto]; case_bool_decide; [|eauto]; case_bool_decide; [eauto|];
     rewrite !py_div_ok by lra; simpl; eauto).
Qed.

(** X18.  In a call of [Enemy.update] an agent moves no farther than its
    speed allows in the time of the frame. *)
Theorem agent_speed_limit (dt : R) (target : Z * Z) (blocked : gset (Z * Z))
    (e : Enemy.t) :
  (0 <= dt)%R → 0 ≤ Enemy.speed_px e →
  ∃ e', Enemy.update dt target blocked e = Ok e' ∧
    (hypot ((Enemy.pos e').1 - (Enemy.pos e).1)
           ((Enemy.pos e').2 - (Enemy.pos e).2)
     <= IZR (Enemy.speed_px e) * dt)%R.
Proof.
  intros Hdt Hspd.
  destruct (Enemy_update_total dt target blocked e) as [e' H].
  exists e'. split; [done|].
  assert (Hstep : (0 <= IZR (Enemy.speed_px e) * dt)%R).
  { apply Rmult_le_pos; [by apply IZR_le|done]. }
  assert (Hstill : Enemy.pos e' = Enemy.pos e →
    (hypot ((Enemy.pos e').1 - (Enemy.pos e).1)
           ((Enemy.pos e').2 - (Enemy.pos e).2)
     <= IZR (Enemy.speed_px e) * dt)%R).
  { intros ->. by rewrite !Rminus_diag, hypot_0_0. }
  apply Enemy_update_repath in H as (p & idx & _ & _ & _ & H).
  destruct (p !! idx) as [nxt|]; [|apply Hstill; by destruct H as (_ & ? & _)].
  cbn zeta in H.
  destruct H as [(_ & Hpos & _)|[(_ & Hpos & _ & Hd)|(_ & Hpos & _ & Hd & Hlt)]].
  - by apply Hstill.
  - rewrite Hpos. simpl in *. lra.
  - rewrite Hpos. cbn [fst snd] in *.
    set (dx := (IZR (nxt.1 * SIZE) + IZR SIZE / 2 - (Enemy.pos e).1)%R) in *.
    set (dy := (IZR (nxt.2 * SIZE) + IZR SIZE / 2 - (Enemy.pos e).2)%R) in *.
    set (step := (IZR (Enemy.speed_px e) * dt)%R) in *.
    replace ((Enemy.pos e).1 + dx / hypot dx dy * step - (Enemy.pos e).1)%R
      with (step / hypot dx dy * dx)%R by (field; lra).
    replace ((Enemy.pos e).2 + dy / hypot dx dy * step - (Enemy.pos e).2)%R
      with (step / hypot dx dy * dy)%R by (field; lra).
    rewrite hypot_scale, Rabs_right.
    + apply Req_le. field. lra.
    + apply Rle_ge. apply Rmult_le_pos; [done|].
      apply Rlt_le, Rinv_0_lt_compat. lra.
Qed.

(** What [Enemy.update] keeps true of the path of an agent: its cells
    follow one another by single steps, and the agent is at the cell
    before the one it is heading to. *)
Record agent_walks (e : Enemy.t) : Prop := {
  walks_chain : chain (Enemy.path e);
  walks_at :
    Enemy.path e = [] ∨
    Enemy.path e !! pred (Enemy.next_idx e) = Some (Enemy.cell e)
}.

Lemma Enemy_init_walks (kind : nat) (c : Z * Z) (e : Enemy.t) :
  Enemy.init kind c = Ok e → agent_walks e.
Proof.
  unfold Enemy.init. destruct (Enemy.TYPES !! kind) as [[[[nm h] spd] col]|];
    [|done].
  intros [= <-]. split; simpl; [by intros i c1 c2 ?|by left].
Qed.

(** X19.  [Enemy.update] always returns, and it leaves the agent in its cell
    or takes it to a 4-adjacent one. *)
Theorem agent_steps_to_neighbour (dt : R) (target : Z * Z)
    (blocked : gset (Z * Z)) (e : Enemy.t) :
  agent_walks e →
  ∃ e', Enemy.update dt target blocked e = Ok e' ∧ agent_walks e' ∧
    (Enemy.cell e' = Enemy.cell e ∨
     AstarFacts.adjacent (Enemy.cell e) (Enemy.cell e')).
Proof.
  intros [Hchain Hat].
  pose proof (Enemy_update_total dt target blocked e) as Htotal.
  destruct Htotal as [e' He']. exists e'. split; [done|].
  apply Enemy_update_repath in He' as (p & idx & Hp & Hpath & _ & H).
  assert (Hp' : chain p ∧ (p = [] ∨ p !! pred idx = Some (Enemy.cell e))).
  { destruct Hp as [[Hp ->]|(-> & -> & Hne)].
    - destruct (astar_chain (Enemy.cell e) target blocked)
        as (p' & Hp' & Hc & Hh).
      rewrite Hp in Hp'. injection Hp' as <-. split; [done|].
      destruct Hh as [->|Hh]; [by left|]. right.
      rewrite head_lookup in Hh. by case_bool_decide.
    - split; [done|exact Hat]. }
  destruct Hp' as [Hc Hidx].
  destruct (p !! idx) as [nxt|] eqn:Hnxt.
  - cbn zeta in H.
    destruct H as [(Hcell & _ & Hi & _)|[(Hcell & _ & Hi & _)
                                        |(Hcell & _ & Hi & _)]].
    + split; [split; rewrite Hpath, ?Hi, ?Hcell; auto|by left].
    + split; [split; rewrite Hpath, ?Hi, ?Hcell; auto|].
      destruct Hidx as [->|Hidx]; [done|].
      destruct idx as [|k]; simpl in Hidx.
      * left. congruence.
      * right. rewrite Hcell. by apply (Hc k).
    + split; [split; rewrite Hpath, ?Hi, ?Hcell; auto|by left].
  - destruct H as (Hcell & _ & Hi).
    split; [split; rewrite Hpath, ?Hi, ?Hcell; auto|by left].
Qed.

(** ** More on the paths of the pathfinder *)

Section paths.
Import AstarFacts.

(** X20.  A search from a cell of the grid to itself answers that cell
    alone, whatever is blocked. *)
Theorem astar_start_is_goal (c : Z * Z) (blocked : gset (Z * Z)) :
  in_grid c = true → Astar.astar c c blocked = Some [c].
Proof.
  intros Hc.
  destruct (astar_answer c c blocked Hc Hc) as (p & Hp & [[-> _]|[Hw Hmin]]);
    [done|].
  specialize (Hmin 0%nat (reach_start c c blocked)).
  destruct Hw as (Hh & _). destruct p as [|a [|b p]]; simpl in *; [done| |lia].
  by injection Hh as ->.
Qed.

Lemma walk_prefix_reach (start goal : Z * Z) (blocked : gset (Z * Z))
    (b : Z * Z) (p : list (Z * Z)) (i : nat) (c : Z * Z) :
  is_walk goal blocked start b p → p !! i = Some c →
  reach start goal blocked i c.
Proof.
  intros (Hh & _ & Hs). revert c. induction i as [|i IHi]; intros c Hc.
  - rewrite head_lookup in Hh. rewrite Hh in Hc. injection Hc as <-.
    constructor.
  - destruct (lookup_lt_is_Some_2 p i) as [x Hx].
    { apply lookup_lt_Some in Hc. lia. }
    destruct (Hs i x c Hx Hc) as [Hadj Hpass].
    apply (reach_step _ _ _ _ x); [by apply IHi|done..].
Qed.

Lemma walk_suffix_reach (start goal : Z * Z) (blocked : gset (Z * Z))
    (a b : Z * Z) (p : list (Z * Z)) (j k m : nat) (c y : Z * Z) :
  is_walk goal blocked a b p → p !! j = Some c → reach start goal blocked k c →
  p !! (j + m)%nat = Some y → reach start goal blocked (k + m) y.
Proof.
  intros (_ & _ & Hs) Hj Hk. revert y. induction m as [|m IHm]; intros y Hy.
  - rewrite Nat.add_0_r in *. congruence.
  - rewrite Nat.add_succ_r in *.
    destruct (lookup_lt_is_Some_2 p (j + m)) as [x Hx].
    { apply lookup_lt_Some in Hy. lia. }
    destruct (Hs (j + m)%nat x y Hx Hy) as [Hadj Hpass].
    apply (reach_step _ _ _ _ x); [by apply IHm|done..].
Qed.

(** X21.  The answer of [astar] visits no cell twice. *)
Theorem astar_no_repeat (start goal : Z * Z) (blocked : gset (Z * Z)) :
  in_grid start = true → in_grid goal = true →
  ∃ p, Astar.astar start goal blocked = Some p ∧ NoDup p.
Proof.
  intros Hs Hg.
  destruct (astar_answer start goal blocked Hs Hg)
    as (p & Hp & [[-> _]|[Hw Hmin]]).
  { exists [start]. split; [done|apply NoDup_singleton]. }
  exists p. split; [done|].
  assert (Hlt : ∀ i j c, (i < j)%nat → p !! i = Some c → p !! j = Some c →
                         False).
  { intros i j c Hij Hi Hj.
    pose proof (walk_prefix_reach _ _ _ _ _ _ _ Hw Hi) as Hri.
    pose proof (lookup_lt_Some _ _ _ Hj) as Hjlen.
    assert (Hl : p !! (j + (length p - 1 - j))%nat = Some goal).
    { destruct Hw as (_ & Hl & _). rewrite last_lookup in Hl.
      by replace (j + (length p - 1 - j))%nat with (pred (length p)) by lia. }
    pose proof (walk_suffix_reach _ _ _ _ _ _ _ _ _ _ _ Hw Hj Hri Hl) as Hr.
    apply Hmin in Hr. lia. }
  apply NoDup_alt. intros i j c Hi Hj.
  destruct (Nat.lt_trichotomy i j) as [Hij|[Hij|Hij]]; [|done|].
  - destruct (Hlt i j c Hij Hi Hj).
  - destruct (Hlt j i c Hij Hj Hi).
Qed.

Lemma reach_manhattan (start goal : Z * Z) (blocked : gset (Z * Z))
    (k : nat) (n : Z * Z) :
  reach start goal blocked k n → Astar.heur start n ≤ Z.of_nat k.
Proof.
  induction 1 as [|k c n _ IH Hadj _].
  - unfold Astar.heur. lia.
  - unfold adjacent, Astar.heur in *. lia.
Qed.

(** With nothing blocked, every cell of the grid is reached in as many
    steps as its Manhattan distance. *)
Lemma open_field_reach (start goal : Z * Z) (k : nat) :
  in_grid start = true →
  ∀ n, in_grid n = true → Astar.heur start n = Z.of_nat k →
       reach start goal ∅ k n.
Proof.
  intros Hs. rewrite in_grid_spec in Hs.
  induction k as [|k IHk]; intros n Hn Hk; rewrite in_grid_spec in Hn.
  - assert (n = start) as ->; [|constructor].
    unfold Astar.heur in Hk. destruct n, start. simpl in *. f_equal; lia.
  - unfold Astar.heur in Hk.
    set (c := if decide (n.1 = start.1)
              then (n.1, if decide (start.2 < n.2) then n.2 - 1 else n.2 + 1)
              else (if decide (start.1 < n.1) then n.1 - 1 else n.1 + 1, n.2)).
    assert (Hc : in_grid c = true ∧ Astar.heur start c = Z.of_nat k ∧
                 adjacent c n).
    { unfold c, adjacent, Astar.heur. rewrite in_grid_spec.
      repeat case_decide; simpl; lia. }
    destruct Hc as (Hcin & Hck & Hadj).
    apply (reach_step _ _ _ _ c); [by apply IHk|done|].
    split; [by apply in_grid_spec|]. by intros ?%not_elem_of_empty.
Qed.

(** X22.  A path that [astar] finds has at least as many steps as the
    Manhattan distance from [start] to [goal], and exactly as many when
    nothing is blocked. *)
Theorem astar_manhattan (start goal : Z * Z) (blocked : gset (Z * Z)) :
  in_grid start = true → in_grid goal = true →
  ∃ p, Astar.astar start goal blocked = Some p ∧
    (p = [start] ∨ Astar.heur goal start + 1 ≤ Z.of_nat (length p)) ∧
    (blocked = ∅ → Z.of_nat (length p) = Astar.heur goal start + 1).
Proof.
  intros Hs Hg.
  assert (Hsym : Astar.heur goal start = Astar.heur start goal).
  { unfold Astar.heur. lia. }
  assert (Hopen : reach start goal ∅ (Z.to_nat (Astar.heur start goal)) goal).
  { apply open_field_reach; [done..|]. unfold Astar.heur. lia. }
  destruct (astar_answer start goal blocked Hs Hg)
    as (p & Hp & [[-> Hno]|[Hw Hmin]]).
  - exists [start]. split; [done|]. split; [by left|].
    intros ->. by apply Hno in Hopen.
  - exists p. split; [done|].
    pose proof (is_walk_reach _ _ _ _ _ Hw) as Hr.
    apply reach_manhattan in Hr as Hlow.
    assert (Hlen : Z.of_nat (length p) = Z.of_nat (pred (length p)) + 1).
    { destruct Hw as (Hh & _). destruct p; [done|]. simpl. lia. }
    split; [right; lia|]. intros ->. apply Hmin in Hopen.
    unfold Astar.heur in *. lia.
Qed.

Lemma reach_fewer_blocked (start goal : Z * Z) (blocked blocked' : gset (Z * Z))
    (k : nat) (n : Z * Z) :
  blocked ⊆ blocked' → reach start goal blocked' k n →
  reach start goal blocked k n.
Proof.
  intros Hsub. induction 1 as [|k c n _ IH Hadj [Hin Hb]]; [constructor|].
  apply (reach_step _ _ _ _ c); [done..|]. split; [done|].
  intros Hn. apply Hb. by apply Hsub.
Qed.

(** X23.  Blocking more cells never makes the path that [astar] finds
    shorter, as long as the goal can still be reached. *)
Theorem astar_more_blocked (start goal : Z * Z)
    (blocked blocked' : gset (Z * Z)) :
  in_grid start = true → in_grid goal = true → blocked ⊆ blocked' →
  (∃ q, is_walk goal blocked' start goal q) →
  ∃ p p', Astar.astar start goal blocked = Some p ∧
    Astar.astar start goal blocked' = Some p' ∧
    is_walk goal blocked start goal p ∧ is_walk goal blocked' start goal p' ∧
    (length p ≤ length p')%nat.
Proof.
  intros Hs Hg Hsub [q Hq].
  apply is_walk_reach in Hq as Hrq.
  destruct (astar_answer start goal blocked' Hs Hg)
    as (p' & Hp' & [[_ Hno]|[Hw' _]]); [by apply Hno in Hrq|].
  apply is_walk_reach in Hw' as Hr'.
  apply (reach_fewer_blocked _ _ blocked) in Hr'; [|done].
  destruct (astar_answer start goal blocked Hs Hg)
    as (p & Hp & [[_ Hno]|[Hw Hmin]]); [by apply Hno in Hr'|].
  exists p, p'. split_and!; [done..|].
  apply Hmin in Hr'. destruct Hw' as (Hh & _). destruct p'; [done|].
  simpl in *. lia.
Qed.

End paths.

(** ** Events *)

(** A press of the right button. *)
Definition fires (ev : event) : bool :=
  match ev with
  | MOUSEBUTTONDOWN button _ => button =? 3
  | _ => false
  end.

(** X24.  A [QUIT] among the events of a frame ends the program, whatever
    else is queued; without one the events are handled without a
    failure, and every press of the right button adds one projectile. *)
Theorem quit_ends_program (evs : list event) (s : state) :
  (QUIT ∈ evs → handle_events evs s = Quit) ∧
  (QUIT ∉ evs →
   ∃ s', handle_events evs s = Ok s' ∧
     length (bullets s')
     = (length (bullets s) + length (List.filter fires evs))%nat).
Proof.
  assert (Hone : ∀ ev s0, ev ≠ QUIT →
    ∃ s1, handle_event s0 ev = Ok s1 ∧
      length (bullets s1)
      = (length (bullets s0) + if fires ev then 1 else 0)%nat).
  { intros ev s0 Hev. destruct ev as [|k|button mouse|]; simpl; [done| | |].
    - case_match; eexists; (split; [done|]); simpl; lia.
    - destruct (button =? 3).
      + destruct (fire_never_raises (x s0) (y s0) mouse) as [b ->]. simpl.
        eexists. split; [done|]. simpl. by rewrite length_app.
      + eexists. split; [done|]. lia.
    - eexists. split; [done|]. lia. }
  revert s. induction evs as [|ev evs IHevs]; intros s.
  { split; [by intros ?%elem_of_nil|]. intros _. exists s. simpl.
    split; [done|lia]. }
  assert (Hdec : ev = QUIT ∨ ev ≠ QUIT) by (destruct ev; auto).
  destruct Hdec as [->|Hev].
  { split; [done|]. intros Hq. exfalso. apply Hq. apply elem_of_cons. by left. }
  destruct (Hone ev s Hev) as (s1 & H1 & Hlen1). simpl. rewrite H1. simpl.
  destruct (IHevs s1) as [IHq IHn]. split.
  - intros [?|Hq]%elem_of_cons; [done|]. by apply IHq.
  - intros Hq. destruct IHn as (s' & Hs' & Hlen).
    { intros Hin. apply Hq. apply elem_of_cons. by right. }
    exists s'. split; [done|]. rewrite Hlen, Hlen1.
    destruct (fires ev); simpl; lia.
Qed.

(** ** The end of the game on the grid *)

(** X25.  A step of the snake ends the game exactly when the cell ahead is
    outside the grid or on the body.  At the edge of the grid the head
    and the body stay as they are; when the game goes on the head is in
    the cell ahead. *)
Theorem snake_step_outcome (draws draws' : list (Z * Z)) (s s' : state) :
  game_over s = false → snake_step draws s = Ok (s', draws') →
  let ahead := (grid_x s + dir_x (apply_queued s),
                grid_y s + dir_y (apply_queued s)) in
  (game_over s' = true ↔ in_grid ahead = false ∨ ahead ∈ body s) ∧
  (in_grid ahead = false → head_cell s' = head_cell s ∧ body s' = body s) ∧
  (game_over s' = false → head_cell s' = ahead).
Proof.
  intros Hgo H ahead. revert H. unfold snake_step.
  assert (H1 : dir_x (apply_queued (set_progress (progress s - 1) s))
               = dir_x (apply_queued s) ∧
               dir_y (apply_queued (set_progress (progress s - 1) s))
               = dir_y (apply_queued s)).
  { unfold apply_queued. simpl. by destruct (negb _ && _). }
  destruct (apply_queued_fields (set_progress (progress s - 1) s))
    as (_ & Hb & _ & Hx & Hy & _).
  pose proof (apply_queued_game_over (set_progress (progress s - 1) s)) as Hg.
  simpl in Hb, Hx, Hy, Hg. destruct H1 as [Hdx Hdy].
  set (s1 := apply_queued (set_progress (progress s - 1) s)) in *.
  assert (Hmove : move_to_cell (grid_x s1) (grid_y s1) (dir_x s1) (dir_y s1)
                  = if in_grid ahead then Some ahead else None).
  { unfold move_to_cell, in_grid, ahead. rewrite Hx, Hy, Hdx, Hdy. simpl.
    repeat match goal with
    | |- context [(?a <? ?b)] => destruct (Z.ltb_spec a b)
    | |- context [(?a <=? ?b)] => destruct (Z.leb_spec a b)
    | |- context [(?a >=? ?b)] => destruct (Z.geb_spec a b)
    end; simpl; try done; lia. }
  rewrite Hmove. destruct (in_grid ahead) eqn:Hin.
  2:{ intros [= <- <-]. unfold head_cell. simpl. rewrite Hx, Hy, Hb.
      split_and!; [split; auto|done|done]. }
  cbn [set_grid grid_x grid_y body length_cells fst snd]. rewrite Hb.
  case_bool_decide as Hself.
  { intros [= <- <-]. simpl. split_and!; [split; auto|done|done]. }
  intros Hstep. res_inv Hstep.
  assert (Hs' : game_over s' = false ∧ head_cell s' = ahead).
  { cbn [set_body grid_x grid_y apple] in Hstep. case_if_hyp Hstep.
    - res_inv Hstep. destruct a0 as [ap dr]. injection Hstep as <- <-.
      by rewrite <- Hgo, <- Hg.
    - injection Hstep as <- <-. by rewrite <- Hgo, <- Hg. }
  destruct Hs' as [Hgo' Hhead]. split_and!; [|done|done].
  rewrite Hgo'. split; [done|]. by intros [?|?].
Qed.

(** ** The apple and the score from frame to frame *)

Lemma relocate_apple_draw (draws draws' : list (Z * Z)) (b : list (Z * Z))
    (a : Z * Z) :
  relocate_apple draws b = Ok (a, draws') →
  a ∈ draws ∧ draws' `suffix_of` draws.
Proof.
  induction draws as [|d draws IHd]; simpl; [done|].
  case_bool_decide as Hd.
  - intros Hr. destruct (IHd Hr) as [Ha Hs]. split.
    + apply elem_of_cons. by right.
    + by apply suffix_cons_r.
  - intros [= <- <-]. split; [apply elem_of_cons; by left|].
    by apply suffix_cons_r.
Qed.

Lemma snake_step_apple (draws draws' : list (Z * Z)) (s s' : state) :
  snake_step draws s = Ok (s', draws') →
  (apple s' = apple s ∨ apple s' ∈ draws) ∧ draws' `suffix_of` draws ∧
  score s ≤ score s' ∧ length_cells s ≤ length_cells s'.
Proof.
  unfold snake_step. intros H.
  destruct (apply_queued_fields (set_progress (progress s - 1) s))
    as ((Hl & Hsc) & _ & Ha & _).
  simpl in Hl, Hsc, Ha.
  set (s1 := apply_queued (set_progress (progress s - 1) s)) in *.
  destruct (move_to_cell _ _ _ _) as [new_cell|].
  2:{ injection H as <- <-. simpl. split_and!; [by left|done|lia|lia]. }
  case_if_hyp H.
  { injection H as <- <-. simpl. split_and!; [by left|done|lia|lia]. }
  res_inv H. simpl in H. case_if_hyp H.
  - res_inv H. destruct a0 as [ap dr]. injection H as <- <-. simpl.
    apply relocate_apple_draw in Ha1 as [Hin Hsuf].
    split_and!; [by right|done|lia|lia].
  - injection H as <- <-. simpl. split_and!; [by left|done|lia|lia].
Qed.

Lemma snake_loop_apple (fuel : nat) (draws draws' : list (Z * Z))
    (s s' : state) :
  snake_loop fuel draws s = Ok (s', draws') →
  (apple s' = apple s ∨ apple s' ∈ draws) ∧
  score s ≤ score s' ∧ length_cells s ≤ length_cells s'.
Proof.
  revert draws s. induction fuel as [|fuel IHfuel]; simpl; intros draws s H.
  - case_if_hyp H; [done|]. injection H as <- <-. split_and!; [by left|lia..].
  - case_if_hyp H; [|injection H as <- <-; split_and!; [by left|lia..]].
    res_inv H. destruct a as [s1 draws1].
    apply snake_step_apple in Ha as (Ha & [k ->] & Hsc & Hl).
    apply IHfuel in H as ([->|Hin] & Hsc' & Hl'); split_and!; try lia.
    + destruct Ha as [->|Ha]; [by left|by right].
    + right. apply elem_of_app. by right.
Qed.

Section apple_and_score.
Variable collidepoint : Rect → R → R → bool.
Variable colliderect : Rect → Rect → bool.

Lemma frame_apple (i : input) (s s' : state) :
  frame collidepoint colliderect i s = Ok s' →
  (apple s' = apple s ∨ apple s' ∈ in_apples i) ∧
  score s ≤ score s' ∧ length_cells s ≤ length_cells s'.
Proof.
  intros H. apply frame_snake in H as (s1 & s2 & s3 & H1 & H2 & H3 & Hsn).
  assert (H1' : apple s1 = apple s ∧ score s1 = score s ∧
                length_cells s1 = length_cells s).
  { clear -H1. revert s H1.
    induction (in_events i) as [|ev evs IHevs]; simpl; intros s H1.
    - by injection H1 as <-.
    - res_inv H1. apply IHevs in H1 as (-> & -> & ->).
      destruct ev as [|k|button mouse|]; simpl in Ha; try discriminate.
      + case_if_hyp Ha; by injection Ha as <-.
      + case_if_hyp Ha; [|by injection Ha as <-].
        res_inv Ha. by injection Ha as <-.
      + by injection Ha as <-. }
  destruct H1' as (Ha1 & Hsc1 & Hl1).
  unfold move_snake in H2. apply bind_Ok in H2 as ([s2' d2] & Hloop & H2).
  injection H2 as ->. apply snake_loop_apple in Hloop as (Ha2 & Hsc2 & Hl2).
  simpl in Ha2, Hsc2, Hl2.
  assert (H3' : apple s3 = apple s2 ∧ score s3 = score s2 ∧
                length_cells s3 = length_cells s2).
  { unfold update_trail in H3. res_inv H3. by injection H3 as <-. }
  destruct H3' as (Ha3 & Hsc3 & Hl3). unfold snake_of in Hsn.
  injection Hsn as _ _ _ _ _ _ _ _ -> _ _ -> ->.
  rewrite Ha3, Hsc3, Hl3, <- Ha1, <- Hsc1, <- Hl1. done.
Qed.

(** X26.  When the first apple and every draw of the generator are cells of
    the grid, the apple is in the grid at every frame boundary of the
    main cycle. *)
Theorem apple_stays_in_grid (apple0 : Z * Z) (ins : list input) (s : state) :
  random_cell apple0 → Forall (λ i, Forall random_cell (in_apples i)) ins →
  run collidepoint colliderect ins (initial_state apple0) = Ok s →
  in_grid (apple s) = true.
Proof.
  intros H0 Hins Hrun.
  assert (Hgen : ∀ s0, in_grid (apple s0) = true →
    run collidepoint colliderect ins s0 = Ok s → in_grid (apple s) = true).
  { clear Hrun. induction ins as [|i ins IHins]; simpl; intros s0 Hs0 H.
    - by injection H as <-.
    - apply Forall_cons in Hins as [Hi Hins]. res_inv H.
      apply frame_apple in Ha as ([Hap|Hap] & _).
      + destruct (game_over a); [injection H as <-|apply (IHins Hins a)];
          first [by rewrite Hap|done].
      + rewrite Forall_forall in Hi. apply Hi in Hap.
        destruct (game_over a); [by injection H as <-|by apply (IHins Hins a)]. }
  by apply (Hgen (initial_state apple0)).
Qed.

(** X27.  Along the main cycle the score is never negative and never goes
    down, and [length_cells] never falls below [INIT_LEN]. *)
Theorem score_never_decreases (apple0 : Z * Z) (ins : list input)
    (i : input) (s s' : state) :
  run collidepoint colliderect ins (initial_state apple0) = Ok s →
  frame collidepoint colliderect i s = Ok s' →
  0 ≤ score s ≤ score s' ∧ INIT_LEN ≤ length_cells s ≤ length_cells s'.
Proof.
  intros Hrun H.
  assert (Hgen : ∀ s0, 0 ≤ score s0 ∧ INIT_LEN ≤ length_cells s0 →
    run collidepoint colliderect ins s0 = Ok s →
    0 ≤ score s ∧ INIT_LEN ≤ length_cells s).
  { clear Hrun H. induction ins as [|j ins IHins]; simpl; intros s0 Hs0 H.
    - by injection H as <-.
    - res_inv H. apply frame_apple in Ha as (_ & Hsc & Hl).
      destruct (game_over a); [injection H as <-; lia|].
      apply (IHins a); [lia|done]. }
  destruct (Hgen (initial_state apple0)) as [Hsc Hl]; [simpl; lia|done|].
  apply frame_apple in H as (_ & Hsc' & Hl'). lia.
Qed.

End apple_and_score.

(** ** The passes of the loop of the snake *)

(** Once [progress] is below the number of passes that are left, more
    passes change nothing: the loop has left before they are used. *)
Lemma snake_loop_enough (fuel1 fuel2 : nat) (draws : list (Z * Z))
    (s : state) :
  (progress s < INR fuel1 + 1)%R → (fuel1 ≤ fuel2)%nat →
  snake_loop fuel2 draws s = snake_loop fuel1 draws s.
Proof.
  revert fuel2 draws s.
  induction fuel1 as [|fuel1 IH]; intros fuel2 draws s Hp Hle.
  - assert (Hguard : bool_decide (progress s >= 1)%R && negb (game_over s)
                     = false).
    { rewrite bool_decide_eq_false_2; [done|]. simpl in Hp. lra. }
    destruct fuel2; simpl; by rewrite Hguard.
  - destruct fuel2 as [|fuel2]; [lia|]. simpl.
    destruct (bool_decide (progress s >= 1)%R && negb (game_over s)); [|done].
    destruct (snake_step draws s) as [[s1 draws1]| | |] eqn:Hstep; simpl;
      try done.
    apply snake_step_progress in Hstep. apply IH; [|lia].
    rewrite Hstep. rewrite S_INR in Hp. lra.
Qed.

(** X28.  The loop [while progress >= 1.0 and not game_over] leaves after at
    most [up progress] passes: run with any greater number of passes,
    [move_snake] gives the same result. *)
Theorem snake_loop_passes (dt : R) (draws : list (Z * Z)) (s : state)
    (fuel : nat) :
  let s0 := set_progress (progress s + IZR SPEED * dt / IZR SIZE) s in
  (Z.to_nat (up (progress s0)) ≤ fuel)%nat →
  move_snake dt draws s = ('(s', _) ← snake_loop fuel draws s0; Ok s').
Proof.
  intros s0 Hfuel. unfold move_snake. fold s0.
  rewrite (snake_loop_enough (Z.to_nat (up (progress s0))) fuel); [done| |done].
  destruct (archimed (progress s0)) as [Hup _].
  destruct (Z_lt_le_dec (up (progress s0)) 0) as [Hneg|Hpos].
  - apply IZR_lt in Hneg. pose proof (pos_INR (Z.to_nat (up (progress s0)))).
    lra.
  - rewrite INR_IZR_INZ, Z2Nat.id by done. lra.
Qed.

(** ** No exception along the main cycle *)

Lemma relocate_apple_no_raise (draws : list (Z * Z)) (b : list (Z * Z)) :
  relocate_apple draws b ≠ Raise ∧ relocate_apple draws b ≠ Quit.
Proof. induction draws as [|d draws IHd]; simpl; [done|]. by case_bool_decide. Qed.

Lemma snake_step_no_raise (draws : list (Z * Z)) (s : state) :
  snake_ok s → snake_step draws s ≠ Raise ∧ snake_step draws s ≠ Quit.
Proof.
  intros Hok. unfold snake_step.
  assert (Hok1 : snake_ok (apply_queued (set_progress (progress s - 1) s))).
  { apply apply_queued_snake. by apply (snake_ok_same s). }
  set (s1 := apply_queued (set_progress (progress s - 1) s)) in *.
  destruct (move_to_cell _ _ _ _) as [new_cell|]; [|done].
  case_bool_decide; [done|].
  cbn [set_grid body length_cells]. rewrite shrink_body_spec.
  2:{ destruct Hok1 as [_ _ _ _ _ _ Hlen _]. lia. }
  cbn [mbind res_bind]. case_bool_decide; [|done].
  match goal with
  | |- context [relocate_apple ?d ?b] =>
      destruct (relocate_apple_no_raise d b);
      destruct (relocate_apple d b) as [[ap dr]| | |]
  end; done.
Qed.

Lemma snake_loop_no_raise (fuel : nat) (draws : list (Z * Z)) (s : state) :
  snake_ok s →
  snake_loop fuel draws s ≠ Raise ∧ snake_loop fuel draws s ≠ Quit.
Proof.
  revert draws s. induction fuel as [|fuel IHfuel]; simpl; intros draws s Hok.
  - by case_match.
  - destruct (bool_decide (progress s >= 1)%R && negb (game_over s)) eqn:Hg;
      [|done].
    apply andb_true_iff in Hg as [_ Hgo%negb_true_iff].
    destruct (snake_step_no_raise draws s Hok) as [Hr Hq].
    destruct (snake_step draws s) as [[s1 draws1]| | |] eqn:Hstep; try done.
    simpl. apply IHfuel. by apply (snake_step_snake draws draws1 s).
Qed.

Lemma handle_events_no_raise (evs : list event) (s : state) :
  handle_events evs s ≠ Raise ∧ handle_events evs s ≠ NoFuel.
Proof.
  revert s. induction evs as [|ev evs IHevs]; simpl; intros s; [done|].
  assert (Hev : handle_event s ev = Quit ∨ ∃ s1, handle_event s ev = Ok s1).
  { destruct ev as [|k|button mouse|]; simpl; [by left|right..].
    - case_match; eauto.
    - destruct (button =? 3); [|eauto].
      destruct (fire_never_raises (x s) (y s) mouse) as [b ->]. simpl. eauto.
    - eauto. }
  destruct Hev as [->|[s1 ->]]; [done|]. simpl. apply IHevs.
Qed.

Section no_exception.
Variable collidepoint : Rect → R → R → bool.
Variable colliderect : Rect → Rect → bool.

Lemma frame_no_raise (i : input) (s : state) :
  snake_ok s → world_ok s → spawn_draws_ok i →
  frame collidepoint colliderect i s ≠ Raise.
Proof.
  intros Hok Hw Hdraw. unfold frame.
  destruct (handle_events_no_raise (in_events i) s) as [Hr1 Hf1].
  destruct (handle_events (in_events i) s) as [s1| | |] eqn:H1; try done.
  simpl. pose proof (handle_events_snake _ _ _ Hok H1) as Hok1.
  apply handle_events_world in H1 as [Hh1 He1].
  destruct (move_snake (in_dt i) (in_apples i) s1) as [s2| | |] eqn:H2;
    try done.
  2:{ exfalso. unfold move_snake in H2.
      match type of H2 with
      | context [snake_loop ?f ?d ?s0] =>
          destruct (snake_loop_no_raise f d s0) as [Hr _];
          [by apply (snake_ok_same s1)|];
          destruct (snake_loop f d s0) as [[? ?]| | |]; done
      end. }
  simpl. pose proof (move_snake_snake _ _ _ _ Hok1 H2) as Hok2.
  destruct Hw as [Hhead Hag Hal].
  apply move_snake_world in H2 as [Hh2 He2]; [|by rewrite Hh1].
  destruct (update_trail s2) as [s3| | |] eqn:H3; try done.
  2:{ exfalso. unfold update_trail in H3.
      match type of H3 with
      | context [trim_path_to_length ?p ?m] =>
          destruct (trim_returns p m) as (p' & Hp' & _);
          rewrite Hp' in H3; done
      end. }
  simpl. apply update_trail_world in H3 as [Hh3 He3].
  assert (Hw3 : world_ok s3).
  { split; [by rewrite Hh3|by rewrite He3, He2, He1..]. }
  destruct (resolve_ok collidepoint colliderect i s3 Hw3 Hdraw)
    as (s' & -> & _). done.
Qed.

(** X29.  When the generator draws a side cell of the grid and one of the
    three kinds for every spawn, the main cycle raises no exception:
    no index is out of range and no division is by zero. *)
Theorem run_never_raises (apple0 : Z * Z) (ins : list input) :
  Forall spawn_draws_ok ins →
  run collidepoint colliderect ins (initial_state apple0) ≠ Raise.
Proof.
  intros Hins.
  assert (Hgen : ∀ s0, snake_ok s0 → world_ok s0 →
    run collidepoint colliderect ins s0 ≠ Raise).
  { induction Hins as [|i ins Hi Hins IH]; simpl; intros s0 Hok Hw; [done|].
    pose proof (frame_no_raise i s0 Hok Hw Hi) as Hf.
    destruct (frame collidepoint colliderect i s0) as [s1| | |] eqn:H1;
      try done.
    simpl. destruct (game_over s1); [done|]. apply IH.
    - by apply (frame_snake_ok collidepoint colliderect i s0).
    - by destruct (frame_world collidepoint colliderect i s0 s1 Hw Hi H1). }
  apply Hgen; [apply initial_snake_ok|apply initial_world].
Qed.

End no_exception.

(** ** The rendering of the trail *)

(** A call [pygame.draw.line(tail_surf, col, start, end, width)]. *)
Record line_call : Type := mkLine {
  line_col : Z * Z * Z * Z;
  line_start : pt;
  line_end : pt;
  line_width : Z
}.

(** [int(fade_to + (255 - fade_to) * (i + 1) / (N + 1))] *)
Definition fade_alpha (fade_to : Z) (i N : nat) : Z :=
  py_int (IZR fade_to
          + IZR ((255 - fade_to) * (Z.of_nat i + 1)) / IZR (Z.of_nat N + 1)).

(** The loop [for i in range(N)] of [draw_fading_path]: the lines it
    draws on [tail_surf], in the order of the calls.  A point that the
    deque does not have is an [IndexError]. *)
Fixpoint fading_lines (path_deque : list pt) (color : Z * Z * Z)
    (fade_to width : Z) (N : nat) (range : list nat) : res (list line_call) :=
  match range with
  | [] => Ok []
  | i :: range' =>
      match path_deque !! i, path_deque !! S i with
      | Some (x1, y1), Some (x2, y2) =>
          let alpha := fade_alpha fade_to i N in
          let col := (color.1.1, color.1.2, color.2, alpha) in
          ls ← fading_lines path_deque color fade_to width N range';
          Ok (mkLine col (x1 + IZR SIZE / 2, y1 + IZR SIZE / 2)%R
                (x2 + IZR SIZE / 2, y2 + IZR SIZE / 2)%R width :: ls)
      | _, _ => Raise
      end
  end.

(** [draw_fading_path(surface, path_deque, color, fade_to, width)], as
    its second definition has it, which is the one the main cycle
    calls; [width] is [None] when the argument is left out. *)
Definition draw_fading_path (path_deque : list pt) (color : Z * Z * Z)
    (fade_to : Z) (width : option Z) : res (list line_call) :=
  if bool_decide (length path_deque < 2)%nat then Ok []
  else
    let N := (length path_deque - 1)%nat in
    let width := Z.max 2 (default (SIZE - 6) width) in
    fading_lines path_deque color fade_to width N (seq 0 N).

Lemma fade_alpha_bounds (fade_to : Z) (i N : nat) :
  0 ≤ fade_to < 255 → (i < N)%nat →
  fade_to ≤ fade_alpha fade_to i N ≤ 254.
Proof.
  intros Hf Hi. unfold fade_alpha.
  set (q := (IZR ((255 - fade_to) * (Z.of_nat i + 1))
             / IZR (Z.of_nat N + 1))%R).
  assert (Hden : (0 < IZR (Z.of_nat N + 1))%R) by (apply IZR_lt; lia).
  assert (Hq : (q * IZR (Z.of_nat N + 1)
                = IZR ((255 - fade_to) * (Z.of_nat i + 1)))%R).
  { unfold q. field. lra. }
  assert (Hq0 : (0 < q)%R).
  { assert (Hnum : (0 < IZR ((255 - fade_to) * (Z.of_nat i + 1)))%R)
      by (apply IZR_lt; nia). nra. }
  assert (Hq1 : (q < IZR (255 - fade_to))%R).
  { assert (Hnum : (IZR ((255 - fade_to) * (Z.of_nat i + 1))
                    < IZR ((255 - fade_to) * (Z.of_nat N + 1)))%R)
      by (apply IZR_lt; nia).
    rewrite (mult_IZR _ (Z.of_nat N + 1)) in Hnum. nra. }
  rewrite minus_IZR in Hq1.
  assert (Hf0 : (0 <= IZR fade_to)%R) by (apply IZR_le; lia).
  unfold py_int. rewrite bool_decide_eq_true_2 by lra.
  destruct (base_Int_part (IZR fade_to + q)) as [Hle Hgt]. split.
  - assert (Hlt : (IZR (fade_to - 1) < IZR (Int_part (IZR fade_to + q)))%R).
    { rewrite minus_IZR. lra. }
    apply lt_IZR in Hlt. lia.
  - assert (Hlt : (IZR (Int_part (IZR fade_to + q)) < IZR 255)%R) by lra.
    apply lt_IZR in Hlt. lia.
Qed.

Lemma fade_alpha_mono (fade_to : Z) (i j N : nat) :
  0 ≤ fade_to ≤ 255 → (i ≤ j)%nat →
  fade_alpha fade_to i N ≤ fade_alpha fade_to j N.
Proof.
  intros Hf Hij. unfold fade_alpha.
  set (qi := (IZR ((255 - fade_to) * (Z.of_nat i + 1))
              / IZR (Z.of_nat N + 1))%R).
  set (qj := (IZR ((255 - fade_to) * (Z.of_nat j + 1))
              / IZR (Z.of_nat N + 1))%R).
  assert (Hden : (0 < IZR (Z.of_nat N + 1))%R) by (apply IZR_lt; lia).
  assert (Hnum : (0 <= IZR ((255 - fade_to) * (Z.of_nat i + 1))
                  <= IZR ((255 - fade_to) * (Z.of_nat j + 1)))%R).
  { split; apply IZR_le; nia. }
  assert (Hqi : (qi * IZR (Z.of_nat N + 1)
                 = IZR ((255 - fade_to) * (Z.of_nat i + 1)))%R).
  { unfold qi. field. lra. }
  assert (Hqj : (qj * IZR (Z.of_nat N + 1)
                 = IZR ((255 - fade_to) * (Z.of_nat j + 1)))%R).
  { unfold qj. field. lra. }
  assert (Hq : (0 <= qi <= qj)%R) by (split; nra).
  assert (Hf0 : (0 <= IZR fade_to)%R) by (apply IZR_le; lia).
  unfold py_int. rewrite !bool_decide_eq_true_2 by lra.
  destruct (base_Int_part (IZR fade_to + qi)) as [Hlei _].
  destruct (base_Int_part (IZR fade_to + qj)) as [_ Hgtj].
  assert (Hlt : (IZR (Int_part (IZR fade_to + qi))
                 < IZR (Int_part (IZR fade_to + qj) + 1))%R).
  { rewrite plus_IZR. lra. }
  apply lt_IZR in Hlt. lia.
Qed.

Lemma fading_lines_spec (path_deque : list pt) (color : Z * Z * Z)
    (fade_to width : Z) (N a n : nat) :
  (a + n < length path_deque)%nat →
  ∃ ls, fading_lines path_deque color fade_to width N (seq a n) = Ok ls ∧
    length ls = n ∧
    ∀ k l, ls !! k = Some l →
      line_col l = (color.1.1, color.1.2, color.2,
                    fade_alpha fade_to (a + k) N) ∧
      line_width l = width ∧
      ∃ p1 p2, path_deque !! (a + k)%nat = Some p1 ∧
        path_deque !! S (a + k) = Some p2 ∧
        line_start l = (p1.1 + IZR SIZE / 2, p1.2 + IZR SIZE / 2)%R ∧
        line_end l = (p2.1 + IZR SIZE / 2, p2.2 + IZR SIZE / 2)%R.
Proof.
  revert a. induction n as [|n IHn]; intros a Hlen; simpl.
  { exists []. split_and!; [done..|]. by intros k l ?. }
  destruct (lookup_lt_is_Some_2 path_deque a) as [[x1 y1] H1]; [lia|].
  destruct (lookup_lt_is_Some_2 path_deque (S a)) as [[x2 y2] H2]; [lia|].
  rewrite H1, H2.
  destruct (IHn (S a)) as (ls & -> & Hl & Hls); [lia|]. simpl.
  eexists. split; [done|]. split; [simpl; by rewrite Hl|].
  intros [|k] l Hk; simpl in Hk.
  - injection Hk as <-. rewrite Nat.add_0_r. simpl.
    split_and!; [done..|]. by exists (x1, y1), (x2, y2).
  - rewrite Nat.add_succ_r. by apply Hls.
Qed.

(** X30.  For a [fade_to] from 0 to 254, [draw_fading_path] returns without
    an exception and draws one line for every segment of the trail,
    from its older end to its newer one, each at least 2 pixels wide;
    the alpha of the lines never goes down towards the head and stays
    between [fade_to] and 254. *)
Theorem fading_trail (path_deque : list pt) (color : Z * Z * Z)
    (fade_to : Z) (width : option Z) :
  0 ≤ fade_to < 255 →
  ∃ ls, draw_fading_path path_deque color fade_to width = Ok ls ∧
    length ls = pred (length path_deque) ∧
    (∀ k l, ls !! k = Some l →
       2 ≤ line_width l ∧ fade_to ≤ (line_col l).2 ≤ 254 ∧
       ∃ p1 p2, path_deque !! k = Some p1 ∧ path_deque !! S k = Some p2 ∧
         line_start l = (p1.1 + IZR SIZE / 2, p1.2 + IZR SIZE / 2)%R ∧
         line_end l = (p2.1 + IZR SIZE / 2, p2.2 + IZR SIZE / 2)%R) ∧
    (∀ j k l1 l2, (j ≤ k)%nat → ls !! j = Some l1 → ls !! k = Some l2 →
       (line_col l1).2 ≤ (line_col l2).2).
Proof.
  intros Hf. unfold draw_fading_path. case_bool_decide as Hshort.
  { exists []. split_and!; [done| |by intros k l ?|by intros j k l1 l2 _ ?].
    destruct path_deque as [|a [|b p]]; simpl in *; [done|done|lia]. }
  destruct (fading_lines_spec path_deque color fade_to
              (Z.max 2 (default (SIZE - 6) width))
              (length path_deque - 1) 0 (length path_deque - 1))
    as (ls & Hls & Hlen & Hspec); [lia|].
  exists ls. split; [done|]. split; [lia|]. split.
  - intros k l Hk. destruct (Hspec k l Hk) as (Hcol & Hw & Hp).
    simpl in Hcol, Hp. split; [lia|]. split; [|done].
    rewrite Hcol. simpl. apply fade_alpha_bounds; [done|].
    apply lookup_lt_Some in Hk. lia.
  - intros j k l1 l2 Hjk Hj Hk.
    destruct (Hspec j l1 Hj) as (-> & _). destruct (Hspec k l2 Hk) as (-> & _).
    simpl. apply fade_alpha_mono; [lia|done].
Qed.

(** ** The properties on the runs of the game *)

(** *** A frame with a shot *)

(** A frame of a fifteenth of a second with a press of the right
    button, the mouse at the right of the head. *)
Definition shoot1 : input :=
  mkInput (1/15) 1761696000 [MOUSEBUTTONDOWN 3 (810, 410)] [] side_right 20 0.

Definition fired : Bullet.t :=
  {| Bullet.pos := (410, 410)%R; Bullet.vel := (700, 0)%R; Bullet.r := 5;
     Bullet.hit := false; Bullet.t_hit := 0; Bullet.alpha := 255 |}.

Definition after_shoot1 : state :=
  {| grid_x := 21; grid_y := 20; dir_x := 1; dir_y := 0; queued_dir := (1, 0);
     progress := 0%R; x := 400; y := 400; length_cells := 5;
     path := [(400, 400); (400, 400)]%R; game_over := false;
     body := [(20, 20); (21, 20)]; apple := (0, 0);
     score := 0;
     bullets := [ {| Bullet.pos := (1370 / 3, 410)%R; Bullet.vel := (700, 0)%R;
                     Bullet.r := 5; Bullet.hit := false; Bullet.t_hit := 0;
                     Bullet.alpha := 255 |} ];
     enemies := [pink (38, 20) (770, 410)%R (row 20 39 21) 2];
     last_spawn_time := 1761696000 |}.

Lemma shoot1_events :
  handle_events (in_events shoot1) (initial_state (0, 0))
  = Ok (set_bullets [fired] (initial_state (0, 0))).
Proof.
  unfold shoot1. cbn [in_events handle_events handle_event].
  change (3 =? 3) with true. cbv iota. unfold fire. rcbv.
  replace (810 - (400 + 20 / 2))%R with 400%R by lra.
  replace (410 - (400 + 20 / 2))%R with 0%R by lra.
  reval. rcbv. same_state.
Qed.

(** The integer parts met in that frame. *)
Ltac rints :=
  repeat match goal with
  | |- context [Int_part ?r] =>
      first [ rewrite (Int_part_eq r 402) by lra
            | rewrite (Int_part_eq r 761) by lra
            | rewrite (Int_part_eq r 401) by lra ]
  end.

Lemma frame_shoot1 :
  frame pygame_collidepoint pygame_colliderect shoot1 (initial_state (0, 0))
  = Ok after_shoot1.
Proof.
  unfold frame. rewrite shoot1_events.
  unfold shoot1, move_snake.
  cbn [in_dt in_apples mbind res_bind progress set_progress set_bullets
       initial_state].
  rup 2%Z. rcbv. reval.
  unfold resolve. rcbv. reval. eval_astar. rcbv. reval.
  unfold collide, check_head. rcbv. reval.
  rints.
  unfold pygame_collidepoint. rcbv. reval.
  rints.
  rcbv_all. same_state.
Qed.

Lemma run_shoot :
  run pygame_collidepoint pygame_colliderect [shoot1] (initial_state (0, 0))
  = Ok after_shoot1.
Proof. cbn [run]. rewrite frame_shoot1. reflexivity. Qed.

Lemma frames_take_time : Forall (λ i, (0 <= in_dt i)%R) [slow1; slow2].
Proof. repeat constructor; simpl; lra. Qed.

(** *** The snake *)

Lemma body_never_overlaps_witness :
  NoDup (body after_slow2) ∧ chain (body after_slow2) ∧
  ∀ c, c ∈ body after_slow2 → in_grid c = true.
Proof.
  apply (body_never_overlaps pygame_collidepoint pygame_colliderect (0, 0)
           [slow1; slow2]).
  apply run_slow.
Defined.

Lemma body_length_and_head_witness :
  1 ≤ Z.of_nat (length (body after_slow2)) ≤ length_cells after_slow2 ∧
  (game_over after_slow2 = false →
   last (body after_slow2) = Some (grid_x after_slow2, grid_y after_slow2)).
Proof.
  apply (body_length_and_head pygame_collidepoint pygame_colliderect (0, 0)
           [slow1; slow2]).
  apply run_slow.
Defined.

Lemma heading_is_unit_witness :
  heading (dir_x after_slow2, dir_y after_slow2) ∧
  heading (queued_dir after_slow2) ∧
  queued_dir after_slow2 ≠ (- dir_x after_slow2, - dir_y after_slow2).
Proof.
  apply (heading_is_unit pygame_collidepoint pygame_colliderect (0, 0)
           [slow1; slow2]).
  apply run_slow.
Defined.

Lemma progress_below_one_witness :
  (0 <= progress after_slow2)%R ∧
  (game_over after_slow2 = false → (progress after_slow2 < 1)%R).
Proof.
  apply (progress_below_one pygame_collidepoint pygame_colliderect (0, 0)
           [slow1; slow2]).
  - apply frames_take_time.
  - apply run_slow.
Defined.

Lemma head_drawn_near_cell_witness :
  (Rabs (x after_slow2 - IZR (grid_x after_slow2) * IZR SIZE) <= IZR SIZE)%R ∧
  (Rabs (y after_slow2 - IZR (grid_y after_slow2) * IZR SIZE) <= IZR SIZE)%R.
Proof.
  apply (head_drawn_near_cell pygame_collidepoint pygame_colliderect (0, 0)
           [slow1; slow2]).
  - apply frames_take_time.
  - apply run_slow.
  - reflexivity.
Defined.

Lemma frame_never_reverses_witness :
  frame pygame_collidepoint pygame_colliderect slow2 after_slow1
  = Ok after_slow2 ∧
  (dir_x after_slow2, dir_y after_slow2)
  ≠ (- dir_x after_slow1, - dir_y after_slow1).
Proof.
  split; [apply frame_slow2|].
  apply (frame_never_reverses pygame_collidepoint pygame_colliderect (0, 0)
           [slow1] slow2).
  - apply run_slow_first.
  - apply frame_slow2.
Defined.

Lemma snake_step_outcome_witness :
  let s := set_progress 1 (initial_state (21, 20)) in
  let s' := set_path [(400, 400)%R] (set_enemies []
              (set_last_spawn_time 0 after_eat1)) in
  let ahead := (grid_x s + dir_x (apply_queued s),
                grid_y s + dir_y (apply_queued s)) in
  (game_over s' = true ↔ in_grid ahead = false ∨ ahead ∈ body s) ∧
  (in_grid ahead = false → head_cell s' = head_cell s ∧ body s' = body s) ∧
  (game_over s' = false → head_cell s' = ahead).
Proof.
  intros s s'.
  apply (snake_step_outcome [(20, 20); (5, 5)] [] s s').
  - reflexivity.
  - apply snake_step_eats.
Defined.

Lemma snake_loop_passes_witness :
  move_snake (1/4) [] (initial_state (0, 0))
  = ('(s', _) ← snake_loop 10 []
       (set_progress (progress (initial_state (0, 0))
                      + IZR SPEED * (1/4) / IZR SIZE) (initial_state (0, 0)));
     Ok s').
Proof.
  apply (snake_loop_passes (1/4) [] (initial_state (0, 0)) 10).
  cbn [progress set_progress initial_state].
  rewrite (up_eq _ 4); [vm_compute; lia|rcbv; lra..].
Defined.

(** *** The trail *)

Lemma trim_short_unchanged_witness :
  trim_path_to_length [(400, 400); (455, 400)]%R 100
  = Ok [(400, 400); (455, 400)]%R.
Proof.
  apply trim_short_unchanged.
  unfold polyline_length. cbn [segment_lengths fold_right fst snd].
  rewrite hypot_axis by lra. lra.
Defined.

Lemma trim_never_longer_witness :
  ∃ p', trim_path_to_length [(400, 400); (455, 400); (530, 400)]%R 100
        = Ok p' ∧
    (polyline_length p'
     <= polyline_length [(400, 400); (455, 400); (530, 400)]%R)%R.
Proof. apply trim_never_longer. lra. Defined.

Lemma trim_within_a_segment_witness :
  ∃ p', trim_path_to_length [(400, 400); (455, 400); (530, 400)]%R 100
        = Ok p' ∧
    (100 - 75 <= polyline_length p' <= 100 + 75)%R.
Proof.
  apply trim_within_a_segment.
  - lra.
  - unfold polyline_length. cbn [segment_lengths fold_right fst snd].
    rewrite !hypot_axis by lra. lra.
  - cbn [segment_lengths fst snd]. rewrite !hypot_axis by lra.
    repeat constructor; lra.
Defined.

Lemma trail_ends_at_head_witness :
  last (path after_slow2) = Some (x after_slow2, y after_slow2).
Proof.
  apply (trail_ends_at_head pygame_collidepoint pygame_colliderect (0, 0)
           [slow1; slow2]).
  apply run_slow.
Defined.

Lemma fading_trail_witness :
  ∃ ls, draw_fading_path (path after_slow2) (0, 220, 80) 10 (Some (SIZE - 8))
        = Ok ls ∧
    length ls = pred (length (path after_slow2)) ∧
    (∀ k l, ls !! k = Some l →
       2 ≤ line_width l ∧ 10 ≤ (line_col l).2 ≤ 254 ∧
       ∃ p1 p2, path after_slow2 !! k = Some p1 ∧
         path after_slow2 !! S k = Some p2 ∧
         line_start l = (p1.1 + IZR SIZE / 2, p1.2 + IZR SIZE / 2)%R ∧
         line_end l = (p2.1 + IZR SIZE / 2, p2.2 + IZR SIZE / 2)%R) ∧
    (∀ j k l1 l2, (j ≤ k)%nat → ls !! j = Some l1 → ls !! k = Some l2 →
       (line_col l1).2 ≤ (line_col l2).2).
Proof. apply fading_trail. lia. Defined.

(** *** Projectiles *)

Lemma fire_speed_witness :
  ∃ b, fire 400 400 (810, 410) = Ok b ∧
    Bullet.pos b = (400 + IZR SIZE / 2, 400 + IZR SIZE / 2)%R ∧
    Bullet.hit b = false ∧
    hypot (Bullet.vel b).1 (Bullet.vel b).2 = IZR BULLET_SPEED ∧
    ∃ k, (0 < k)%R ∧
      Bullet.vel b = (k * (810 - (400 + IZR SIZE / 2)),
                      k * (410 - (400 + IZR SIZE / 2)))%R.
Proof.
  apply (fire_speed 400 400 (810, 410)).
  cbn [fst snd]. change (IZR SIZE) with 20%R. intros [= H1 H2]. lra.
Defined.

Lemma bullets_stay_in_margin_witness :
  bullets after_shoot1 ≠ [] ∧
  ∀ b, b ∈ bullets after_shoot1 → in_margin (Bullet.pos b).
Proof.
  split; [discriminate|].
  apply (bullets_stay_in_margin pygame_collidepoint pygame_colliderect (0, 0)
           [shoot1]).
  apply run_shoot.
Defined.

Lemma bullets_fly_or_fade_witness :
  bullets after_shoot1 ≠ [] ∧ ∀ b, b ∈ bullets after_shoot1 → bullet_ok b.
Proof.
  split; [discriminate|].
  apply (bullets_fly_or_fade pygame_collidepoint pygame_colliderect (0, 0)
           [shoot1]).
  - repeat constructor; simpl; lra.
  - apply run_shoot.
Defined.

Lemma combat_conserves_witness :
  length (combat pygame_collidepoint [shot] (enemies duel)).1 = length [shot] ∧
  (length (combat pygame_collidepoint [shot] (enemies duel)).2
   ≤ length (enemies duel))%nat ∧
  total_hp (enemies duel)
  - total_hp (combat pygame_collidepoint [shot] (enemies duel)).2
  = hit_count (combat pygame_collidepoint [shot] (enemies duel)).1
    - hit_count [shot].
Proof.
  apply (combat_conserves pygame_collidepoint [shot] (enemies duel)).
  repeat constructor.
Defined.

Lemma quit_ends_program_witness :
  handle_events [KEYDOWN K_UP; QUIT; KEYDOWN K_LEFT] (initial_state (0, 0))
  = Quit ∧
  ∃ s', handle_events (in_events shoot1) (initial_state (0, 0)) = Ok s' ∧
    length (bullets s')
    = (length (bullets (initial_state (0%Z, 0%Z)))
       + length (List.filter fires (in_events shoot1)))%nat.
Proof.
  split.
  - apply (quit_ends_program [KEYDOWN K_UP; QUIT; KEYDOWN K_LEFT]).
    apply elem_of_cons. right. apply elem_of_cons. by left.
  - apply (quit_ends_program (in_events shoot1)).
    intros [H|H%elem_of_nil]%elem_of_cons; [discriminate|done].
Defined.

(** *** Agents *)

Lemma spawn_enemy_on_border_witness :
  ∃ e, spawn_enemy side_right 20 0 = Ok e ∧
    in_grid (Enemy.cell e) = true ∧
    ((Enemy.cell e).1 = 0 ∨ (Enemy.cell e).1 = CELLS - 1 ∨
     (Enemy.cell e).2 = 0 ∨ (Enemy.cell e).2 = CELLS - 1) ∧
    Enemy.pos e = (IZR ((Enemy.cell e).1 * SIZE) + IZR SIZE / 2,
                   IZR ((Enemy.cell e).2 * SIZE) + IZR SIZE / 2)%R ∧
    Enemy.path e = [] ∧
    (Enemy.hp e, Enemy.speed_px e)
      ∈ [(1, 15 * SIZE); (3, 5 * SIZE); (15, 2 * SIZE)].
Proof.
  apply spawn_enemy_on_border; [change CELLS with 40|]; lia.
Defined.

Lemma spawn_rate_witness :
  ∃ s1 s2 s3 s5,
    handle_events (in_events slow1) (initial_state (0, 0)) = Ok s1 ∧
    move_snake (in_dt slow1) (in_apples slow1) s1 = Ok s2 ∧
    update_trail s2 = Ok s3 ∧
    spawn slow1
      (set_bullets (update_bullets (in_dt slow1) (bullets s3)) s3) = Ok s5 ∧
    ((in_now slow1 - last_spawn_time (initial_state (0%Z, 0%Z))
      >= ENEMY_SPAWN_EVERY)%R ∧
     game_over s2 = false →
     ∃ e0, spawn_enemy (in_side slow1) (in_coord slow1) (in_kind slow1)
           = Ok e0 ∧
       enemies s5 = enemies (initial_state (0, 0)) ++ [e0] ∧
       last_spawn_time after_slow1 = in_now slow1) ∧
    (¬ (in_now slow1 - last_spawn_time (initial_state (0%Z, 0%Z))
        >= ENEMY_SPAWN_EVERY)%R ∨
     game_over s2 = true →
     enemies s5 = enemies (initial_state (0, 0)) ∧
     last_spawn_time after_slow1 = last_spawn_time (initial_state (0, 0))) ∧
    (length (enemies after_slow1) ≤ length (enemies s5))%nat.
Proof.
  apply (spawn_rate pygame_collidepoint pygame_colliderect).
  apply frame_slow1.
Defined.

Lemma agent_speed_limit_witness :
  let e := pink (38, 20) (770, 410)%R (row 20 39 23) 2 in
  ∃ e', Enemy.update (1/4) (27, 20) ∅ e = Ok e' ∧
    (hypot ((Enemy.pos e').1 - (Enemy.pos e).1)
           ((Enemy.pos e').2 - (Enemy.pos e).2)
     <= IZR (Enemy.speed_px e) * (1/4))%R.
Proof.
  intros e. apply (agent_speed_limit (1/4) (27, 20) ∅ e); [lra|].
  simpl. lia.
Defined.

Lemma agent_steps_to_neighbour_witness :
  let e := pink (39, 20) (790, 410)%R [] 0 in
  ∃ e', Enemy.update (1/15) (21, 20) ∅ e = Ok e' ∧ agent_walks e' ∧
    (Enemy.cell e' = Enemy.cell e ∨
     AstarFacts.adjacent (Enemy.cell e) (Enemy.cell e')).
Proof.
  intros e. apply (agent_steps_to_neighbour (1/15) (21, 20) ∅ e).
  split; [|by left]. intros i c1 c2 H1. by destruct i.
Defined.

(** *** The pathfinder *)

Lemma astar_start_is_goal_witness :
  Astar.astar (5, 5) (5, 5) (blk [(5, 5); (5, 6)]) = Some [(5, 5)].
Proof. apply astar_start_is_goal. reflexivity. Defined.

Lemma astar_no_repeat_witness :
  ∃ p, Astar.astar (0, 0) (2, 0) (blk [(1, 0)]) = Some p ∧ NoDup p.
Proof. apply astar_no_repeat; reflexivity. Defined.

Lemma astar_manhattan_witness :
  ∃ p, Astar.astar (0, 0) (2, 0) (blk [(1, 0)]) = Some p ∧
    (p = [(0, 0)] ∨ Astar.heur (2, 0) (0, 0) + 1 ≤ Z.of_nat (length p)) ∧
    (blk [(1, 0)] = ∅ →
     Z.of_nat (length p) = Astar.heur (2, 0) (0, 0) + 1).
Proof. apply astar_manhattan; reflexivity. Defined.

Lemma astar_more_blocked_witness :
  ∃ p p', Astar.astar (0, 0) (2, 0) ∅ = Some p ∧
    Astar.astar (0, 0) (2, 0) (blk [(1, 0)]) = Some p' ∧
    AstarFacts.is_walk (2, 0) ∅ (0, 0) (2, 0) p ∧
    AstarFacts.is_walk (2, 0) (blk [(1, 0)]) (0, 0) (2, 0) p' ∧
    (length p ≤ length p')%nat.
Proof.
  apply astar_more_blocked; [reflexivity|reflexivity|apply empty_subseteq|].
  exists [(0, 0); (0, 1); (1, 1); (2, 1); (2, 0)].
  apply AstarFacts.steps_ok_walk; [reflexivity|reflexivity|].
  vm_compute. reflexivity.
Defined.

(** *** The apple, the score and the exceptions *)

Lemma apple_stays_in_grid_witness : in_grid (apple after_eat1) = true.
Proof.
  apply (apple_stays_in_grid pygame_collidepoint pygame_colliderect (21, 20)
           [eat1]).
  - reflexivity.
  - repeat constructor.
  - apply run_eat.
Defined.

Lemma score_never_decreases_witness :
  0 ≤ score (initial_state (21, 20)) ≤ score after_eat1 ∧
  INIT_LEN ≤ length_cells (initial_state (21, 20)) ≤ length_cells after_eat1.
Proof.
  apply (score_never_decreases pygame_collidepoint pygame_colliderect (21, 20)
           [] eat1).
  - reflexivity.
  - apply frame_eat1.
Defined.

Lemma run_never_raises_witness :
  Forall spawn_draws_ok [slow1; slow2] ∧
  run pygame_collidepoint pygame_colliderect [slow1; slow2]
    (initial_state (0, 0)) ≠ Raise.
Proof.
  split; [apply spawn_draws_slow|].
  apply run_never_raises. apply spawn_draws_slow.
Defined.
